(** * The style engine processor (WP_Style_Engine_Processor)

    A shallow embedding of
    [packages/style-engine/class-wp-style-engine-processor.php].

    PHP objects are handles: a rule that sits in a store and in the
    processor's working set is one object, and a declaration set handed to a
    rule constructor is the object the caller holds.  The embedding therefore
    keeps an explicit object heap (declaration sets, rules and stores, each
    addressed by a handle) and the processor's two ordered arrays hold
    handles, not values.  Methods thread the processor and the heap and
    return [None] where PHP would stop with a fatal error (a method call on a
    missing array entry) or where a handle does not denote an object. *)

From Stdlib Require Import Ascii String.
From stdpp Require Import base option list strings.

Local Open Scope string_scope.
Local Open Scope nat_scope.
Local Open Scope list_scope.
Local Open Scope stdpp_scope.

(** ** PHP ordered arrays with string keys *)

(** A PHP array restricted to string keys: insertion ordered, one entry per
    key. *)
Abbreviation php_array V := (list (string * V)) (only parsing).

Module PhpArray.

Definition keys {V} (a : php_array V) : list string := a.*1.
Definition values {V} (a : php_array V) : list V := a.*2.

(** [$a[$k]], [None] when the key is not set. *)
Fixpoint get {V} (a : php_array V) (k : string) : option V :=
  match a with
  | [] => None
  | (k', v) :: a' => if decide (k' = k) then Some v else get a' k
  end.

(** [$a[$k] = $v]: an existing key keeps its position, a new key goes to the
    end. *)
Fixpoint set {V} (a : php_array V) (k : string) (v : V) : php_array V :=
  match a with
  | [] => [(k, v)]
  | (k', v') :: a' =>
      if decide (k' = k) then (k, v) :: a' else (k', v') :: set a' k v
  end.

(** [unset( $a[$k] )]. *)
Definition unset {V} (a : php_array V) (k : string) : php_array V :=
  filter (λ kv, kv.1 ≠ k) a.

(** [array_keys( $a, $v, true )]: the keys holding a value identical to
    [$v], in array order. *)
Definition array_keys {V} `{EqDecision V} (a : php_array V) (v : V)
  : list string :=
  keys (filter (λ kv, kv.2 = v) a).

(** [implode( $sep, $l )]. *)
Definition implode (sep : string) (l : list string) : string :=
  match l with
  | [] => EmptyString
  | s :: l' => foldl (λ acc x, acc +:+ sep +:+ x) s l'
  end.

(** [ksort( $a )] on string keys (insertion sort; keys are unique, so the
    order of equal keys is immaterial).  The keys are compared byte by byte,
    as PHP compares two string keys unless it reads both as numbers; keys
    that PHP reads as numbers, which it compares by value and stores as
    integers when they are written like one, are outside this model. *)
Fixpoint ksort_insert {V} (kv : string * V) (a : php_array V) : php_array V :=
  match a with
  | [] => [kv]
  | kv' :: a' =>
      if String.leb kv.1 kv'.1 then kv :: a else kv' :: ksort_insert kv a'
  end.

Definition ksort {V} (a : php_array V) : php_array V :=
  foldr ksort_insert [] a.

(** Well-formed arrays have pairwise distinct keys. *)
Definition wf {V} (a : php_array V) : Prop := NoDup (keys a).

End PhpArray.

Import PhpArray.

(** ** Characters and JSON text *)

Definition LF : string := String "010"%char EmptyString.
Definition TAB : string := String "009"%char EmptyString.
Definition DQUOTE : string := String "034"%char EmptyString.
Definition BACKSLASH : string := String "092"%char EmptyString.

(** Escaping of a JSON string body as PHP's [json_encode] does it for
    printable ASCII: the double quote, the backslash and the slash get a
    backslash in front. *)
Fixpoint json_escape (s : string) : string :=
  match s with
  | EmptyString => EmptyString
  | String c s' =>
      (if decide (c = "034"%char) then BACKSLASH +:+ DQUOTE
       else if decide (c = "092"%char) then BACKSLASH +:+ BACKSLASH
       else if decide (c = "047"%char) then BACKSLASH +:+ "/"
       else String c EmptyString) +:+ json_escape s'
  end.

Definition json_string (s : string) : string :=
  DQUOTE +:+ json_escape s +:+ DQUOTE.

(** [wp_json_encode] belongs to WordPress core, outside the package.  The
    processor only applies it to a key-sorted string-to-string array and only
    compares the results with [===]; this model renders such an array as a
    JSON object, and the empty array as [[]] as PHP does.  Arrays with
    integer-like keys, which PHP writes as JSON lists, and text outside
    printable ASCII are outside this model; the properties below treat the
    JSON text as opaque. *)
Definition wp_json_encode (a : php_array string) : string :=
  match a with
  | [] => "[]"
  | _ =>
      "{" +:+ implode "," (map (λ kv, json_string kv.1 +:+ ":" +:+ json_string kv.2) a)
          +:+ "}"
  end.

(** ** The object heap *)

(** Handles of the three object classes. *)
Abbreviation decl_ref := nat (only parsing).
Abbreviation rule_ref := nat (only parsing).
Abbreviation store_ref := nat (only parsing).

(** Modelled from the spec: an object of the absent class
    [WP_Style_Engine_CSS_Rule], a selector paired with one declaration set:
    its selector and the handle of its [WP_Style_Engine_CSS_Declarations]
    object. *)
Record WP_Style_Engine_CSS_Rule : Type := mkRule {
  selector : string;
  declarations : decl_ref
}.

(** Modelled from the spec: an object of the absent class
    [WP_Style_Engine_CSS_Rules_Store], a named collection of rules keyed by
    selector: its name and its rules. *)
Record WP_Style_Engine_CSS_Rules_Store : Type := mkStore {
  name : string;
  rules : php_array rule_ref
}.

(** The heap: the [n]-th object of a class has handle [n]; objects are never
    freed.  An object of the absent class [WP_Style_Engine_CSS_Declarations]
    is, as the spec has it, its ordered property-to-value array. *)
Record Heap : Type := mkHeap {
  decl_objs : list (php_array string);
  rule_objs : list WP_Style_Engine_CSS_Rule;
  store_objs : list WP_Style_Engine_CSS_Rules_Store
}.

Definition set_decl_objs (h : Heap) (ds : list (php_array string)) : Heap :=
  mkHeap ds (rule_objs h) (store_objs h).

Definition alloc_rule (r : WP_Style_Engine_CSS_Rule) (h : Heap) : rule_ref * Heap :=
  (length (rule_objs h), mkHeap (decl_objs h) (rule_objs h ++ [r]) (store_objs h)).

(** ** The collaborating classes *)

Module Declarations.

(** Modelled from the spec: [WP_Style_Engine_CSS_Declarations] is not part
    of the sources at hand.  [merge(other)]: for every property of [other],
    in its order, set or overwrite this set's value. *)
Definition add_declarations (mine other : php_array string) : php_array string :=
  foldl (λ acc kv, set acc kv.1 kv.2) mine other.

(** Modelled from the spec: [serialize(pretty)] of the absent class
    [WP_Style_Engine_CSS_Declarations].  Each pair renders as
    [property: value;]; pretty output puts a newline and one tab before
    each declaration, plain output nothing. *)
Definition get_declarations_string (pretty : bool) (d : php_array string) : string :=
  foldr (λ kv acc,
           (if pretty then LF +:+ TAB else EmptyString)
             +:+ kv.1 +:+ ": " +:+ kv.2 +:+ ";" +:+ acc) EmptyString d.

End Declarations.

Module Rule.

(** Modelled from the spec: the constructor of the absent class
    [WP_Style_Engine_CSS_Rule], called with a selector and a declarations
    object.  The new rule holds the object it was given (PHP passes the
    handle), so it shares the declaration set with whoever else holds it. *)
Definition new (sel : string) (d : decl_ref) (h : Heap) : rule_ref * Heap :=
  alloc_rule (mkRule sel d) h.

(** Modelled from the spec: [addDeclarations] of the absent class
    [WP_Style_Engine_CSS_Rule], called with a declarations object: it
    delegates to the declaration set's merge, which updates this rule's
    set in place and leaves the other one alone. *)
Definition add_declarations (r : rule_ref) (d : decl_ref) (h : Heap) : option Heap :=
  rule ← rule_objs h !! r;
  other ← decl_objs h !! d;
  mine ← decl_objs h !! declarations rule;
  Some (set_decl_objs h
          (<[declarations rule := Declarations.add_declarations mine other]>
             (decl_objs h))).

(** Modelled from the spec: [getCss(pretty)] of the absent class
    [WP_Style_Engine_CSS_Rule].  An empty declaration set gives the empty
    string; otherwise the selector, the opening brace (after a space when
    pretty), the declarations, and the closing brace (on a line of its own
    when pretty). *)
Definition get_css (pretty : bool) (r : rule_ref) (h : Heap) : option string :=
  rule ← rule_objs h !! r;
  d ← decl_objs h !! declarations rule;
  Some (match d with
        | [] => EmptyString
        | _ =>
            selector rule +:+ (if pretty then " {" else "{")
              +:+ Declarations.get_declarations_string pretty d
              +:+ (if pretty then LF +:+ "}" else "}")
        end).

End Rule.

Module Store.

(** Modelled from the spec: [getAllRules()] of the absent class
    [WP_Style_Engine_CSS_Rules_Store]: the rules held, in insertion order
    of first-seen selector. *)
Definition get_all_rules (s : store_ref) (h : Heap) : option (php_array rule_ref) :=
  rules <$> store_objs h !! s.

(** Modelled from the spec: the name accessor of the absent class
    [WP_Style_Engine_CSS_Rules_Store]. *)
Definition get_name (s : store_ref) (h : Heap) : option string :=
  name <$> store_objs h !! s.

End Store.

(** ** The processor *)

(** The two properties of the class: [$stores], keyed by store name, and
    [$css_rules], keyed by selector. *)
Record WP_Style_Engine_Processor : Type := mkProcessor {
  stores : php_array store_ref;
  css_rules : php_array rule_ref
}.

(** A new processor: both arrays empty. *)
Definition new_processor : WP_Style_Engine_Processor := mkProcessor [] [].

(** The argument of [add_rules]: one rule object or an array of them. *)
Inductive rules_arg : Type :=
| OneRule (r : rule_ref)
| RuleArray (rs : php_array rule_ref).

(** The [$options] array of [get_css]; an absent key is [None]. *)
Record css_options : Type := mkOptions {
  optimize : option bool;
  prettify : option bool
}.

Abbreviation state := (WP_Style_Engine_Processor * Heap)%type (only parsing).

(** [add_store]. *)
Definition add_store (s : store_ref) (st : state) : option state :=
  let '(this, h) := st in
  nm ← Store.get_name s h;
  Some (mkProcessor (set (stores this) nm s) (css_rules this), h).

(** The body of the [foreach] of [add_rules] for one rule. *)
Definition add_rules_step (st : state) (r : rule_ref) : option state :=
  let '(this, h) := st in
  rule ← rule_objs h !! r;
  match get (css_rules this) (selector rule) with
  | Some existing =>
      h' ← Rule.add_declarations existing (declarations rule) h;
      Some (this, h')
  | None =>
      Some (mkProcessor (stores this) (set (css_rules this) (selector rule) r), h)
  end.

Fixpoint add_rules_loop (rs : list rule_ref) (st : state) : option state :=
  match rs with
  | [] => Some st
  | r :: rs' => st' ← add_rules_step st r; add_rules_loop rs' st'
  end.

(** [add_rules]. *)
Definition add_rules (arg : rules_arg) (st : state) : option state :=
  let css_rules :=
    match arg with
    | OneRule r => [r]
    | RuleArray rs => values rs
    end in
  add_rules_loop css_rules st.

(** The first loop of [get_css]: the rules of every registered store. *)
Fixpoint pull_stores (ss : list store_ref) (st : state) : option state :=
  match ss with
  | [] => Some st
  | s :: ss' =>
      all ← Store.get_all_rules s st.2;
      st' ← add_rules (RuleArray all) st;
      pull_stores ss' st'
  end.

(** The first loop of [combine_rules_selectors]: selector to the JSON text of
    the key-sorted declarations. *)
Fixpoint selectors_json_loop (rs : list rule_ref) (h : Heap)
    (selectors_json : php_array string) : option (php_array string) :=
  match rs with
  | [] => Some selectors_json
  | r :: rs' =>
      rule ← rule_objs h !! r;
      d ← decl_objs h !! declarations rule;
      selectors_json_loop rs' h
        (set selectors_json (selector rule) (wp_json_encode (ksort d)))
  end.

(** The second loop of [combine_rules_selectors].  [todo] is what the
    [foreach] still has to visit: a by-value [foreach] walks the array as it
    was on entry, while [array_keys] and [unset] in the body work on the
    current [$selectors_json]. *)
Fixpoint combine_loop (todo : php_array string) (selectors_json : php_array string)
    (rules : php_array rule_ref) (h : Heap) : option (php_array rule_ref * Heap) :=
  match todo with
  | [] => Some (rules, h)
  | (sel, json) :: todo' =>
      let duplicates := array_keys selectors_json json in
      if decide (length duplicates ≤ 1)%nat then
        combine_loop todo' selectors_json rules h
      else
        r ← get rules sel;
        rule ← rule_objs h !! r;
        let selectors_json' := foldl unset selectors_json duplicates in
        let rules' := foldl unset rules duplicates in
        let duplicate_selectors := implode "," duplicates in
        let '(combined, h') := Rule.new duplicate_selectors (declarations rule) h in
        combine_loop todo' selectors_json' (set rules' duplicate_selectors combined) h'
  end.

(** [combine_rules_selectors]. *)
Definition combine_rules_selectors (st : state) : option state :=
  let '(this, h) := st in
  selectors_json ← selectors_json_loop (values (css_rules this)) h [];
  '(rules', h') ← combine_loop selectors_json selectors_json (css_rules this) h;
  Some (mkProcessor (stores this) rules', h').

(** The last loop of [get_css]: [$css] grows by each rule's text and, when
    prettifying, by a newline. *)
Fixpoint build_css (pretty : bool) (rs : list rule_ref) (h : Heap) (css : string)
  : option string :=
  match rs with
  | [] => Some css
  | r :: rs' =>
      s ← Rule.get_css pretty r h;
      build_css pretty rs' h (css +:+ s +:+ (if pretty then LF else EmptyString))
  end.

(** [get_css].  [script_debug] is the value of
    [defined( 'SCRIPT_DEBUG' ) && SCRIPT_DEBUG]. *)
Definition get_css (script_debug : bool) (options : css_options) (st : state)
  : option (string * state) :=
  let opt_optimize := default true (optimize options) in
  let opt_prettify := default script_debug (prettify options) in
  st1 ← pull_stores (values (stores st.1)) st;
  st2 ← (if opt_optimize then combine_rules_selectors st1 else Some st1);
  css ← build_css opt_prettify (values (css_rules st2.1)) st2.2 EmptyString;
  Some (css, st2).

(** * Notions used in the statements *)

(** ** [add_store] *)

(** Chained [add_store] calls. *)
Fixpoint add_stores (ss : list store_ref) (st : state) : option state :=
  match ss with
  | [] => Some st
  | s :: ss' => st' ← add_store s st; add_stores ss' st'
  end.

(** Two store objects registered under one name. *)
Definition same_name_heap : Heap :=
  mkHeap [] [] [mkStore "block-supports" []; mkStore "block-supports" []].

(** ** [add_rules] *)

(** A rule handle is usable when it denotes a rule whose declarations handle
    denotes a declaration set. *)
Definition rule_ok (h : Heap) (r : rule_ref) : Prop :=
  ∃ rule, rule_objs h !! r = Some rule
          ∧ is_Some (decl_objs h !! declarations rule).

(** The rules an [add_rules] argument stands for. *)
Definition rules_of_arg (arg : rules_arg) : list rule_ref :=
  match arg with
  | OneRule r => [r]
  | RuleArray rs => values rs
  end.


(** ** Strings and whitespace *)

(** Space, tab and newline. *)
Definition is_ws (c : ascii) : bool :=
  bool_decide (c = " "%char ∨ c = "009"%char ∨ c = "010"%char).

(** A text with its whitespace removed. *)
Fixpoint strip_ws (s : string) : string :=
  match s with
  | EmptyString => EmptyString
  | String c s' => if is_ws c then strip_ws s' else String c (strip_ws s')
  end.

(** ** Serialisation *)

(** The newline [get_css] puts after a rule's text. *)
Definition rule_suffix (pretty : bool) : string := if pretty then LF else EmptyString.

(** ** The three-rule example: [.a] and [.b] red, [.c] blue *)

(** The example heap: three declaration sets and the three rules. *)
Definition abc_heap : Heap :=
  mkHeap [[("color", "red")]; [("color", "red")]; [("color", "blue")]]
         [mkRule ".a" 0; mkRule ".b" 1; mkRule ".c" 2] [].

Definition abc_processor : WP_Style_Engine_Processor :=
  mkProcessor [] [(".a", 0); (".b", 1); (".c", 2)].

(** ** Rules without declarations *)

(** One rule without declarations, [.a {}], alone in the working set. *)
Definition empty_rule_heap : Heap := mkHeap [[]] [mkRule ".a" 0] [].
Definition empty_rule_processor : WP_Style_Engine_Processor :=
  mkProcessor [] [(".a", 0)].

(** ** Rules pulled from stores *)

(** The rules of the stores [ss], store after store, each store's rules in
    its own order. *)
Fixpoint all_store_rules (ss : list store_ref) (h : Heap) : option (list rule_ref) :=
  match ss with
  | [] => Some []
  | s :: ss' =>
      rs ← Store.get_all_rules s h;
      rest ← all_store_rules ss' h;
      Some (values rs ++ rest)
  end.

(** The two stores of the end-to-end scenario. *)
Definition wp_heap : Heap :=
  mkHeap [[("margin", "0")]; [("margin", "0")]]
         [mkRule ".wp-1" 0; mkRule ".wp-2" 1]
         [mkStore "block-supports" [(".wp-1", 0)];
          mkStore "global-styles" [(".wp-2", 1)]].

(** ** The combine pass without the heap *)

(** An entry of the working set seen through the heap: the rule's handle and
    the handle of its declarations. *)
Abbreviation entry := (rule_ref * decl_ref)%type (only parsing).

(** A function applied to the values of an array. *)
Definition vmap {A B} (f : A → B) (a : php_array A) : php_array B :=
  prod_map id f <$> a.

(** [combine_loop] on entries: all it reads from the heap is the declarations
    handle of the rule under [$selector], all it writes is one new rule
    object per combined selector, so the heap shrinks to the list of rule
    objects. *)
Fixpoint combine_entries (todo sj : php_array string) (rv : php_array entry)
    (objs : list WP_Style_Engine_CSS_Rule)
  : option (php_array entry * list WP_Style_Engine_CSS_Rule) :=
  match todo with
  | [] => Some (rv, objs)
  | (sel, json) :: todo' =>
      let duplicates := array_keys sj json in
      if decide (length duplicates ≤ 1)%nat then
        combine_entries todo' sj rv objs
      else
        e ← get rv sel;
        let duplicate_selectors := implode "," duplicates in
        combine_entries todo' (foldl unset sj duplicates)
          (set (foldl unset rv duplicates) duplicate_selectors (length objs, e.2))
          (objs ++ [mkRule duplicate_selectors e.2])
  end.

(** [rv] describes the working set [rules] in the heap [h]. *)
Definition represents (h : Heap) (rules : php_array rule_ref)
    (rv : php_array entry) : Prop :=
  rules = vmap fst rv
  ∧ ∀ k r d, (k, (r, d)) ∈ rv → rule_objs h !! r = Some (mkRule k d).

(** ** The combine pass leaves pairwise different declarations *)

(** The loop invariant of [combine_entries], for the snapshot [sj0], the
    entries [todo] still to visit, the current [$selectors_json] and the
    current working set.  [$selectors_json] is the snapshot without the
    entries of the JSON texts handled so far and its selectors are in the
    working set; two entries of the working set with the same JSON text are
    still in [$selectors_json] under that text, and the text is yet to be
    visited. *)
Definition combine_inv (jd : decl_ref → string)
    (sj0 todo sj : php_array string) (rv : php_array entry) : Prop :=
  wf sj0 ∧ wf rv
  ∧ (∃ gone : list string, sj = filter (λ kv, kv.2 ∉ gone) sj0)
  ∧ (∀ k, k ∈ keys sj → k ∈ keys rv)
  ∧ (∀ kj, kj ∈ todo → kj ∈ sj0)
  ∧ (∀ k1 k2 e1 e2,
        k1 ≠ k2 → (k1, e1) ∈ rv → (k2, e2) ∈ rv → jd e1.2 = jd e2.2 →
        (k1, jd e1.2) ∈ sj ∧ (k2, jd e1.2) ∈ sj ∧ ∃ k, (k, jd e1.2) ∈ todo).

(** ** The combine pass in the heap *)

(** The JSON text [combine_rules_selectors] computes for the declarations
    behind a handle. *)
Definition decl_json (h : Heap) (d : decl_ref) : string :=
  wp_json_encode (ksort (default [] (decl_objs h !! d))).

(** A well-formed working set: one entry per selector, and every entry holds
    a rule object that has the entry's key as its selector and a
    declarations object. *)
Definition working_set_wf (h : Heap) (rules : php_array rule_ref) : Prop :=
  wf rules
  ∧ ∀ k r, (k, r) ∈ rules →
      ∃ d, rule_objs h !! r = Some (mkRule k d) ∧ is_Some (decl_objs h !! d).

(** The entries [rv] are backed by the rule objects [objs] and by
    declaration sets of [h]. *)
Definition entries_ok (h : Heap) (objs : list WP_Style_Engine_CSS_Rule)
    (rv : php_array entry) : Prop :=
  ∀ k r d, (k, (r, d)) ∈ rv →
    objs !! r = Some (mkRule k d) ∧ is_Some (decl_objs h !! d).

(** ** The result of the combine pass in closed form *)

(** Assigning a list of entries in order: [$a[$k] = $v] for each. *)
Definition assign_all {V} (a : php_array V) (l : php_array V) : php_array V :=
  foldl (λ acc c, set acc c.1 c.2) a l.

(** The working set with what the pass needs of each rule: under the
    selector, the JSON text of the declarations, the rule's handle and the
    handle of its declarations. *)
Abbreviation described := (list (string * (string * (nat * nat)))) (only parsing).

(** The selectors whose declarations have the JSON text [j], in first-seen
    order. *)
Definition group (es : described) (j : string) : list string :=
  keys (filter (λ e, e.2.1 = j) es).

(** The rules with the JSON text [j] get combined: there are two or more. *)
Definition combines (es : described) (j : string) : Prop :=
  2 ≤ length (group es j).

Global Instance combines_dec es j : Decision (combines es j).
Proof. unfold combines. apply _. Defined.

(** The first member of a group that gets combined. *)
Definition is_leader (es : described) (e : string * (string * (nat * nat))) : Prop :=
  combines es e.2.1 ∧ head (group es e.2.1) = Some e.1.

Global Instance is_leader_dec es e : Decision (is_leader es e).
Proof. unfold is_leader. apply _. Defined.

(** The combined selector of a leader's group with the leader's
    declarations. *)
Definition join_of (es : described) (e : string * (string * (nat * nat)))
  : string * nat :=
  (implode "," (group es e.2.1), e.2.2.2).

(** The combined rules of the groups led by entries of [done]. *)
Definition joined (es done : described) : php_array decl_ref :=
  join_of es <$> filter (is_leader es) done.

(** The JSON text [j] was handled while [done] was visited. *)
Definition handled (es done : described) (j : string) : Prop :=
  j ∈ ((λ e, e.2.1) <$> done) ∧ combines es j.

Global Instance handled_dec es done j : Decision (handled es done j).
Proof. unfold handled. apply _. Defined.

(** The entries whose group was not combined while [done] was visited. *)
Definition remaining (es done : described) : described :=
  filter (λ e, ¬ handled es done e.2.1) es.

(** The new rule objects are numbered from [n0] on. *)
Definition numbered (n0 : nat) (l : php_array decl_ref) : php_array entry :=
  imap (λ i c, (c.1, (n0 + i, c.2))) l.

(** The state of the loop after [done] was visited. *)
Definition sj_at (es done : described) : php_array string :=
  vmap fst (remaining es done).
Definition rv_at (es : described) (n0 : nat) (done : described) : php_array entry :=
  assign_all (vmap snd (remaining es done)) (numbered n0 (joined es done)).
Definition objs_at (es : described) (objs0 : list WP_Style_Engine_CSS_Rule)
    (done : described) : list WP_Style_Engine_CSS_Rule :=
  objs0 ++ ((λ c, mkRule c.1 c.2) <$> joined es done).

(** No combined selector is the selector of a rule that is combined
    itself. *)
Definition no_nested_collision (es : described) : Prop :=
  Forall (λ e1, Forall (λ e2, combines es e1.2.1 → combines es e2.2.1 →
                              implode "," (group es e1.2.1) ≠ e2.1) es) es.

(** The rules the pass leaves alone, and the combined rules it makes, in the
    order of their groups' first members. *)
Definition untouched (es : described) : described :=
  filter (λ e, ¬ combines es e.2.1) es.
Definition combined (es : described) : php_array decl_ref := joined es es.

(** The working set [rules] of the heap [h], described. *)
Definition describe (h : Heap) (rules : php_array rule_ref) : described :=
  vmap (λ r, let d := from_option declarations 0 (rule_objs h !! r) in
             (decl_json h d, (r, d))) rules.

(** No combined selector is a selector of the working set or the combined
    selector of another group. *)
Definition no_collision (es : described) : Prop :=
  Forall (λ K, K ∉ keys es) (keys (combined es)) ∧ NoDup (keys (combined es)).

(** The order of the selectors if every combined rule took the place of its
    group's first member, as the spec words the combine pass. *)
Definition in_place_selectors (es : described) : list string :=
  omap (λ e, if decide (combines es e.2.1)
             then (if decide (head (group es e.2.1) = Some e.1)
                   then Some (implode "," (group es e.2.1)) else None)
             else Some e.1) es.

(** Four rules: [.a] and [.b] red, [.c] blue, [.d] green. *)
Definition abcd_heap : Heap :=
  mkHeap [[("color", "red")]; [("color", "red")]; [("color", "blue")];
          [("color", "green")]]
         [mkRule ".a" 0; mkRule ".b" 1; mkRule ".c" 2; mkRule ".d" 3] [].

Definition abcd_processor : WP_Style_Engine_Processor :=
  mkProcessor [] [(".a", 0); (".b", 1); (".c", 2); (".d", 3)].

(** ** A combined selector that is already a selector *)

(** The loop invariant for a rule that is there under [K] with a JSON text
    [j_pre] of its own, while the group [G] with the JSON text [j] joins to
    [K]; [n0] is the number of rule objects before the pass.  The only entry
    with the JSON text [j_pre] is the one that was there under [K]; and
    either the group [G] is complete and still to be visited, or the entry
    under [K] is a rule object made by the pass. *)
Definition overwrite_inv (jd : decl_ref → string) (sj0 : php_array string)
    (K j_pre j : string) (G : list string) (r_pre n0 : nat)
    (todo sj : php_array string) (rv : php_array entry)
    (objs : list WP_Style_Engine_CSS_Rule) : Prop :=
  combine_inv jd sj0 todo sj rv
  ∧ n0 ≤ length objs
  ∧ (∀ k r d, (k, (r, d)) ∈ rv → jd d = j_pre → k = K ∧ r = r_pre)
  ∧ (((∃ g, (g, j) ∈ todo) ∧ array_keys sj j = G)
     ∨ (∃ r d, get rv K = Some (r, d) ∧ n0 ≤ r)).

(** [.a] and [.b] red, and a rule with the selector [.a,.b], blue. *)
Definition collision_heap : Heap :=
  mkHeap [[("color", "red")]; [("color", "red")]; [("color", "blue")]]
         [mkRule ".a" 0; mkRule ".b" 1; mkRule ".a,.b" 2] [].

Definition collision_processor : WP_Style_Engine_Processor :=
  mkProcessor [] [(".a", 0); (".b", 1); (".a,.b", 2)].

(** [.a,.b] and [.c] blue, [.a] and [.b] red: the rule under the joined
    selector shares its declarations' JSON text with [.c]. *)
Definition shared_collision_heap : Heap :=
  mkHeap [[("color", "blue")]; [("color", "blue")]; [("color", "red")];
          [("color", "red")]]
         [mkRule ".a,.b" 0; mkRule ".c" 1; mkRule ".a" 2; mkRule ".b" 3] [].

Definition shared_collision_processor : WP_Style_Engine_Processor :=
  mkProcessor [] [(".a,.b", 0); (".c", 1); (".a", 2); (".b", 3)].

(** ** Well-formed processors *)

(** A store handle is usable when it denotes a store whose rule handles are
    usable. *)
Definition store_ok (h : Heap) (s : store_ref) : Prop :=
  ∃ st, store_objs h !! s = Some st ∧ Forall (rule_ok h) (values (rules st)).

(** A well-formed processor: a well-formed working set and usable stores. *)
Definition processor_wf (this : WP_Style_Engine_Processor) (h : Heap) : Prop :=
  working_set_wf h (css_rules this) ∧ Forall (store_ok h) (values (stores this)).

(** No two rules of the working set have declarations with the same JSON
    text. *)
Definition distinct_declarations (h : Heap) (rules : php_array rule_ref) : Prop :=
  ∀ k1 k2 r1 r2 rule1 rule2,
    (k1, r1) ∈ rules → (k2, r2) ∈ rules →
    rule_objs h !! r1 = Some rule1 → rule_objs h !! r2 = Some rule2 →
    decl_json h (declarations rule1) = decl_json h (declarations rule2) →
    k1 = k2.

(** ** Property names that PHP reads as numbers *)

(** The white space PHP skips in front of a number: space, tab, newline,
    vertical tab, form feed and carriage return. *)
Definition php_space (c : ascii) : bool :=
  bool_decide (c ∈ [" "; "009"; "010"; "011"; "012"; "013"]%char).

Definition is_digit (c : ascii) : bool :=
  bool_decide (48 ≤ nat_of_ascii c ∧ nat_of_ascii c ≤ 57).

Fixpoint skip_space (s : string) : string :=
  match s with
  | String c s' => if php_space c then skip_space s' else s
  | EmptyString => EmptyString
  end.

Definition skip_sign (s : string) : string :=
  match s with
  | String c s' => if bool_decide (c = "+"%char ∨ c = "-"%char) then s' else s
  | EmptyString => EmptyString
  end.

(** PHP reads a string as a number only if, after white space and one
    optional sign, it goes on with a digit, or with a dot and a digit.  A
    string for which this is [false] is no numeric string and is not written
    like an integer, so as an array key it stays a string, and [ksort]
    compares two such keys byte by byte. *)
Definition numeric_prefix (s : string) : bool :=
  match skip_sign (skip_space s) with
  | String c s' =>
      is_digit c
      || (bool_decide (c = "."%char)
          && match s' with String c' _ => is_digit c' | EmptyString => false end)
  | EmptyString => false
  end.

(** No property name of the declaration set can be read as a number. *)
Definition plain_keys {V} (a : php_array V) : Prop :=
  Forall (λ kv, numeric_prefix kv.1 = false) a.

(** ** Properties in different orders *)

(** [.a] and [.b] hold the same two declarations in opposite orders, [.c]
    something else. *)
Definition permuted_heap : Heap :=
  mkHeap [[("color", "red"); ("margin", "0")];
          [("margin", "0"); ("color", "red")];
          [("color", "blue")]]
         [mkRule ".a" 0; mkRule ".b" 1; mkRule ".c" 2] [].

Definition permuted_processor : WP_Style_Engine_Processor :=
  mkProcessor [] [(".a", 0); (".b", 1); (".c", 2)].

(** ** Repeated calls without the combine pass *)

(** No two of the rule objects [rs] hold the same declarations object. *)
Definition unshared_declarations (h : Heap) (rs : list rule_ref) : Prop :=
  ∀ r1 r2 rule1 rule2,
    r1 ∈ rs → r2 ∈ rs →
    rule_objs h !! r1 = Some rule1 → rule_objs h !! r2 = Some rule2 →
    declarations rule1 = declarations rule2 → r1 = r2.

(** Declaration sets merged one after the other into [mine]. *)
Definition merge_all (mine : php_array string) (others : list (php_array string))
  : php_array string :=
  foldl Declarations.add_declarations mine others.

(** The value of the property [p] after such merges: the value the last set
    that has [p] gives it. *)
Definition override (p : string) (acc : option string)
    (others : list (php_array string)) : option string :=
  foldl (λ acc c, match get c p with Some v => Some v | None => acc end)
        acc others.

(** The declarations object [add_rules] merges the rule [r] into, for the
    working set [W]: that of the entry under the rule's selector. *)
Definition merge_target (R : list WP_Style_Engine_CSS_Rule)
    (W : php_array rule_ref) (r : rule_ref) : option decl_ref :=
  rule ← R !! r;
  e ← get W (selector rule);
  erule ← R !! e;
  Some (declarations erule).

(** The declarations object [d] belongs to a rule of the working set. *)
Definition is_target (R : list WP_Style_Engine_CSS_Rule)
    (W : php_array rule_ref) (d : decl_ref) : Prop :=
  ∃ k e erule, (k, e) ∈ W ∧ R !! e = Some erule ∧ declarations erule = d.

(** The declaration sets that feeding the rules [rs] to [add_rules] merges
    into the declarations object [t], other than [t] itself. *)
Definition merged_into (R : list WP_Style_Engine_CSS_Rule)
    (W : php_array rule_ref) (D : list (php_array string))
    (rs : list rule_ref) (t : decl_ref) : list (php_array string) :=
  omap (λ r, rule ← R !! r;
             tr ← merge_target R W r;
             if decide (tr = t ∧ declarations rule ≠ t)
             then D !! declarations rule else None) rs.

(** The declaration sets of the rules of [rs] with the selector [k], other
    than the rule [e] itself, in the order of [rs]. *)
Definition other_rules_for (h : Heap) (k : string) (e : rule_ref)
    (rs : list rule_ref) : list (php_array string) :=
  omap (λ r, rule ← rule_objs h !! r;
             if decide (selector rule = k ∧ r ≠ e)
             then decl_objs h !! declarations rule else None) rs.

(** Two stores with a rule for [.x] each, and a third rule for [.y]. *)
Definition override_heap : Heap :=
  mkHeap [[("color", "red"); ("margin", "0")]; [("color", "blue")];
          [("color", "green")]]
         [mkRule ".x" 0; mkRule ".x" 1; mkRule ".y" 2]
         [mkStore "block-supports" [(".x", 0)];
          mkStore "global-styles" [(".x", 1); (".y", 2)]].

Definition override_processor : WP_Style_Engine_Processor :=
  mkProcessor [("block-supports", 0); ("global-styles", 1)] [].

(** ** Repeated calls with stores attached *)

(** [.a] and [.b] red in the working set, and one store holding [.c]
    blue. *)
Definition mixed_heap : Heap :=
  mkHeap [[("color", "red")]; [("color", "red")]; [("color", "blue")]]
         [mkRule ".a" 0; mkRule ".b" 1; mkRule ".c" 2]
         [mkStore "block-supports" [(".c", 2)]].

Definition mixed_processor : WP_Style_Engine_Processor :=
  mkProcessor [("block-supports", 0)] [(".a", 0); (".b", 1)].

(** * Properties *)

(** ** Lists *)

Lemma filter_all {A} (P : A → Prop) `{!∀ x, Decision (P x)} (l : list A) :
  (∀ x, x ∈ l → P x) → filter P l = l.
Proof.
  induction l as [|x l IH]; intros Hall; [done|].
  rewrite filter_cons_True by (apply Hall; left).
  f_equal. apply IH. intros y Hy. apply Hall. by right.
Qed.

Lemma filter_none {A} (P : A → Prop) `{!∀ x, Decision (P x)} (l : list A) :
  (∀ x, x ∈ l → ¬ P x) → filter P l = [].
Proof.
  induction l as [|x l IH]; intros Hall; [done|].
  rewrite filter_cons_False by (apply Hall; left).
  apply IH. intros y Hy. apply Hall. by right.
Qed.

(** ** Ordered arrays *)

Section array_facts.
Context {V : Type}.
Implicit Types (a : php_array V) (k : string) (v : V).

Lemma get_None a k : get a k = None ↔ k ∉ keys a.
Proof.
  unfold keys. induction a as [|[k' v'] a IH]; csimpl.
  - split; [intros _; apply not_elem_of_nil | done].
  - case_decide as Hk; subst.
    + split; [done | intros Hn; destruct Hn; left].
    + rewrite IH, not_elem_of_cons. split; [intros; split; congruence | intros [_ ?]; done].
Qed.

Lemma get_Some_elem a k v : get a k = Some v → (k, v) ∈ a.
Proof.
  induction a as [|[k' v'] a IH]; csimpl; [done|].
  case_decide; subst.
  - intros [= ->]. left.
  - intros. right. auto.
Qed.

Lemma get_is_Some a k : is_Some (get a k) ↔ k ∈ keys a.
Proof.
  rewrite <-not_eq_None_Some, get_None.
  destruct (decide (k ∈ keys a)); naive_solver.
Qed.

Lemma elem_get a k v : wf a → (k, v) ∈ a → get a k = Some v.
Proof.
  unfold wf, keys. induction a as [|[k' v'] a IH]; csimpl.
  - intros _ H. by apply elem_of_nil in H.
  - rewrite NoDup_cons. intros [Hk Ha] [[= -> ->]|Hin]%elem_of_cons.
    + by rewrite decide_True.
    + rewrite decide_False; [auto|].
      intros ->. apply Hk. apply list_elem_of_fmap. by exists (k, v).
Qed.

Lemma get_set_eq a k v : get (set a k v) k = Some v.
Proof.
  induction a as [|[k' v'] a IH]; csimpl.
  - by rewrite decide_True.
  - case_decide; csimpl; [by rewrite decide_True | by rewrite decide_False].
Qed.

Lemma get_set_ne a k k' v : k ≠ k' → get (set a k v) k' = get a k'.
Proof.
  intros Hne. induction a as [|[k0 v0] a IH]; csimpl.
  - by rewrite decide_False.
  - case_decide; subst; csimpl.
    + by rewrite !decide_False.
    + by rewrite IH.
Qed.

Lemma set_not_elem a k v : k ∉ keys a → set a k v = a ++ [(k, v)].
Proof.
  unfold keys. induction a as [|[k' v'] a IH]; csimpl; [done|].
  rewrite not_elem_of_cons. intros [Hne Ha].
  rewrite decide_False by done. by rewrite IH.
Qed.

Lemma keys_set_elem a k v : k ∈ keys a → keys (set a k v) = keys a.
Proof.
  unfold keys. induction a as [|[k' v'] a IH]; csimpl.
  - intros H. by apply elem_of_nil in H.
  - case_decide; subst; csimpl; [done|].
    intros [?|?]%elem_of_cons; [congruence|]. by rewrite IH.
Qed.

Lemma keys_set a k v :
  keys (set a k v) = if decide (k ∈ keys a) then keys a else keys a ++ [k].
Proof.
  case_decide.
  - by apply keys_set_elem.
  - rewrite set_not_elem by done. unfold keys. by rewrite fmap_app.
Qed.

Lemma wf_set a k v : wf a → wf (set a k v).
Proof.
  unfold wf. rewrite keys_set. case_decide; [done|].
  intros Ha. apply NoDup_app. split_and!; [done| |apply NoDup_singleton].
  intros x Hx ->%list_elem_of_singleton. done.
Qed.

Lemma keys_set_prefix a k v : keys a `prefix_of` keys (set a k v).
Proof.
  rewrite keys_set. case_decide; [done|]. by apply prefix_app_r.
Qed.

Lemma elem_set_inv a k v k' v' :
  (k', v') ∈ set a k v → (k', v') = (k, v) ∨ (k', v') ∈ a.
Proof.
  induction a as [|[k0 v0] a IH]; csimpl.
  - intros ->%list_elem_of_singleton. by left.
  - case_decide; subst.
    + intros [->|?]%elem_of_cons; [by left|]. right. by right.
    + intros [->|?]%elem_of_cons; [right; left|].
      destruct IH as [?|?]; [done|by left|]. right. by right.
Qed.

Lemma unset_all a (ks : list string) :
  foldl unset a ks = filter (λ kv, kv.1 ∉ ks) a.
Proof.
  revert a. induction ks as [|k ks IH]; intros a; csimpl.
  - symmetry. apply filter_all. intros ? _. apply not_elem_of_nil.
  - rewrite IH. unfold unset. rewrite list_filter_filter.
    apply list_filter_iff. intros [k' v']. simpl.
    rewrite not_elem_of_cons. split; [intros [? ?]; split; congruence | intros [? ?]; done].
Qed.

Lemma wf_filter (P : string * V → Prop) `{!∀ x, Decision (P x)} a :
  wf a → wf (filter P a).
Proof.
  unfold wf, keys. intros Ha.
  eapply sublist_NoDup; [exact Ha|].
  apply fmap_sublist, sublist_filter.
Qed.

End array_facts.

(** ** Declaration sets *)

Section declarations_facts.
Implicit Types (mine other : php_array string).

Lemma add_declarations_cons mine k v other :
  Declarations.add_declarations mine ((k, v) :: other) =
  Declarations.add_declarations (set mine k v) other.
Proof. reflexivity. Qed.

(** Merging is last-write-wins: a property of [other] takes the value
    [other] gives it, every other property keeps its value. *)
Lemma add_declarations_get mine other p :
  wf other →
  get (Declarations.add_declarations mine other) p =
  match get other p with Some v => Some v | None => get mine p end.
Proof.
  unfold wf, keys. revert mine.
  induction other as [|[k v] other IH]; intros mine Hwf; [done|].
  rewrite fmap_cons in Hwf. cbn [fst] in Hwf.
  apply NoDup_cons in Hwf as [Hk Hother].
  rewrite add_declarations_cons, IH by done. cbn [get].
  case_decide as Hkp; subst.
  - apply get_None in Hk. rewrite Hk. apply get_set_eq.
  - destruct (get other p); [done|]. by apply get_set_ne.
Qed.

Lemma add_declarations_wf mine other :
  wf mine → wf (Declarations.add_declarations mine other).
Proof.
  revert mine. induction other as [|[k v] other IH]; intros mine Hm; [done|].
  rewrite add_declarations_cons. apply IH. by apply wf_set.
Qed.

Lemma add_declarations_keys_prefix mine other :
  keys mine `prefix_of` keys (Declarations.add_declarations mine other).
Proof.
  revert mine. induction other as [|[k v] other IH]; intros mine; [done|].
  rewrite add_declarations_cons. etrans; [apply keys_set_prefix | apply IH].
Qed.

End declarations_facts.

(** ** [add_store] *)

Lemma add_store_Some s this h st' :
  add_store s (this, h) = Some st' →
  ∃ nm, Store.get_name s h = Some nm ∧
        st' = (mkProcessor (set (stores this) nm s) (css_rules this), h).
Proof.
  unfold add_store. destruct (Store.get_name s h) as [nm|]; [|done].
  intros [= <-]. by exists nm.
Qed.

(** C9.  [add_store] keeps one store per name and the last registration of a
    name wins: after any chain of [add_store] calls the store array has
    pairwise distinct names, the entry of a name is the last store
    registered under it (or the entry it had before, when the chain
    registers none), and registering a name that is already there leaves the
    list of names as it was.  Neither the working set nor the heap
    changes. *)
Theorem add_store_one_per_name_last_wins
    (ss : list store_ref) (this this' : WP_Style_Engine_Processor) (h h' : Heap) :
  wf (stores this) →
  add_stores ss (this, h) = Some (this', h') →
  wf (stores this')
  ∧ h' = h
  ∧ css_rules this' = css_rules this
  ∧ (∀ nm, get (stores this') nm =
           match last (filter (λ s, Store.get_name s h = Some nm) ss) with
           | Some s => Some s
           | None => get (stores this) nm
           end)
  ∧ (∀ s nm, ss = [s] → Store.get_name s h = Some nm →
             nm ∈ keys (stores this) →
             keys (stores this') = keys (stores this)
             ∧ length (stores this') = length (stores this)).
Proof.
  revert this. induction ss as [|s ss IH]; intros this Hwf Hrun.
  - injection Hrun as <- <-. split_and!; try done.
  - cbn [add_stores] in Hrun.
    destruct (add_store s (this, h)) as [st1|] eqn:Hadd; [|discriminate].
    apply add_store_Some in Hadd as (nm & Hnm & ->). cbn [mbind option_bind] in Hrun.
    pose proof Hrun as Hrun'.
    apply IH in Hrun as (Hwf' & -> & Hrules & Hget & _);
      [|simpl; by apply wf_set].
    split_and!; try done.
    + intros nm'. rewrite Hget. simpl.
      rewrite filter_cons. case_decide as Heq.
      * assert (nm' = nm) as -> by congruence.
        destruct (filter _ ss) as [|s' l] eqn:Hf; simpl.
        -- apply get_set_eq.
        -- rewrite last_cons. by destruct (last l).
      * destruct (last (filter _ ss)); [done|]. simpl.
        apply get_set_ne. congruence.
    + intros s0 nm0 [= -> ->] Hnm0 Hin. simpl in *.
      assert (nm0 = nm) as -> by congruence.
      cut (keys (stores this') = keys (stores this)).
      { intros Hk. split; [done|].
        unfold keys in Hk. apply (f_equal length) in Hk.
        by rewrite !length_fmap in Hk. }
      injection Hrun' as <-. simpl. by apply keys_set_elem.
Qed.

Lemma add_store_one_per_name_last_wins_witness :
  ∃ this',
    add_stores [0; 1] (new_processor, same_name_heap) = Some (this', same_name_heap)
    ∧ wf (stores this')
    ∧ get (stores this') "block-supports" = Some 1.
Proof.
  exists (mkProcessor [("block-supports", 1)] []).
  split; [reflexivity|].
  destruct (add_store_one_per_name_last_wins [0; 1] new_processor
              (mkProcessor [("block-supports", 1)] [])
              same_name_heap same_name_heap)
    as (Hwf & _ & _ & Hget & _);
    [apply NoDup_nil_2 | reflexivity |].
  split; [exact Hwf|]. rewrite Hget. reflexivity.
Defined.

(** ** [add_rules] *)

Lemma rule_add_declarations_Some r d h h' :
  Rule.add_declarations r d h = Some h' →
  ∃ rule mine other,
    rule_objs h !! r = Some rule ∧
    decl_objs h !! declarations rule = Some mine ∧
    decl_objs h !! d = Some other ∧
    h' = set_decl_objs h
           (<[declarations rule := Declarations.add_declarations mine other]>
              (decl_objs h)).
Proof.
  unfold Rule.add_declarations.
  destruct (rule_objs h !! r) as [rule|]; [|done]. simpl.
  destruct (decl_objs h !! d) as [other|]; [|done]. simpl.
  destruct (decl_objs h !! declarations rule) as [mine|] eqn:Hm; [|done]. simpl.
  intros [= <-]. by exists rule, mine, other.
Qed.

Lemma add_rules_step_Some this h r st' :
  add_rules_step (this, h) r = Some st' →
  ∃ rule, rule_objs h !! r = Some rule ∧
    match get (css_rules this) (selector rule) with
    | Some existing =>
        ∃ h', Rule.add_declarations existing (declarations rule) h = Some h'
              ∧ st' = (this, h')
    | None =>
        st' = (mkProcessor (stores this)
                 (css_rules this ++ [(selector rule, r)]), h)
    end.
Proof.
  unfold add_rules_step.
  destruct (rule_objs h !! r) as [rule|]; [|done]. simpl.
  intros Hst. exists rule. split; [done|].
  destruct (get (css_rules this) (selector rule)) as [existing|] eqn:Hg.
  - destruct (Rule.add_declarations _ _ _) as [h'|]; [|done].
    injection Hst as <-. by exists h'.
  - injection Hst as <-. rewrite set_not_elem; [done|]. by apply get_None.
Qed.

(** What one step of [add_rules] leaves alone. *)
Lemma add_rules_step_frame this h r this' h' :
  add_rules_step (this, h) r = Some (this', h') →
  stores this' = stores this
  ∧ rule_objs h' = rule_objs h
  ∧ store_objs h' = store_objs h
  ∧ length (decl_objs h') = length (decl_objs h)
  ∧ keys (css_rules this) `prefix_of` keys (css_rules this')
  ∧ (wf (css_rules this) → wf (css_rules this')).
Proof.
  intros (rule & Hr & Hcase)%add_rules_step_Some.
  destruct (get (css_rules this) (selector rule)) as [existing|] eqn:Hg.
  - destruct Hcase as (h1 & Hadd & [= -> ->]).
    apply rule_add_declarations_Some in Hadd as (? & ? & ? & _ & _ & _ & ->).
    simpl. by rewrite length_insert.
  - injection Hcase as -> ->. simpl. split_and!; try done.
    + unfold keys. rewrite fmap_app. by apply prefix_app_r.
    + intros Hwf. rewrite <-set_not_elem by (by apply get_None).
      by apply wf_set.
Qed.

Lemma add_rules_loop_frame rs this h this' h' :
  add_rules_loop rs (this, h) = Some (this', h') →
  stores this' = stores this
  ∧ rule_objs h' = rule_objs h
  ∧ store_objs h' = store_objs h
  ∧ length (decl_objs h') = length (decl_objs h)
  ∧ keys (css_rules this) `prefix_of` keys (css_rules this')
  ∧ (wf (css_rules this) → wf (css_rules this')).
Proof.
  revert this h. induction rs as [|r rs IH]; intros this h; cbn [add_rules_loop].
  - by intros [= <- <-].
  - destruct (add_rules_step (this, h) r) as [[this1 h1]|] eqn:Hstep; [|done].
    cbn [mbind option_bind]. intros Hrun.
    apply add_rules_step_frame in Hstep as (E1 & E2 & E3 & E4 & Hp & Hwf).
    apply IH in Hrun as (F1 & F2 & F3 & F4 & Hp' & Hwf').
    split_and!; [congruence.. | by etrans | auto].
Qed.

Lemma rule_ok_frame h h' r :
  rule_objs h' = rule_objs h →
  length (decl_objs h') = length (decl_objs h) →
  rule_ok h r → rule_ok h' r.
Proof.
  intros Hr Hd (rule & Hrule & Hdecl). exists rule. rewrite Hr. split; [done|].
  apply lookup_lt_is_Some. rewrite Hd. by apply lookup_lt_is_Some.
Qed.

Lemma add_rules_step_total this h r :
  Forall (rule_ok h) (values (css_rules this)) →
  rule_ok h r →
  ∃ this' h', add_rules_step (this, h) r = Some (this', h')
              ∧ Forall (rule_ok h') (values (css_rules this')).
Proof.
  intros Hall (rule & Hrule & [other Hother]).
  unfold add_rules_step. rewrite Hrule. cbn [mbind option_bind].
  destruct (get (css_rules this) (selector rule)) as [existing|] eqn:Hg.
  - assert (rule_ok h existing) as (erule & Herule & [mine Hmine]).
    { eapply Forall_forall; [exact Hall|].
      apply get_Some_elem in Hg. unfold values.
      apply list_elem_of_fmap. by exists (selector rule, existing). }
    unfold Rule.add_declarations. rewrite Herule. cbn [mbind option_bind].
    rewrite Hother. cbn [mbind option_bind]. rewrite Hmine.
    cbn [mbind option_bind]. eexists _, _. split; [done|].
    eapply Forall_impl; [exact Hall|]. intros r0.
    apply rule_ok_frame; [done|]. simpl. by rewrite length_insert.
  - eexists _, _. split; [done|]. cbn [css_rules].
    rewrite set_not_elem by (by apply get_None).
    unfold values. rewrite fmap_app. apply Forall_app. split; [done|].
    apply Forall_singleton. exists rule. eauto.
Qed.

Lemma add_rules_loop_total rs this h :
  Forall (rule_ok h) (values (css_rules this)) →
  Forall (rule_ok h) rs →
  ∃ this' h', add_rules_loop rs (this, h) = Some (this', h')
              ∧ Forall (rule_ok h') (values (css_rules this')).
Proof.
  revert this h. induction rs as [|r rs IH]; intros this h Hall Hrs.
  - by exists this, h.
  - apply Forall_cons in Hrs as [Hr Hrs].
    destruct (add_rules_step_total this h r Hall Hr) as (this1 & h1 & Hstep & Hall1).
    cbn [add_rules_loop]. rewrite Hstep. cbn [mbind option_bind].
    apply IH; [done|].
    apply add_rules_step_frame in Hstep as (_ & E2 & _ & E4 & _).
    eapply Forall_impl; [exact Hrs|]. intros r0. by apply rule_ok_frame.
Qed.



(** ** Strings and whitespace *)

Lemma string_app_nil_r (s : string) : s +:+ EmptyString = s.
Proof.
  induction s as [|c s IH]; [done|].
  change (String c (s +:+ EmptyString) = String c s). by rewrite IH.
Qed.

Lemma string_app_assoc (s1 s2 s3 : string) :
  (s1 +:+ s2) +:+ s3 = s1 +:+ s2 +:+ s3.
Proof.
  induction s1 as [|c s1 IH]; [done|].
  change (String c ((s1 +:+ s2) +:+ s3) = String c (s1 +:+ s2 +:+ s3)).
  by rewrite IH.
Qed.

Lemma strip_ws_app (s1 s2 : string) :
  strip_ws (s1 +:+ s2) = strip_ws s1 +:+ strip_ws s2.
Proof.
  induction s1 as [|c s1 IH]; [done|].
  change (strip_ws (String c (s1 +:+ s2)) = strip_ws (String c s1) +:+ strip_ws s2).
  cbn [strip_ws]. destruct (is_ws c); [done|].
  change (String c (strip_ws (s1 +:+ s2)) = String c (strip_ws s1 +:+ strip_ws s2)).
  by rewrite IH.
Qed.

(** ** Serialisation *)

Lemma get_declarations_string_strip (d : php_array string) :
  strip_ws (Declarations.get_declarations_string true d) =
  strip_ws (Declarations.get_declarations_string false d).
Proof.
  induction d as [|[k v] d IH]; [done|].
  unfold Declarations.get_declarations_string in *. cbn [foldr fst snd].
  rewrite !strip_ws_app, IH. reflexivity.
Qed.

(** A rule's pretty and plain texts exist together and agree up to
    whitespace. *)
Lemma rule_get_css_strip r h :
  match Rule.get_css true r h, Rule.get_css false r h with
  | Some s1, Some s2 => strip_ws s1 = strip_ws s2
  | None, None => True
  | _, _ => False
  end.
Proof.
  unfold Rule.get_css.
  destruct (rule_objs h !! r) as [rule|]; [|done]. cbn [mbind option_bind].
  destruct (decl_objs h !! declarations rule) as [d|]; [|done].
  cbn [mbind option_bind]. destruct d as [|kv d]; [done|].
  rewrite !strip_ws_app, get_declarations_string_strip. reflexivity.
Qed.

Lemma rule_get_css_empty pretty r rule h :
  rule_objs h !! r = Some rule →
  decl_objs h !! declarations rule = Some [] →
  Rule.get_css pretty r h = Some EmptyString.
Proof.
  intros Hr Hd. unfold Rule.get_css. rewrite Hr. cbn [mbind option_bind].
  by rewrite Hd.
Qed.

Lemma build_css_acc pretty rs h css :
  build_css pretty rs h css = (λ s, css +:+ s) <$> build_css pretty rs h EmptyString.
Proof.
  revert css. induction rs as [|r rs IH]; intros css; cbn [build_css].
  - cbn. by rewrite string_app_nil_r.
  - destruct (Rule.get_css pretty r h) as [s|]; [|done].
    cbn [mbind option_bind]. rewrite IH. rewrite (IH (EmptyString +:+ _)).
    destruct (build_css pretty rs h EmptyString) as [t|]; [|done]. cbn.
    by rewrite !string_app_assoc.
Qed.

Lemma build_css_cons pretty r rs h :
  build_css pretty (r :: rs) h EmptyString =
  s ← Rule.get_css pretty r h;
  rest ← build_css pretty rs h EmptyString;
  Some (s +:+ rule_suffix pretty +:+ rest).
Proof.
  cbn [build_css]. destruct (Rule.get_css pretty r h) as [s|]; [|done].
  cbn [mbind option_bind]. rewrite build_css_acc.
  destruct (build_css pretty rs h EmptyString) as [t|]; [|done].
  cbn [fmap option_fmap option_map mbind option_bind]. f_equal.
  change (EmptyString +:+ s +:+ (if pretty then LF else EmptyString)) with (s +:+ rule_suffix pretty).
  apply string_app_assoc.
Qed.

Lemma build_css_app pretty rs1 rs2 h :
  build_css pretty (rs1 ++ rs2) h EmptyString =
  s1 ← build_css pretty rs1 h EmptyString;
  s2 ← build_css pretty rs2 h EmptyString;
  Some (s1 +:+ s2).
Proof.
  induction rs1 as [|r rs1 IH].
  - cbn. by destruct (build_css pretty rs2 h EmptyString).
  - rewrite <-app_comm_cons, !build_css_cons, IH.
    destruct (Rule.get_css pretty r h) as [s|]; [|done]. cbn [mbind option_bind].
    destruct (build_css pretty rs1 h EmptyString) as [s1|]; [|done]. cbn [mbind option_bind].
    destruct (build_css pretty rs2 h EmptyString) as [s2|]; [|done]. cbn [mbind option_bind].
    by rewrite !string_app_assoc.
Qed.

Lemma build_css_strip rs h :
  match build_css true rs h EmptyString, build_css false rs h EmptyString with
  | Some s1, Some s2 => strip_ws s1 = strip_ws s2
  | None, None => True
  | _, _ => False
  end.
Proof.
  induction rs as [|r rs IH]; [done|].
  rewrite !build_css_cons. pose proof (rule_get_css_strip r h) as Hr.
  destruct (Rule.get_css true r h) as [s1|], (Rule.get_css false r h) as [s2|];
    try done; cbn [mbind option_bind].
  destruct (build_css true rs h EmptyString) as [t1|], (build_css false rs h EmptyString) as [t2|];
    try done; cbn [mbind option_bind].
  rewrite !strip_ws_app, Hr, IH. reflexivity.
Qed.

(** C7.  Prettifying changes whitespace only.  For every state and every
    setting of [optimize], the two runs of [get_css] with [prettify] true and
    false either both stop with an error or both return; they leave the same
    processor and heap, hence the same rules with the same selectors and
    declarations, and the two texts are equal once spaces, tabs and newlines
    are removed. *)
Theorem prettify_changes_whitespace_only
    (script_debug : bool) (opt : option bool) (st : state) :
  match get_css script_debug (mkOptions opt (Some true)) st,
        get_css script_debug (mkOptions opt (Some false)) st with
  | Some (css1, st1), Some (css2, st2) =>
      st1 = st2 ∧ strip_ws css1 = strip_ws css2
  | None, None => True
  | _, _ => False
  end.
Proof.
  unfold get_css. cbn [optimize prettify].
  change (default script_debug (Some true)) with true.
  change (default script_debug (Some false)) with false.
  destruct (pull_stores _ st) as [st1|]; cbn [mbind option_bind]; [|done].
  set (combined := if default true opt then _ else _).
  destruct combined as [st2|]; cbn [mbind option_bind]; [|done].
  pose proof (build_css_strip (values (css_rules st2.1)) st2.2) as H.
  destruct (build_css true _ _ _), (build_css false _ _ _); done.
Qed.

(** ** The three-rule example: [.a] and [.b] red, [.c] blue *)

Section three_rules.
Variables (h : Heap) (this : WP_Style_Engine_Processor).
Variables (ra rb rc : rule_ref) (da db dc : decl_ref).
Hypothesis Hstores : stores this = [].
Hypothesis Hrules : css_rules this = [(".a", ra); (".b", rb); (".c", rc)].
Hypothesis Hra : rule_objs h !! ra = Some (mkRule ".a" da).
Hypothesis Hrb : rule_objs h !! rb = Some (mkRule ".b" db).
Hypothesis Hrc : rule_objs h !! rc = Some (mkRule ".c" dc).
Hypothesis Hda : decl_objs h !! da = Some [("color", "red")].
Hypothesis Hdb : decl_objs h !! db = Some [("color", "red")].
Hypothesis Hdc : decl_objs h !! dc = Some [("color", "blue")].

Lemma three_rules_new_lookup (r : rule_ref) (rule new : WP_Style_Engine_CSS_Rule) :
  rule_objs h !! r = Some rule → (rule_objs h ++ [new]) !! r = Some rule.
Proof. intros Hr. rewrite lookup_app_l; [done|]. by eapply lookup_lt_Some. Qed.

(** C1.  With the working set [.a {color: red}], [.b {color: red}],
    [.c {color: blue}] in this order and no stores, [get_css] with
    [optimize] true (given or by default) returns a text with exactly two
    rules: [.c] with [color: blue] and one rule [.a,.b], members in
    first-seen order, with [color: red].  The working set afterwards holds
    [.c] and the new rule [.a,.b], which shares the declarations of
    [.a]. *)
Theorem combine_three_rules (script_debug : bool) (opt : option bool)
    (pretty : bool) :
  opt = Some true ∨ opt = None →
  get_css script_debug (mkOptions opt (Some pretty)) (this, h) =
  Some (if pretty
        then ".c {" +:+ LF +:+ TAB +:+ "color: blue;" +:+ LF +:+ "}" +:+ LF
             +:+ ".a,.b {" +:+ LF +:+ TAB +:+ "color: red;" +:+ LF +:+ "}" +:+ LF
        else ".c{color: blue;}.a,.b{color: red;}",
        (mkProcessor [] [(".c", rc); (".a,.b", length (rule_objs h))],
         mkHeap (decl_objs h) (rule_objs h ++ [mkRule ".a,.b" da])
           (store_objs h))).
Proof.
  intros Hopt. destruct this as [ss rs]. simpl in Hstores, Hrules. subst ss rs.
  assert (default true opt = true) as Hdef by (by destruct Hopt as [-> | ->]).
  unfold get_css, combine_rules_selectors. cbn [optimize prettify].
  rewrite Hdef. simpl.
  rewrite Hra. simpl. rewrite Hda. simpl.
  rewrite Hrb. simpl. rewrite Hdb. simpl.
  rewrite Hrc. simpl. rewrite Hdc. simpl.
  rewrite Hra. simpl. unfold Rule.get_css. simpl.
  rewrite (three_rules_new_lookup rc _ _ Hrc). simpl. rewrite Hdc. simpl.
  rewrite list_lookup_middle by done. simpl. rewrite Hda. simpl.
  by destruct pretty.
Qed.

(** C8.  With [optimize] false the same working set is written out as it
    is: three blocks, [.a], [.b], [.c], each with its selector and its
    declarations, in first-seen order; processor and heap are unchanged. *)
Theorem no_optimize_three_rules (script_debug : bool) (pretty : bool) :
  get_css script_debug (mkOptions (Some false) (Some pretty)) (this, h) =
  Some (if pretty
        then ".a {" +:+ LF +:+ TAB +:+ "color: red;" +:+ LF +:+ "}" +:+ LF
             +:+ ".b {" +:+ LF +:+ TAB +:+ "color: red;" +:+ LF +:+ "}" +:+ LF
             +:+ ".c {" +:+ LF +:+ TAB +:+ "color: blue;" +:+ LF +:+ "}" +:+ LF
        else ".a{color: red;}.b{color: red;}.c{color: blue;}",
        (this, h)).
Proof.
  destruct this as [ss rs]. simpl in Hstores, Hrules. subst ss rs.
  unfold get_css. simpl. unfold Rule.get_css.
  rewrite Hra. simpl. rewrite Hda. simpl.
  rewrite Hrb. simpl. rewrite Hdb. simpl.
  rewrite Hrc. simpl. rewrite Hdc. simpl.
  by destruct pretty.
Qed.

End three_rules.

Lemma combine_three_rules_witness :
  get_css false (mkOptions (Some true) (Some false)) (abc_processor, abc_heap) =
  Some (".c{color: blue;}.a,.b{color: red;}",
        (mkProcessor [] [(".c", 2); (".a,.b", 3)],
         mkHeap (decl_objs abc_heap)
           (rule_objs abc_heap ++ [mkRule ".a,.b" 0]) [])).
Proof.
  apply (combine_three_rules abc_heap abc_processor 0 1 2 0 1 2);
    solve [reflexivity | by left].
Defined.

Lemma no_optimize_three_rules_witness :
  get_css false (mkOptions (Some false) (Some false)) (abc_processor, abc_heap) =
  Some (".a{color: red;}.b{color: red;}.c{color: blue;}",
        (abc_processor, abc_heap)).
Proof.
  apply (no_optimize_three_rules abc_heap abc_processor 0 1 2 0 1 2);
    reflexivity.
Defined.

(** ** Rules without declarations *)

(** C6, as the spec words it, fails: with [prettify] true a rule without
    declarations still puts a newline into the output. *)
Lemma empty_rule_pretty_emits_newline :
  get_css false (mkOptions (Some false) (Some true))
    (empty_rule_processor, empty_rule_heap)
  = Some (LF, (empty_rule_processor, empty_rule_heap))
  ∧ LF ≠ EmptyString.
Proof. split; [reflexivity | discriminate]. Qed.

(** C6, amended.  A rule whose declaration set is empty has the empty text,
    never a bare [selector {}]; [get_css] appends the newline of [prettify]
    after every rule, empty or not.  So in the output such a rule stands for
    nothing when [prettify] is false and for exactly one newline when it is
    true, wherever it is in the working set; alone in the working set it
    makes the whole output empty, respectively one newline. *)
Theorem empty_rule_contributes_suffix_only
    (pretty : bool) (r : rule_ref) (rule : WP_Style_Engine_CSS_Rule) (h : Heap)
    (rs1 rs2 : list rule_ref) :
  rule_objs h !! r = Some rule →
  decl_objs h !! declarations rule = Some [] →
  Rule.get_css pretty r h = Some EmptyString
  ∧ build_css pretty (rs1 ++ r :: rs2) h EmptyString =
    (s1 ← build_css pretty rs1 h EmptyString;
     s2 ← build_css pretty rs2 h EmptyString;
     Some (s1 +:+ (if pretty then LF else EmptyString) +:+ s2))
  ∧ (∀ script_debug optimize k,
       get_css script_debug (mkOptions optimize (Some pretty))
         (mkProcessor [] [(k, r)], h)
       = Some (if pretty then LF else EmptyString, (mkProcessor [] [(k, r)], h))).
Proof.
  intros Hr Hd.
  pose proof (rule_get_css_empty pretty r rule h Hr Hd) as Hcss.
  split_and!; [done| |].
  - rewrite build_css_app, build_css_cons, Hcss.
    destruct (build_css pretty rs1 h EmptyString) as [s1|]; [|done].
    cbn [mbind option_bind].
    by destruct (build_css pretty rs2 h EmptyString) as [s2|].
  - intros script_debug optimize k.
    unfold get_css, combine_rules_selectors. simpl.
    rewrite Hr. simpl. rewrite Hd. simpl.
    destruct (default true optimize); simpl; rewrite ?decide_True by done;
      simpl; rewrite Hcss; by destruct pretty.
Qed.

Lemma empty_rule_contributes_suffix_only_witness :
  Rule.get_css true 0 empty_rule_heap = Some EmptyString
  ∧ build_css true ([] ++ 0 :: []) empty_rule_heap EmptyString =
    (s1 ← build_css true [] empty_rule_heap EmptyString;
     s2 ← build_css true [] empty_rule_heap EmptyString;
     Some (s1 +:+ LF +:+ s2))
  ∧ (∀ script_debug optimize k,
       get_css script_debug (mkOptions optimize (Some true))
         (mkProcessor [] [(k, 0)], empty_rule_heap)
       = Some (LF, (mkProcessor [] [(k, 0)], empty_rule_heap))).
Proof.
  apply (empty_rule_contributes_suffix_only true 0 (mkRule ".a" 0)
           empty_rule_heap [] []); reflexivity.
Defined.

(** ** Rules pulled from stores *)

Lemma add_rules_loop_app rs1 rs2 st :
  add_rules_loop (rs1 ++ rs2) st = add_rules_loop rs1 st ≫= add_rules_loop rs2.
Proof.
  revert st. induction rs1 as [|r rs1 IH]; intros st; [done|].
  cbn [app add_rules_loop]. destruct (add_rules_step st r) as [st'|]; [|done].
  cbn [mbind option_bind]. apply IH.
Qed.

Lemma all_store_rules_frame ss h h' :
  store_objs h' = store_objs h → all_store_rules ss h' = all_store_rules ss h.
Proof.
  intros Hs. induction ss as [|s ss IH]; [done|].
  cbn [all_store_rules]. unfold Store.get_all_rules. by rewrite Hs, IH.
Qed.

(** The first loop of [get_css] feeds [add_rules] with every rule of every
    registered store, in registration order. *)
Lemma pull_stores_all ss st :
  pull_stores ss st = all_store_rules ss st.2 ≫= λ rs, add_rules_loop rs st.
Proof.
  revert st. induction ss as [|s ss IH]; intros [this h]; [done|].
  cbn [pull_stores all_store_rules snd].
  destruct (Store.get_all_rules s h) as [rs|]; [|done]. cbn [mbind option_bind].
  unfold add_rules.
  destruct (add_rules_loop (values rs) (this, h)) as [[this1 h1]|] eqn:Hrun.
  - cbn [mbind option_bind]. rewrite IH. cbn [snd].
    apply add_rules_loop_frame in Hrun as Hf. destruct Hf as (_ & _ & Hs & _).
    rewrite (all_store_rules_frame ss h h1 Hs).
    destruct (all_store_rules ss h) as [rest|]; [|done]. cbn [mbind option_bind].
    by rewrite add_rules_loop_app, Hrun.
  - cbn [mbind option_bind].
    destruct (all_store_rules ss h) as [rest|]; [|done]. cbn [mbind option_bind].
    by rewrite add_rules_loop_app, Hrun.
Qed.

(** C2.  (1) [get_css] pulls the rules of all registered stores, in
    registration order and each store's rules in its own order, through
    [add_rules], before it combines and writes.  (2) A new processor to which
    the stores [block-supports], holding [.wp-1 {margin: 0}], and
    [global-styles], holding [.wp-2 {margin: 0}], are attached in this order
    returns [.wp-1,.wp-2{margin: 0;}] for [optimize] true and [prettify]
    false: one rule for both selectors. *)
Theorem get_css_combines_across_stores :
  (∀ (script_debug : bool) (options : css_options) (st : state),
      get_css script_debug options st =
      (rs ← all_store_rules (values (stores st.1)) st.2;
       st1 ← add_rules_loop rs st;
       st2 ← (if default true (optimize options)
              then combine_rules_selectors st1 else Some st1);
       css ← build_css (default script_debug (prettify options))
               (values (css_rules st2.1)) st2.2 EmptyString;
       Some (css, st2)))
  ∧ (∀ (script_debug : bool) (h : Heap) (s1 s2 r1 r2 d1 d2 : nat),
      store_objs h !! s1 = Some (mkStore "block-supports" [(".wp-1", r1)]) →
      store_objs h !! s2 = Some (mkStore "global-styles" [(".wp-2", r2)]) →
      rule_objs h !! r1 = Some (mkRule ".wp-1" d1) →
      rule_objs h !! r2 = Some (mkRule ".wp-2" d2) →
      decl_objs h !! d1 = Some [("margin", "0")] →
      decl_objs h !! d2 = Some [("margin", "0")] →
      (st1 ← add_store s1 (new_processor, h);
       st2 ← add_store s2 st1;
       get_css script_debug (mkOptions (Some true) (Some false)) st2)
      = Some (".wp-1,.wp-2{margin: 0;}",
              (mkProcessor [("block-supports", s1); ("global-styles", s2)]
                 [(".wp-1,.wp-2", length (rule_objs h))],
               mkHeap (decl_objs h) (rule_objs h ++ [mkRule ".wp-1,.wp-2" d1])
                 (store_objs h)))).
Proof.
  split.
  - intros script_debug options [this h]. unfold get_css. cbn [fst snd].
    rewrite pull_stores_all. cbn [snd].
    by destruct (all_store_rules (values (stores this)) h).
  - intros script_debug h s1 s2 r1 r2 d1 d2 Hs1 Hs2 Hr1 Hr2 Hd1 Hd2.
    assert (Store.get_all_rules s1 h = Some [(".wp-1", r1)]) as Ha1
      by (unfold Store.get_all_rules; by rewrite Hs1).
    assert (Store.get_all_rules s2 h = Some [(".wp-2", r2)]) as Ha2
      by (unfold Store.get_all_rules; by rewrite Hs2).
    unfold add_store, Store.get_name. rewrite Hs1. simpl.
    rewrite Hs2. simpl.
    unfold get_css. simpl. rewrite Ha1. simpl.
    unfold add_rules. simpl. rewrite Hr1. simpl.
    rewrite Ha2. simpl. rewrite Hr2. simpl.
    unfold combine_rules_selectors. simpl.
    rewrite Hr1. simpl. rewrite Hd1. simpl.
    rewrite Hr2. simpl. rewrite Hd2. simpl.
    rewrite Hr1. simpl. unfold Rule.get_css. simpl.
    rewrite list_lookup_middle by done. simpl. by rewrite Hd1.
Qed.

Lemma get_css_combines_across_stores_witness :
  (st1 ← add_store 0 (new_processor, wp_heap);
   st2 ← add_store 1 st1;
   get_css false (mkOptions (Some true) (Some false)) st2)
  = Some (".wp-1,.wp-2{margin: 0;}",
          (mkProcessor [("block-supports", 0); ("global-styles", 1)]
             [(".wp-1,.wp-2", 2)],
           mkHeap (decl_objs wp_heap)
             (rule_objs wp_heap ++ [mkRule ".wp-1,.wp-2" 0])
             (store_objs wp_heap))).
Proof.
  apply (proj2 get_css_combines_across_stores false wp_heap 0 1 0 1 0 1);
    reflexivity.
Defined.

(** ** The combine pass without the heap *)

Section vmap_facts.
Context {A B : Type} (f : A → B).
Implicit Types (a : php_array A) (k : string).

Lemma keys_vmap a : keys (vmap f a) = keys a.
Proof.
  unfold keys, vmap. rewrite <-list_fmap_compose.
  apply list_fmap_ext. by intros _ [k v] _.
Qed.

Lemma values_vmap a : values (vmap f a) = f <$> values a.
Proof.
  unfold values, vmap. rewrite <-!list_fmap_compose.
  apply list_fmap_ext. by intros _ [k v] _.
Qed.

Lemma get_vmap a k : get (vmap f a) k = f <$> get a k.
Proof.
  induction a as [|[k' v] a IH]; [done|].
  unfold vmap in *. csimpl. by case_decide.
Qed.

Lemma set_vmap a k v : set (vmap f a) k (f v) = vmap f (set a k v).
Proof.
  induction a as [|[k' v'] a IH]; [done|].
  unfold vmap in *. csimpl. case_decide; [done|]. csimpl. by rewrite IH.
Qed.

Lemma filter_vmap (P : string * B → Prop) (Q : string * A → Prop)
    `{!∀ x, Decision (P x)} `{!∀ x, Decision (Q x)} a :
  (∀ k v, (k, v) ∈ a → P (k, f v) ↔ Q (k, v)) →
  filter P (vmap f a) = vmap f (filter Q a).
Proof.
  induction a as [|[k v] a IH]; intros HPQ; [done|].
  unfold vmap in *. rewrite fmap_cons, !filter_cons. cbn [prod_map fst snd id].
  rewrite IH by (intros; apply HPQ; by right).
  specialize (HPQ k v (list_elem_of_here _ _)).
  destruct (decide (P (k, f v))), (decide (Q (k, v))); try tauto; done.
Qed.

Lemma unset_all_vmap a (ks : list string) :
  foldl unset (vmap f a) ks = vmap f (foldl unset a ks).
Proof. rewrite !unset_all. by apply filter_vmap. Qed.

Lemma elem_vmap a k w :
  (k, w) ∈ vmap f a ↔ ∃ v, w = f v ∧ (k, v) ∈ a.
Proof.
  unfold vmap. rewrite list_elem_of_fmap. split.
  - intros ([k' v] & [= -> ->] & Hin). by exists v.
  - intros (v & -> & Hin). by exists (k, v).
Qed.

Lemma wf_vmap a : wf (vmap f a) ↔ wf a.
Proof. unfold wf. by rewrite keys_vmap. Qed.

End vmap_facts.

Lemma vmap_vmap {A B C} (f : A → B) (g : B → C) (a : php_array A) :
  vmap g (vmap f a) = vmap (g ∘ f) a.
Proof.
  unfold vmap. rewrite <-list_fmap_compose.
  apply list_fmap_ext. by intros _ [k v] _.
Qed.

(** [combine_loop] and [combine_entries] do the same. *)
Lemma combine_loop_entries todo sj rules h rv :
  represents h rules rv →
  combine_loop todo sj rules h =
  (λ res, (vmap fst res.1, mkHeap (decl_objs h) res.2 (store_objs h)))
    <$> combine_entries todo sj rv (rule_objs h).
Proof.
  revert sj rules h rv. induction todo as [|[sel json] todo IH];
    intros sj rules h rv [-> Hobjs].
  - cbn. by destruct h.
  - cbn [combine_loop combine_entries]. case_decide; [by apply IH|].
    rewrite get_vmap. destruct (get rv sel) as [[r d]|] eqn:Hget; [|done].
    cbn [fmap option_fmap option_map mbind option_bind fst snd].
    rewrite (Hobjs sel r d) by (by apply get_Some_elem).
    cbn [mbind option_bind declarations Rule.new alloc_rule].
    set (K := implode "," (array_keys sj json)).
    set (h' := mkHeap _ _ _).
    rewrite (IH _ _ h' (set (foldl unset rv (array_keys sj json)) K
                          (length (rule_objs h), d))); [done|].
    split.
    + by rewrite unset_all_vmap, <-set_vmap.
    + intros k r' d' Hin. subst h'. cbn [rule_objs].
      apply elem_set_inv in Hin as [[= -> -> ->]|Hin].
      * by apply list_lookup_middle.
      * rewrite unset_all in Hin. apply list_elem_of_filter in Hin as [_ Hin].
        apply Hobjs in Hin. rewrite lookup_app_l; [done|].
        by eapply lookup_lt_Some.
Qed.

(** ** More on lists and arrays *)

Lemma filter_ext_elem {A} (P Q : A → Prop)
    `{!∀ x, Decision (P x)} `{!∀ x, Decision (Q x)} (l : list A) :
  (∀ x, x ∈ l → P x ↔ Q x) → filter P l = filter Q l.
Proof.
  induction l as [|x l IH]; intros HPQ; [done|].
  rewrite !filter_cons, IH by (intros; apply HPQ; by right).
  specialize (HPQ x (list_elem_of_here _ _)).
  destruct (decide (P x)), (decide (Q x)); try tauto; done.
Qed.

Lemma length_two_distinct {A} (l : list A) (x y : A) :
  x ∈ l → y ∈ l → x ≠ y → 2 ≤ length l.
Proof.
  destruct l as [|a [|b l]]; cbn [length]; [| |lia].
  - intros Hx. by apply elem_of_nil in Hx.
  - intros ->%list_elem_of_singleton ->%list_elem_of_singleton. done.
Qed.

Section array_facts_2.
Context {V : Type}.
Implicit Types (a : php_array V) (k : string) (v : V).

Lemma elem_keys a k : k ∈ keys a ↔ ∃ v, (k, v) ∈ a.
Proof.
  unfold keys. rewrite list_elem_of_fmap. split.
  - intros ([k' v] & -> & Hin). by exists v.
  - intros (v & Hin). by exists (k, v).
Qed.

Lemma wf_functional a k v v' : wf a → (k, v) ∈ a → (k, v') ∈ a → v = v'.
Proof.
  intros Hwf H1 H2. apply (elem_get _ _ _ Hwf) in H1, H2. congruence.
Qed.

Lemma elem_array_keys `{EqDecision V} a k v : k ∈ array_keys a v ↔ (k, v) ∈ a.
Proof.
  unfold array_keys. rewrite elem_keys. split.
  - intros (v' & Hin). apply list_elem_of_filter in Hin as [Hv Hin].
    simpl in Hv. by subst.
  - intros Hin. exists v. by apply list_elem_of_filter.
Qed.

(** In a well-formed array, unsetting the keys that hold [v] removes the
    entries with value [v]. *)
Lemma unset_array_keys `{EqDecision V} a v :
  wf a → foldl unset a (array_keys a v) = filter (λ kv, kv.2 ≠ v) a.
Proof.
  intros Hwf. rewrite unset_all. apply filter_ext_elem. intros [k v'] Hin.
  cbn [fst snd]. rewrite elem_array_keys. split.
  - intros Hn ->. done.
  - intros Hne Hin'. apply Hne. by eapply wf_functional.
Qed.

Lemma elem_keys_set a k v k' : k' ∈ keys a → k' ∈ keys (set a k v).
Proof.
  intros Hin. rewrite keys_set. case_decide; [done|].
  apply elem_of_app. by left.
Qed.

End array_facts_2.

(** ** The combine pass leaves pairwise different declarations *)

Section combine_invariant.
(** The JSON text of the declarations behind a handle. *)
Variable jd : decl_ref → string.

Lemma combine_inv_wf_sj sj0 todo sj rv : combine_inv jd sj0 todo sj rv → wf sj.
Proof.
  intros (Hwf0 & _ & [gone ->] & _). by apply wf_filter.
Qed.

Lemma combine_inv_skip sj0 sel json todo sj rv :
  combine_inv jd sj0 ((sel, json) :: todo) sj rv →
  length (array_keys sj json) ≤ 1 →
  combine_inv jd sj0 todo sj rv.
Proof.
  intros (Hwf0 & Hwf & Hgone & Hkeys & Htodo & Hpairs) Hlen.
  split_and!; try done.
  - intros kj Hin. apply Htodo. by right.
  - intros k1 k2 e1 e2 Hne H1 H2 Hj.
    destruct (Hpairs k1 k2 e1 e2 Hne H1 H2 Hj) as (Hs1 & Hs2 & k & Hk).
    split_and!; [done..|]. exists k.
    apply elem_of_cons in Hk as [[= -> Hjson]|Hk]; [|done].
    rewrite Hjson in Hs1, Hs2. apply elem_array_keys in Hs1, Hs2.
    pose proof (length_two_distinct _ _ _ Hs1 Hs2 Hne). lia.
Qed.

Lemma combine_inv_big sj0 sel json todo sj rv (n : nat) :
  combine_inv jd sj0 ((sel, json) :: todo) sj rv →
  ¬ length (array_keys sj json) ≤ 1 →
  ∃ e, get rv sel = Some e
       ∧ combine_inv jd sj0 todo (foldl unset sj (array_keys sj json))
           (set (foldl unset rv (array_keys sj json))
              (implode "," (array_keys sj json)) (n, e.2)).
Proof.
  intros Hinv Hlen. pose proof (combine_inv_wf_sj _ _ _ _ Hinv) as Hwfsj.
  destruct Hinv as (Hwf0 & Hwf & [gone Hgone] & Hkeys & Htodo & Hpairs).
  set (dups := array_keys sj json) in *.
  assert (∃ k0, (k0, json) ∈ sj) as [k0 Hk0].
  { destruct dups as [|k0 l] eqn:Hd; [cbn in Hlen; lia|].
    exists k0. apply elem_array_keys. fold dups. rewrite Hd. left. }
  assert (json ∉ gone) as Hng.
  { rewrite Hgone in Hk0. by apply list_elem_of_filter in Hk0 as [? _]. }
  assert ((sel, json) ∈ sj) as Hsel.
  { rewrite Hgone. apply list_elem_of_filter. split; [done|]. apply Htodo. left. }
  assert (sel ∈ dups) as Hseld by (by apply elem_array_keys).
  destruct (get rv sel) as [e|] eqn:Hget.
  2:{ apply get_None in Hget. destruct Hget. apply Hkeys, elem_keys. eauto. }
  exists e. split; [done|]. apply get_Some_elem in Hget as Hine.
  assert (∀ k v, (k, v) ∈ foldl unset rv dups ↔ (k ∉ dups) ∧ (k, v) ∈ rv)
    as Hunset.
  { intros k v. by rewrite unset_all, list_elem_of_filter. }
  split_and!.
  - done.
  - apply wf_set. rewrite unset_all. by apply wf_filter.
  - exists (json :: gone). unfold dups. rewrite unset_array_keys by done.
    rewrite Hgone, list_filter_filter. apply list_filter_iff.
    intros [k v]. cbn [snd]. rewrite not_elem_of_cons. tauto.
  - intros k (v & Hin)%elem_keys. unfold dups in Hin.
    rewrite unset_array_keys in Hin by done.
    apply list_elem_of_filter in Hin as [Hv Hin]. cbn [snd] in Hv.
    apply elem_keys_set.
    destruct (proj1 (elem_keys rv k)) as [e' He'].
    { apply Hkeys, elem_keys. eauto. }
    apply elem_keys. exists e'. apply Hunset. split; [|done].
    intros Hd. apply elem_array_keys in Hd. apply Hv.
    by eapply wf_functional.
  - intros kj Hin. apply Htodo. by right.
  - assert (∀ k1 e1, (k1, e1) ∈ rv → k1 ∉ dups → jd e1.2 = jd e.2 → False)
      as Hfresh.
    { intros k1 e1 H1 Hn1 Hj.
      assert (k1 ≠ sel) as Hne by (intros ->; done).
      destruct (Hpairs k1 sel e1 e Hne H1 Hine Hj) as (Hs1 & Hs2 & _).
      assert (jd e1.2 = json) as Hjson by (by eapply wf_functional).
      rewrite Hjson in Hs1. by apply Hn1, elem_array_keys. }
    intros k1 k2 e1 e2 Hne H1 H2 Hj.
    apply elem_set_inv in H1 as [[= -> ->]|H1];
      apply elem_set_inv in H2 as [[= -> ->]|H2]; try done.
    + apply Hunset in H2 as [Hn2 H2]. cbn [snd] in Hj.
      destruct (Hfresh k2 e2 H2 Hn2). done.
    + apply Hunset in H1 as [Hn1 H1]. cbn [snd] in Hj.
      destruct (Hfresh k1 e1 H1 Hn1). done.
    + apply Hunset in H1 as [Hn1 H1]. apply Hunset in H2 as [Hn2 H2].
      destruct (Hpairs k1 k2 e1 e2 Hne H1 H2 Hj) as (Hs1 & Hs2 & k & Hk).
      assert (jd e1.2 ≠ json) as Hjne.
      { intros Hjson. rewrite Hjson in Hs1. by apply Hn1, elem_array_keys. }
      unfold dups. rewrite unset_array_keys by done.
      split_and!; [by apply list_elem_of_filter..|].
      exists k. apply elem_of_cons in Hk as [[= _ ?]|Hk]; done.
Qed.

(** The pass always goes through, and afterwards no two entries of the
    working set have the same JSON text. *)
Lemma combine_entries_distinct sj0 todo sj rv objs :
  combine_inv jd sj0 todo sj rv →
  ∃ rv' objs',
    combine_entries todo sj rv objs = Some (rv', objs')
    ∧ wf rv'
    ∧ ∀ k1 k2 e1 e2,
        (k1, e1) ∈ rv' → (k2, e2) ∈ rv' → jd e1.2 = jd e2.2 → k1 = k2.
Proof.
  revert sj rv objs. induction todo as [|[sel json] todo IH];
    intros sj rv objs Hinv.
  - exists rv, objs. destruct Hinv as (_ & Hwf & _ & _ & _ & Hpairs).
    split_and!; [done..|]. intros k1 k2 e1 e2 H1 H2 Hj.
    destruct (decide (k1 = k2)) as [|Hne]; [done|].
    destruct (Hpairs k1 k2 e1 e2 Hne H1 H2 Hj) as (_ & _ & k & Hk).
    by apply elem_of_nil in Hk.
  - cbn [combine_entries]. case_decide as Hlen.
    + apply IH. by eapply combine_inv_skip.
    + destruct (combine_inv_big _ _ _ _ _ _ (length objs) Hinv Hlen)
        as (e & -> & Hinv').
      cbn [mbind option_bind]. by apply IH.
Qed.

(** A pass over a working set whose entries have pairwise different JSON
    texts changes nothing. *)
Lemma combine_entries_skip todo sj rv objs :
  (∀ k j, (k, j) ∈ todo → length (array_keys sj j) ≤ 1) →
  combine_entries todo sj rv objs = Some (rv, objs).
Proof.
  induction todo as [|[sel json] todo IH]; intros Hall; [done|].
  cbn [combine_entries]. rewrite decide_True by (eapply Hall; left).
  apply IH. intros k j Hin. eapply Hall. by right.
Qed.

Lemma array_keys_distinct (rv : php_array entry) (j : string) :
  wf rv →
  (∀ k1 k2 e1 e2,
      (k1, e1) ∈ rv → (k2, e2) ∈ rv → jd e1.2 = jd e2.2 → k1 = k2) →
  length (array_keys (vmap (λ e, jd e.2) rv) j) ≤ 1.
Proof.
  intros Hwf Hinj.
  destruct (array_keys _ j) as [|k1 [|k2 l]] eqn:Hd; cbn [length]; [lia..|].
  exfalso.
  assert (k1 ∈ array_keys (vmap (λ e, jd e.2) rv) j) as H1
    by (rewrite Hd; left).
  assert (k2 ∈ array_keys (vmap (λ e, jd e.2) rv) j) as H2
    by (rewrite Hd; right; left).
  apply elem_array_keys, elem_vmap in H1 as (e1 & Hj1 & H1).
  apply elem_array_keys, elem_vmap in H2 as (e2 & Hj2 & H2).
  assert (k1 = k2) as -> by (eapply Hinj; [done..|congruence]).
  assert (NoDup (array_keys (vmap (λ e, jd e.2) rv) j)) as Hnd.
  { unfold array_keys. apply (wf_filter _ (vmap (λ e, jd e.2) rv)).
    by apply wf_vmap. }
  rewrite Hd in Hnd. apply NoDup_cons in Hnd as [Hn _]. apply Hn. left.
Qed.

Lemma combine_inv_init (rv : php_array entry) :
  wf rv →
  combine_inv jd (vmap (λ e, jd e.2) rv) (vmap (λ e, jd e.2) rv)
    (vmap (λ e, jd e.2) rv) rv.
Proof.
  intros Hwf. split_and!; try done.
  - by apply wf_vmap.
  - exists []. symmetry. apply filter_all. intros ? _. apply not_elem_of_nil.
  - intros k. by rewrite keys_vmap.
  - intros k1 k2 e1 e2 Hne H1 H2 Hj.
    assert ((k1, jd e1.2) ∈ vmap (λ e, jd e.2) rv) as Hs1
      by (apply elem_vmap; by exists e1).
    split_and!; [done| |by exists k1].
    rewrite Hj. apply elem_vmap. by exists e2.
Qed.

End combine_invariant.

(** ** The combine pass in the heap *)

Lemma working_set_entries h rules :
  working_set_wf h rules →
  ∃ rv, rules = vmap fst rv ∧ wf rv ∧ entries_ok h (rule_objs h) rv.
Proof.
  intros [Hwf Hall]. induction rules as [|[k r] rules IH].
  - exists []. split_and!; [done|apply NoDup_nil_2|].
    intros k r d Hin. by apply elem_of_nil in Hin.
  - destruct IH as (rv & -> & Hwfrv & Hok).
    { unfold wf, keys in *. rewrite fmap_cons in Hwf.
      by apply NoDup_cons in Hwf as [_ ?]. }
    { intros k' r' Hin. apply Hall. by right. }
    destruct (Hall k r) as (d & Hr & Hd); [left|].
    exists ((k, (r, d)) :: rv). split_and!; [done| |].
    + apply (wf_vmap fst ((k, (r, d)) :: rv)). exact Hwf.
    + intros k' r' d' [[= -> -> ->]|Hin]%elem_of_cons; [done|]. by apply Hok.
Qed.

Lemma entries_ok_represents h rules rv :
  rules = vmap fst rv → entries_ok h (rule_objs h) rv → represents h rules rv.
Proof. intros -> Hok. split; [done|]. intros k r d Hin. by apply Hok. Qed.

Lemma entries_working_set h rv :
  wf rv → entries_ok h (rule_objs h) rv → working_set_wf h (vmap fst rv).
Proof.
  intros Hwf Hok. split; [by apply wf_vmap|].
  intros k r (e & -> & Hin)%elem_vmap. destruct e as [r d].
  exists d. by apply Hok.
Qed.

(** The first loop of [combine_rules_selectors] on a well-formed working
    set: one entry per rule, in order. *)
Lemma selectors_json_loop_entries h rv acc :
  entries_ok h (rule_objs h) rv →
  NoDup (keys acc ++ keys rv) →
  selectors_json_loop (values (vmap fst rv)) h acc =
  Some (acc ++ vmap (λ e, decl_json h e.2) rv).
Proof.
  revert acc. induction rv as [|[k [r d]] rv IH]; intros acc Hok Hnd.
  - cbn. by rewrite app_nil_r.
  - cbn [vmap values fmap list_fmap prod_map fst snd id selectors_json_loop].
    destruct (Hok k r d) as [Hr [ds Hd]]; [left|].
    rewrite Hr. cbn [mbind option_bind declarations selector]. rewrite Hd.
    cbn [mbind option_bind].
    change (list_fmap _ _ snd (list_fmap _ _ (prod_map id fst) rv))
      with (values (vmap fst rv)).
    unfold keys in Hnd. rewrite fmap_cons in Hnd. cbn [fst] in Hnd.
    rewrite set_not_elem.
    2:{ apply NoDup_app in Hnd as (_ & Hdisj & _). intros Hin.
        apply (Hdisj k Hin). left. }
    rewrite IH.
    + rewrite <-app_assoc. do 3 f_equal. unfold decl_json. by rewrite Hd.
    + intros k' r' d' Hin. apply Hok. by right.
    + unfold keys. rewrite fmap_app, <-app_assoc. exact Hnd.
Qed.

(** [combine_rules_selectors] through [combine_entries]. *)
Lemma combine_rules_selectors_entries this h rv :
  css_rules this = vmap fst rv →
  wf rv →
  entries_ok h (rule_objs h) rv →
  combine_rules_selectors (this, h) =
  (λ res, (mkProcessor (stores this) (vmap fst res.1),
           mkHeap (decl_objs h) res.2 (store_objs h)))
    <$> combine_entries (vmap (λ e, decl_json h e.2) rv)
          (vmap (λ e, decl_json h e.2) rv) rv (rule_objs h).
Proof.
  intros Hrules Hwf Hok. unfold combine_rules_selectors. rewrite Hrules.
  rewrite (selectors_json_loop_entries h rv []) by done.
  cbn [mbind option_bind app].
  rewrite (combine_loop_entries _ _ _ _ rv) by (by apply entries_ok_represents).
  by destruct (combine_entries _ _ _ _) as [[rv' objs']|].
Qed.

(** What [combine_entries] keeps: old rule objects, and entries that are
    backed by rule objects and declaration sets. *)
Lemma combine_entries_ok h todo sj rv objs rv' objs' :
  entries_ok h objs rv →
  combine_entries todo sj rv objs = Some (rv', objs') →
  entries_ok h objs' rv' ∧ objs `prefix_of` objs'.
Proof.
  revert sj rv objs. induction todo as [|[sel json] todo IH];
    intros sj rv objs Hok; cbn [combine_entries].
  - by intros [= <- <-].
  - case_decide; [by apply IH|].
    destruct (get rv sel) as [[r d]|] eqn:Hget; [|done].
    cbn [mbind option_bind snd]. intros Hrun.
    apply IH in Hrun as [Hok' Hpre].
    + split; [done|]. etrans; [|exact Hpre]. by apply prefix_app_r.
    + intros k r' d' Hin.
      apply elem_set_inv in Hin as [[= -> -> ->]|Hin].
      * split; [by apply list_lookup_middle|].
        apply get_Some_elem in Hget. by apply Hok in Hget as [_ ?].
      * rewrite unset_all in Hin. apply list_elem_of_filter in Hin as [_ Hin].
        apply Hok in Hin as [Hr Hd]. split; [|done].
        rewrite lookup_app_l; [done|]. by eapply lookup_lt_Some.
Qed.

Lemma build_css_total pretty h rules :
  working_set_wf h rules →
  is_Some (build_css pretty (values rules) h EmptyString).
Proof.
  intros [_ Hall]. induction rules as [|[k r] rules IH]; [by eexists|].
  cbn [values fmap list_fmap snd]. rewrite build_css_cons.
  destruct (Hall k r) as (d & Hr & [ds Hd]); [left|].
  unfold Rule.get_css. rewrite Hr. cbn [mbind option_bind declarations].
  rewrite Hd. cbn [mbind option_bind].
  destruct IH as [rest Hrest]; [intros; apply Hall; by right|].
  unfold values in Hrest. rewrite Hrest. by eexists.
Qed.

(** On a well-formed working set the combine pass goes through; it leaves a
    well-formed working set and the declaration sets and stores as they
    were, and a second pass right after it changes nothing. *)
Lemma combine_rules_selectors_twice this h :
  working_set_wf h (css_rules this) →
  ∃ this1 h1,
    combine_rules_selectors (this, h) = Some (this1, h1)
    ∧ combine_rules_selectors (this1, h1) = Some (this1, h1)
    ∧ working_set_wf h1 (css_rules this1)
    ∧ stores this1 = stores this
    ∧ decl_objs h1 = decl_objs h
    ∧ store_objs h1 = store_objs h.
Proof.
  intros Hws.
  destruct (working_set_entries _ _ Hws) as (rv & Hrules & Hwf & Hok).
  destruct (combine_entries_distinct (decl_json h) _ _ _ _ (rule_objs h)
              (combine_inv_init (decl_json h) rv Hwf))
    as (rv' & objs' & Hrun & Hwf' & Hinj).
  set (h1 := mkHeap (decl_objs h) objs' (store_objs h)).
  exists (mkProcessor (stores this) (vmap fst rv')), h1.
  assert (entries_ok h1 (rule_objs h1) rv') as Hok'.
  { by apply (combine_entries_ok h _ _ _ _ _ _ Hok Hrun). }
  split_and!; try done.
  - rewrite (combine_rules_selectors_entries this h rv) by done.
    by rewrite Hrun.
  - rewrite (combine_rules_selectors_entries _ h1 rv') by done.
    change (decl_json h1) with (decl_json h).
    rewrite combine_entries_skip; [done|].
    intros k j _. by apply array_keys_distinct.
  - by apply entries_working_set.
Qed.

(** ** Calling [get_css] twice *)

(** C3, as the spec words it, fails when stores are attached: every call
    pulls the stores' rules again, next to the combined rule of the call
    before, and the next pass combines all of them.  The second text has the
    selector [.wp-1,.wp-2,.wp-1,.wp-2]. *)
Lemma get_css_twice_with_stores_differs :
  ∃ css1 css2 st0 st1 st2,
    (st ← add_store 0 (new_processor, wp_heap); add_store 1 st) = Some st0
    ∧ get_css false (mkOptions (Some true) (Some false)) st0 = Some (css1, st1)
    ∧ get_css false (mkOptions (Some true) (Some false)) st1 = Some (css2, st2)
    ∧ css1 = ".wp-1,.wp-2{margin: 0;}"
    ∧ css2 = ".wp-1,.wp-2,.wp-1,.wp-2{margin: 0;}"
    ∧ css1 ≠ css2.
Proof.
  do 5 eexists. split_and!; [reflexivity..|discriminate].
Qed.

(** For a processor without attached stores whose working set is well
    formed, [get_css] returns, and calling it again with the same options on
    the state it left returns the same text and leaves the same state; in
    particular for [optimize] true. *)
Theorem get_css_twice_without_stores
    (script_debug : bool) (options : css_options)
    (this : WP_Style_Engine_Processor) (h : Heap) :
  stores this = [] →
  working_set_wf h (css_rules this) →
  ∃ css st1,
    get_css script_debug options (this, h) = Some (css, st1)
    ∧ get_css script_debug options st1 = Some (css, st1).
Proof.
  intros Hstores Hws. unfold get_css. cbn [fst]. rewrite Hstores.
  cbn [values fmap list_fmap pull_stores mbind option_bind].
  destruct (default true (optimize options)).
  - destruct (combine_rules_selectors_twice this h Hws)
      as (this1 & h1 & Hrun1 & Hrun2 & Hws1 & Hst & _).
    rewrite Hrun1. cbn [mbind option_bind fst snd].
    destruct (build_css_total (default script_debug (prettify options))
                h1 (css_rules this1) Hws1) as [css Hcss].
    exists css, (this1, h1). rewrite Hcss. split; [done|].
    cbn [mbind option_bind fst]. rewrite Hst, Hstores.
    cbn [values fmap list_fmap pull_stores mbind option_bind].
    rewrite Hrun2. cbn [mbind option_bind fst snd]. by rewrite Hcss.
  - cbn [mbind option_bind fst snd].
    destruct (build_css_total (default script_debug (prettify options))
                h (css_rules this) Hws) as [css Hcss].
    exists css, (this, h). rewrite Hcss. split; [done|].
    cbn [mbind option_bind fst]. rewrite Hstores.
    cbn [values fmap list_fmap pull_stores mbind option_bind fst snd].
    by rewrite Hcss.
Qed.

Lemma abc_working_set_wf : working_set_wf abc_heap (css_rules abc_processor).
Proof.
  split; [apply (bool_decide_unpack _); by vm_compute|].
  intros k r Hin. cbn in Hin.
  repeat (apply elem_of_cons in Hin as [[= -> ->]|Hin]);
    [eexists; split; [reflexivity|by eexists]..|].
  by apply elem_of_nil in Hin.
Qed.

(** ** The result of the combine pass in closed form *)

Section assign_facts.
Context {V : Type}.
Implicit Types (a l : php_array V) (k : string).

Lemma assign_all_snoc a l k v :
  assign_all a (l ++ [(k, v)]) = set (assign_all a l) k v.
Proof. unfold assign_all. by rewrite foldl_app. Qed.

Lemma get_assign_all_other a l k :
  k ∉ keys l → get (assign_all a l) k = get a k.
Proof.
  revert a. induction l as [|[k' v'] l IH]; intros a Hk; [done|].
  unfold keys in Hk. rewrite fmap_cons in Hk. apply not_elem_of_cons in Hk as [Hne Hk].
  cbn [assign_all foldl fst snd]. fold (assign_all (set a k' v') l).
  rewrite IH by done. by apply get_set_ne.
Qed.

Lemma filter_set (P : string * V → Prop) `{!∀ x, Decision (P x)} a k v :
  (∀ k v v', P (k, v) → P (k, v')) →
  P (k, v) → filter P (set a k v) = set (filter P a) k v.
Proof.
  intros Hkey HP. induction a as [|[k' v'] a IH]; cbn [set].
  - by rewrite filter_cons_True.
  - case_decide as Hk; subst.
    + rewrite !filter_cons_True by eauto. cbn [set]. by rewrite decide_True.
    + rewrite !filter_cons. case_decide; [|done].
      cbn [set]. by rewrite decide_False, IH.
Qed.

Lemma filter_assign_all (P : string * V → Prop) `{!∀ x, Decision (P x)} a l :
  (∀ k v v', P (k, v) → P (k, v')) →
  (∀ k v, k ∈ keys l → P (k, v)) →
  filter P (assign_all a l) = assign_all (filter P a) l.
Proof.
  intros Hkey. revert a. induction l as [|[k v] l IH]; intros a HP; [done|].
  cbn [assign_all foldl fst snd].
  fold (assign_all (set a k v) l).
  fold (assign_all (set (filter P a) k v) l).
  rewrite IH by (intros; apply HP; unfold keys; rewrite fmap_cons; by right).
  rewrite filter_set; [done..|]. apply HP. unfold keys. rewrite fmap_cons. left.
Qed.

(** Assigning fresh, pairwise different keys appends. *)
Lemma assign_all_fresh a l :
  NoDup (keys a ++ keys l) → wf l → assign_all a l = a ++ l.
Proof.
  revert a. induction l as [|[k v] l IH]; intros a Hnd Hwf.
  - by rewrite app_nil_r.
  - cbn [assign_all foldl fst snd]. fold (assign_all (set a k v) l).
    unfold keys in Hnd. rewrite fmap_cons in Hnd. cbn [fst] in Hnd.
    rewrite set_not_elem.
    2:{ apply NoDup_app in Hnd as (_ & Hdisj & _). intros Hin.
        apply (Hdisj k Hin). left. }
    rewrite IH; [by rewrite <-app_assoc| |].
    + unfold keys. rewrite fmap_app, <-app_assoc. exact Hnd.
    + unfold wf, keys in *. rewrite fmap_cons in Hwf.
      by apply NoDup_cons in Hwf as [_ ?].
Qed.

(** An entry of the result was assigned or was there and not assigned
    over. *)
Lemma elem_assign_all a l k v :
  (k, v) ∈ assign_all a l → (k, v) ∈ l ∨ (k, v) ∈ a.
Proof.
  revert a. induction l as [|[k' v'] l IH]; intros a Hin; [by right|].
  cbn [assign_all foldl fst snd] in Hin. fold (assign_all (set a k' v') l) in Hin.
  apply IH in Hin as [Hin|Hin]; [left; by right|].
  apply elem_set_inv in Hin as [->|Hin]; [left; left | by right].
Qed.

(** The value under an assigned key is one of the assigned values. *)
Lemma get_assign_all_elem a l k :
  k ∈ keys l → ∃ v, get (assign_all a l) k = Some v ∧ (k, v) ∈ l.
Proof.
  induction l as [|[k' v'] l IH] using rev_ind; intros Hk.
  { by apply elem_of_nil in Hk. }
  rewrite assign_all_snoc. unfold keys in Hk. rewrite fmap_app in Hk.
  destruct (decide (k = k')) as [->|Hne].
  - exists v'. rewrite get_set_eq. split; [done|].
    apply elem_of_app. right. left.
  - rewrite get_set_ne by done. apply elem_of_app in Hk as [Hk|Hk].
    + destruct (IH Hk) as (v & Hget & Hin). exists v. split; [done|].
      apply elem_of_app. by left.
    + apply list_elem_of_singleton in Hk. cbn in Hk. congruence.
Qed.

Lemma keys_assign_all_elem a l k :
  k ∈ keys a → k ∈ keys (assign_all a l).
Proof.
  revert a. induction l as [|[k' v'] l IH]; intros a Hk; [done|].
  cbn [assign_all foldl fst snd]. fold (assign_all (set a k' v') l).
  by apply IH, elem_keys_set.
Qed.

End assign_facts.

Lemma no_nested_collision_elem es e1 e2 :
  no_nested_collision es →
  e1 ∈ es → e2 ∈ es → combines es e1.2.1 → combines es e2.2.1 →
  implode "," (group es e1.2.1) ≠ e2.1.
Proof.
  intros Hnc H1 H2. unfold no_nested_collision in Hnc.
  rewrite Forall_forall in Hnc. specialize (Hnc e1 H1).
  rewrite Forall_forall in Hnc. by apply Hnc.
Qed.

Section closed_form.
Variable es : described.
Hypothesis es_wf : wf es.

Lemma array_keys_vmap_json (X : described) (j : string) :
  array_keys (vmap fst X) j = keys (filter (λ e, e.2.1 = j) X).
Proof.
  unfold array_keys.
  rewrite (filter_vmap fst (λ kv, kv.2 = j) (λ e, e.2.1 = j)) by done.
  apply keys_vmap.
Qed.

Lemma elem_group_json e j : e ∈ es → e.1 ∈ group es j ↔ e.2.1 = j.
Proof.
  intros He. destruct e as [k v]. unfold group. rewrite elem_keys. split.
  - intros (v' & Hin). apply list_elem_of_filter in Hin as [Hj Hin].
    cbn [fst snd] in *. by rewrite (wf_functional es k v v').
  - intros Hj. exists v. by apply list_elem_of_filter.
Qed.

Lemma elem_group_inv k j : k ∈ group es j → ∃ v, (k, (j, v)) ∈ es.
Proof.
  unfold group. intros (v' & Hin)%elem_keys.
  apply list_elem_of_filter in Hin as [Hj Hin]. destruct v' as [j' v].
  cbn in Hj. subst. by exists v.
Qed.

Lemma array_keys_sj_at done j :
  array_keys (sj_at es done) j =
  if decide (handled es done j) then [] else group es j.
Proof.
  unfold sj_at, remaining. rewrite array_keys_vmap_json, list_filter_filter.
  case_decide as Hh.
  - rewrite filter_none; [done|]. intros e _ [Hj Hn]. apply Hn. by rewrite Hj.
  - unfold group. f_equal. apply list_filter_iff. intros e.
    split; [tauto|]. intros Hj. split; [done|]. by rewrite Hj.
Qed.

Lemma joined_snoc done e :
  joined es (done ++ [e]) =
  joined es done ++ (if decide (is_leader es e) then [join_of es e] else []).
Proof.
  unfold joined. rewrite filter_app, fmap_app. f_equal.
  rewrite filter_cons, filter_nil. by case_decide.
Qed.

Lemma handled_snoc done e j :
  handled es (done ++ [e]) j ↔
  handled es done j ∨ (j = e.2.1 ∧ combines es j).
Proof.
  unfold handled. rewrite fmap_app, elem_of_app. cbn [fmap list_fmap].
  rewrite list_elem_of_singleton. tauto.
Qed.

Lemma remaining_snoc_same done e :
  handled es done e.2.1 ∨ ¬ combines es e.2.1 →
  remaining es (done ++ [e]) = remaining es done.
Proof.
  intros Hcase. unfold remaining. apply list_filter_iff. intros e'.
  rewrite handled_snoc. split; [tauto|].
  intros Hn [Hh|[Hj Hc]]; [done|]. rewrite Hj in *. tauto.
Qed.

Lemma remaining_snoc_combined done e :
  combines es e.2.1 →
  remaining es (done ++ [e]) =
  filter (λ e', e'.2.1 ≠ e.2.1) (remaining es done).
Proof.
  intros Hc. unfold remaining. rewrite list_filter_filter.
  apply list_filter_iff. intros e'. rewrite handled_snoc.
  split; [|intros [Hne Hn] [Hh|[Hj _]]; done].
  intros Hn. split; [|tauto].
  intros Hj. apply Hn. right. split; [done|]. by rewrite Hj.
Qed.

Lemma unset_group_remaining {B} (f : string * (nat * nat) → B) done e :
  e ∈ es → combines es e.2.1 →
  foldl unset (vmap f (remaining es done)) (group es e.2.1) =
  vmap f (remaining es (done ++ [e])).
Proof.
  intros He Hc. rewrite unset_all, remaining_snoc_combined by done.
  apply filter_vmap. intros k v Hin. cbn [fst].
  apply list_elem_of_filter in Hin as [_ Hin].
  by rewrite (elem_group_json (k, v) e.2.1 Hin).
Qed.

Lemma keys_numbered n0 (l : php_array decl_ref) : keys (numbered n0 l) = keys l.
Proof.
  unfold keys, numbered. rewrite fmap_imap, <-(imap_const fst).
  by apply imap_ext.
Qed.

Lemma numbered_snoc n0 (l : php_array decl_ref) K d :
  numbered n0 (l ++ [(K, d)]) = numbered n0 l ++ [(K, (n0 + length l, d))].
Proof. unfold numbered. rewrite imap_app. cbn. by rewrite Nat.add_0_r. Qed.

Lemma elem_joined done K d :
  (K, d) ∈ joined es done →
  ∃ e, e ∈ done ∧ is_leader es e ∧ K = implode "," (group es e.2.1) ∧ d = e.2.2.2.
Proof.
  unfold joined. intros (e & [= -> ->] & Hin)%list_elem_of_fmap.
  apply list_elem_of_filter in Hin as [Hl Hin]. by exists e.
Qed.

(** Under [no_nested_collision] no combined selector is a member of a
    group that gets combined. *)
Lemma joined_not_member done K j :
  no_nested_collision es → (∀ e, e ∈ done → e ∈ es) →
  K ∈ keys (joined es done) → combines es j → K ∉ group es j.
Proof.
  intros Hnc Hsub (d & Hin)%elem_keys Hc Hmem.
  apply elem_joined in Hin as (e & He & [Hce _] & -> & _).
  apply elem_group_inv in Hmem as (v & Hv).
  by apply (no_nested_collision_elem es e (implode "," (group es e.2.1), (j, v))
              Hnc (Hsub e He) Hv Hce Hc).
Qed.

Lemma leader_first done e rest :
  es = done ++ e :: rest →
  e.2.1 ∉ ((λ e, e.2.1) <$> done) →
  head (group es e.2.1) = Some e.1.
Proof.
  intros Hes Hv. unfold group. rewrite Hes, filter_app.
  rewrite (filter_none _ done).
  - by rewrite filter_cons_True.
  - intros x Hx Hj. apply Hv. apply list_elem_of_fmap. by exists x.
Qed.

Lemma not_leader_later done e rest :
  es = done ++ e :: rest →
  e.2.1 ∈ ((λ e, e.2.1) <$> done) →
  head (group es e.2.1) ≠ Some e.1.
Proof.
  intros Hes (e' & Hj & He')%list_elem_of_fmap. unfold group.
  assert (NoDup (keys done ++ keys (e :: rest))) as Hnd.
  { unfold wf, keys in *. by rewrite Hes, fmap_app in es_wf. }
  rewrite Hes, filter_app. unfold keys. rewrite fmap_app.
  destruct (filter (λ x, x.2.1 = e.2.1) done) as [|x l] eqn:Hf.
  { assert (e' ∈ filter (λ x, x.2.1 = e.2.1) done) as Hin
      by (by apply list_elem_of_filter).
    rewrite Hf in Hin. by apply elem_of_nil in Hin. }
  cbn. intros [= Hx].
  assert (x ∈ done) as Hxd.
  { assert (x ∈ filter (λ x, x.2.1 = e.2.1) done) as Hin by (rewrite Hf; left).
    by apply list_elem_of_filter in Hin as [_ ?]. }
  apply NoDup_app in Hnd as (_ & Hdisj & _). apply (Hdisj e.1).
  - rewrite <-Hx. apply list_elem_of_fmap. by exists x.
  - unfold keys. rewrite fmap_cons. left.
Qed.

(** The loop from the state after [done] ends in the state after all of
    [es]. *)
Lemma combine_entries_closed_from objs0 done rest :
  no_nested_collision es →
  es = done ++ rest →
  combine_entries (vmap fst rest) (sj_at es done)
    (rv_at es (length objs0) done) (objs_at es objs0 done)
  = Some (rv_at es (length objs0) es, objs_at es objs0 es).
Proof.
  intros Hnc. revert done. induction rest as [|e rest IH]; intros done Hes.
  - rewrite app_nil_r in Hes. by rewrite <-Hes.
  - assert (es = (done ++ [e]) ++ rest) as Hes'
      by (by rewrite <-app_assoc).
    specialize (IH _ Hes').
    assert (e ∈ es) as He by (rewrite Hes; apply elem_of_app; right; left).
    assert (∀ x, x ∈ done → x ∈ es) as Hsub
      by (intros x Hx; rewrite Hes; apply elem_of_app; by left).
    destruct e as [k [j [r d]]].
    change (vmap fst ((k, (j, (r, d))) :: rest)) with ((k, j) :: vmap fst rest).
    cbn [combine_entries]. rewrite array_keys_sj_at.
    destruct (decide (handled es done j)) as [Hh|Hh].
    + rewrite decide_True by (cbn; lia). rewrite <-IH.
      unfold sj_at, rv_at, objs_at.
      rewrite remaining_snoc_same by (by left).
      rewrite joined_snoc, decide_False, app_nil_r; [done|].
      intros [_ Hhead].
      by eapply (not_leader_later done (k, (j, (r, d)))); [|apply Hh|].
    + destruct (decide (combines es j)) as [Hc|Hc].
      * rewrite decide_False by (unfold combines in Hc; lia).
        assert (is_leader es (k, (j, (r, d)))) as Hlead.
        { split; [done|]. eapply leader_first; [exact Hes|].
          intros Hv. by apply Hh. }
        assert (∀ k', k' ∈ keys (numbered (length objs0) (joined es done)) →
                      k' ∉ group es j) as Hjoins.
        { intros k' Hk'. rewrite keys_numbered in Hk'.
          by eapply joined_not_member. }
        assert (get (rv_at es (length objs0) done) k = Some (r, d)) as ->.
        { unfold rv_at. rewrite get_assign_all_other.
          - rewrite get_vmap, (elem_get _ k (j, (r, d))); [done| |].
            + by apply wf_filter.
            + by apply list_elem_of_filter.
          - intros Hin. apply (Hjoins k Hin).
            by apply (elem_group_json (k, (j, (r, d))) j He). }
        cbn [mbind option_bind snd]. rewrite <-IH.
        assert (foldl unset (sj_at es done) (group es j) =
                sj_at es (done ++ [(k, (j, (r, d)))])) as ->
          by (by apply (unset_group_remaining fst done (k, (j, (r, d))))).
        assert (objs_at es objs0 done ++ [mkRule (implode "," (group es j)) d] =
                objs_at es objs0 (done ++ [(k, (j, (r, d)))])) as ->.
        { unfold objs_at. rewrite joined_snoc, decide_True by done.
          by rewrite fmap_app, app_assoc. }
        assert (set (foldl unset (rv_at es (length objs0) done) (group es j))
                  (implode "," (group es j))
                  (length (objs_at es objs0 done), d) =
                rv_at es (length objs0) (done ++ [(k, (j, (r, d)))])) as ->;
          [|done].
        unfold rv_at. rewrite unset_all.
        rewrite filter_assign_all by (by intros; cbn [fst]; auto).
        rewrite <-unset_all.
        pose proof (unset_group_remaining snd done (k, (j, (r, d))) He Hc) as Hu.
        cbn [fst snd] in Hu. rewrite Hu.
        rewrite <-assign_all_snoc, joined_snoc, decide_True by done.
        unfold join_of. cbn [fst snd]. rewrite numbered_snoc. unfold objs_at.
        by rewrite length_app, length_fmap.
      * rewrite decide_True by (unfold combines in Hc; lia). rewrite <-IH.
        unfold sj_at, rv_at, objs_at.
        rewrite remaining_snoc_same by (by right).
        rewrite joined_snoc, decide_False, app_nil_r; [done|].
        by intros [? _].
Qed.

End closed_form.

Lemma remaining_nil es : remaining es [] = es.
Proof.
  unfold remaining. apply filter_all. intros e _ [Hin _].
  by apply elem_of_nil in Hin.
Qed.

Lemma remaining_all es : remaining es es = untouched es.
Proof.
  unfold remaining, untouched. apply filter_ext_elem. intros e He.
  unfold handled. split; [|tauto]. intros Hn Hc. apply Hn. split; [|done].
  apply list_elem_of_fmap. by exists e.
Qed.

(** The pass in closed form, on entries: the rules of combined groups are
    removed, then the combined rules are assigned in the order of their
    groups' first members. *)
Lemma combine_entries_closed es objs0 :
  wf es → no_nested_collision es →
  combine_entries (vmap fst es) (vmap fst es) (vmap snd es) objs0 =
  Some (assign_all (vmap snd (untouched es))
          (numbered (length objs0) (combined es)),
        objs0 ++ ((λ c, mkRule c.1 c.2) <$> combined es)).
Proof.
  intros Hwf Hnc.
  pose proof (combine_entries_closed_from es Hwf objs0 [] es Hnc eq_refl) as H.
  unfold sj_at, rv_at, objs_at in H.
  rewrite remaining_nil, remaining_all in H.
  change (joined es []) with (@nil (string * nat)) in H.
  cbn [numbered imap assign_all foldl fmap list_fmap] in H.
  by rewrite app_nil_r in H.
Qed.

Lemma no_collision_nested es : wf es → no_collision es → no_nested_collision es.
Proof.
  intros Hwf [Hfresh _]. rewrite Forall_forall in Hfresh.
  apply Forall_forall. intros e1 H1. apply Forall_forall.
  intros e2 H2 Hc1 Hc2 Heq.
  assert (∃ e, e ∈ es ∧ is_leader es e ∧ e.2.1 = e1.2.1) as (e & He & Hl & Hj).
  { destruct (group es e1.2.1) as [|k l] eqn:Hg.
    { unfold combines in Hc1. rewrite Hg in Hc1. cbn in Hc1. lia. }
    assert (k ∈ group es e1.2.1) as Hk by (rewrite Hg; left).
    apply (elem_group_inv es) in Hk as (v & Hv).
    exists (k, (e1.2.1, v)). split_and!; [done| |done].
    split; cbn [fst snd]; [done|by rewrite Hg]. }
  apply (Hfresh e2.1).
  - rewrite <-Heq, <-Hj. apply elem_keys. exists e.2.2.2.
    unfold combined, joined. apply list_elem_of_fmap. exists e. split; [done|].
    by apply list_elem_of_filter.
  - apply elem_keys. exists e2.2. by destruct e2.
Qed.

Section describe_facts.
Variables (h : Heap) (rules : php_array rule_ref).
Hypothesis rules_wf : working_set_wf h rules.

Lemma describe_rules : vmap (λ e, e.2.1) (describe h rules) = rules.
Proof.
  unfold describe. rewrite vmap_vmap. unfold vmap.
  rewrite <-(list_fmap_id rules) at 2. apply list_fmap_ext. by intros _ [k r] _.
Qed.

Lemma describe_wf : wf (describe h rules).
Proof. apply wf_vmap. by destruct rules_wf. Qed.

Lemma describe_elem k j r d :
  (k, (j, (r, d))) ∈ describe h rules →
  (k, r) ∈ rules ∧ rule_objs h !! r = Some (mkRule k d)
  ∧ is_Some (decl_objs h !! d) ∧ j = decl_json h d.
Proof.
  unfold describe. intros (r' & Heq & Hin)%elem_vmap.
  destruct rules_wf as [_ Hall]. destruct (Hall k r' Hin) as (d' & Hr & Hd).
  rewrite Hr in Heq. cbn in Heq. injection Heq as -> -> ->. done.
Qed.

Lemma describe_entries_ok :
  entries_ok h (rule_objs h) (vmap snd (describe h rules)).
Proof.
  intros k r d ([j e] & Heq & Hin)%elem_vmap. cbn in Heq. subst e.
  by apply describe_elem in Hin as (_ & ? & ? & _).
Qed.

Lemma describe_json :
  vmap (λ e, decl_json h e.2) (vmap snd (describe h rules)) =
  vmap fst (describe h rules).
Proof.
  rewrite vmap_vmap. unfold vmap. apply list_fmap_ext.
  intros _ [k [j [r d]]] Hin%list_elem_of_lookup_2.
  apply describe_elem in Hin as (_ & _ & _ & ->). done.
Qed.

Lemma describe_fst_snd :
  vmap fst (vmap snd (describe h rules)) = rules.
Proof. rewrite vmap_vmap. apply describe_rules. Qed.

End describe_facts.

(** The pass in closed form: on a well-formed working set where no combined
    selector is the selector of a rule that is combined itself, the pass
    removes the rules of every group of two or more, then assigns, in the
    order of the groups' first members, one new rule per group under the
    group's comma-joined selectors; the new rule holds the declarations
    object of the group's first member. *)
Lemma combine_rules_selectors_closed this h :
  working_set_wf h (css_rules this) →
  no_nested_collision (describe h (css_rules this)) →
  combine_rules_selectors (this, h) =
  Some (mkProcessor (stores this)
          (vmap fst
             (assign_all (vmap snd (untouched (describe h (css_rules this))))
                (numbered (length (rule_objs h))
                   (combined (describe h (css_rules this)))))),
        mkHeap (decl_objs h)
          (rule_objs h
             ++ ((λ c, mkRule c.1 c.2) <$> combined (describe h (css_rules this))))
          (store_objs h)).
Proof.
  intros Hws Hnc. set (es := describe h (css_rules this)) in *.
  rewrite (combine_rules_selectors_entries this h (vmap snd es)).
  - unfold es at 1 2. rewrite describe_json by done. fold es.
    rewrite combine_entries_closed; [done| |done]. by apply describe_wf.
  - symmetry. by apply describe_fst_snd.
  - apply wf_vmap. by apply describe_wf.
  - by apply describe_entries_ok.
Qed.

Lemma wf_assign_all {V} (a l : php_array V) : wf a → wf (assign_all a l).
Proof.
  revert a. induction l as [|[k v] l IH]; intros a Hwf; [done|].
  cbn [assign_all foldl fst snd]. fold (assign_all (set a k v) l).
  by apply IH, wf_set.
Qed.

Lemma elem_numbered n0 (l : php_array decl_ref) K r d :
  (K, (r, d)) ∈ numbered n0 l →
  n0 ≤ r ∧ (K, d) ∈ l ∧ l !! (r - n0) = Some (K, d).
Proof.
  unfold numbered. intros [i Hi]%list_elem_of_lookup_1.
  rewrite list_lookup_imap in Hi.
  destruct (l !! i) as [[K' d']|] eqn:Hl; [|done].
  cbn in Hi. injection Hi as -> <- ->.
  replace (n0 + i - n0) with i by lia.
  split_and!; [lia| |done]. by eapply list_elem_of_lookup_2.
Qed.

Lemma elem_combined es K d :
  (K, d) ∈ combined es ↔
  ∃ k j r, (k, (j, (r, d))) ∈ es ∧ 2 ≤ length (group es j)
           ∧ head (group es j) = Some k ∧ K = implode "," (group es j).
Proof.
  unfold combined, joined. rewrite list_elem_of_fmap. split.
  - intros ([k [j [r d']]] & [= -> ->] & Hin).
    apply list_elem_of_filter in Hin as [[Hc Hh] Hin].
    by exists k, j, r.
  - intros (k & j & r & Hin & Hc & Hh & ->).
    exists (k, (j, (r, d))). split; [done|]. by apply list_elem_of_filter.
Qed.

(** The state the pass leaves, with what holds of it. *)
Lemma combine_rules_selectors_result this h :
  working_set_wf h (css_rules this) →
  no_nested_collision (describe h (css_rules this)) →
  ∃ rv' objs',
    rv' = assign_all (vmap snd (untouched (describe h (css_rules this))))
            (numbered (length (rule_objs h))
               (combined (describe h (css_rules this))))
    ∧ objs' = rule_objs h
              ++ ((λ c, mkRule c.1 c.2) <$> combined (describe h (css_rules this)))
    ∧ combine_rules_selectors (this, h) =
      Some (mkProcessor (stores this) (vmap fst rv'),
            mkHeap (decl_objs h) objs' (store_objs h))
    ∧ wf rv'
    ∧ entries_ok h objs' rv'.
Proof.
  intros Hws Hnc. set (es := describe h (css_rules this)) in *.
  eexists _, _. split; [reflexivity|]. split; [reflexivity|].
  split; [by apply combine_rules_selectors_closed|].
  assert (wf es) as Hwf by (by apply describe_wf).
  split.
  - apply wf_assign_all, wf_vmap. by apply wf_filter.
  - eapply (combine_entries_ok h (vmap fst es) (vmap fst es) (vmap snd es)).
    + by apply describe_entries_ok.
    + by apply combine_entries_closed.
Qed.

(** C4, as the spec words it, fails in its last part: the combined rule does
    not take the place of its members.  [.a] and [.b] come first in the
    working set, their combined rule comes last, after [.c] and [.d]. *)
Lemma combined_rule_not_in_place :
  ∃ css this' h',
    get_css false (mkOptions (Some true) (Some false))
      (abcd_processor, abcd_heap) = Some (css, (this', h'))
    ∧ css = ".c{color: blue;}.d{color: green;}.a,.b{color: red;}"
    ∧ keys (css_rules this') = [".c"; ".d"; ".a,.b"]
    ∧ in_place_selectors (describe abcd_heap (css_rules abcd_processor))
      = [".a,.b"; ".c"; ".d"]
    ∧ keys (css_rules this')
      ≠ in_place_selectors (describe abcd_heap (css_rules abcd_processor)).
Proof.
  do 3 eexists. split_and!; [reflexivity..|]. vm_compute. discriminate.
Qed.

(** C4, amended.  On a well-formed working set where no combined selector is
    already a selector of the working set or the combined selector of another
    group, the pass does this for every group of two or more selectors with
    the same JSON text: it makes one new rule whose selector joins the
    group's members with commas in first-seen order and whose declarations
    are the declarations object of the first member; it removes every member;
    and it puts the new rule at the end of the working set.  So the rules
    left alone come first, in their order, and the combined rules follow in
    the order of their groups' first members. *)
Theorem combine_pass_appends_combined_rules
    (this : WP_Style_Engine_Processor) (h : Heap) :
  working_set_wf h (css_rules this) →
  no_collision (describe h (css_rules this)) →
  combine_rules_selectors (this, h) =
  Some (mkProcessor (stores this)
          (vmap (λ e, e.2.1) (untouched (describe h (css_rules this)))
             ++ vmap fst (numbered (length (rule_objs h))
                            (combined (describe h (css_rules this))))),
        mkHeap (decl_objs h)
          (rule_objs h
             ++ ((λ c, mkRule c.1 c.2) <$> combined (describe h (css_rules this))))
          (store_objs h))
  ∧ (∀ K d, (K, d) ∈ combined (describe h (css_rules this)) ↔
       ∃ k j r, (k, (j, (r, d))) ∈ describe h (css_rules this)
                ∧ 2 ≤ length (group (describe h (css_rules this)) j)
                ∧ head (group (describe h (css_rules this)) j) = Some k
                ∧ K = implode "," (group (describe h (css_rules this)) j))
  ∧ (∀ k j v, (k, (j, v)) ∈ describe h (css_rules this) →
       2 ≤ length (group (describe h (css_rules this)) j) →
       (k ∉ keys (untouched (describe h (css_rules this))))
       ∧ (k ∉ keys (combined (describe h (css_rules this))))).
Proof.
  intros Hws Hnc. set (es := describe h (css_rules this)) in *.
  assert (wf es) as Hwf by (by apply describe_wf).
  pose proof Hnc as [Hfresh Hnd]. rewrite Forall_forall in Hfresh.
  split_and!.
  - rewrite combine_rules_selectors_closed by (by try apply no_collision_nested).
    fold es. do 3 f_equal. rewrite assign_all_fresh.
    + unfold vmap at 1. rewrite fmap_app. f_equal. apply vmap_vmap.
    + rewrite keys_vmap, keys_numbered. apply NoDup_app. split_and!; [|..|done].
      * by apply (wf_filter _ es).
      * intros k (v & Hin)%elem_keys Hk. apply (Hfresh k Hk).
        apply list_elem_of_filter in Hin as [_ Hin]. apply elem_keys. eauto.
    + unfold wf. by rewrite keys_numbered.
  - apply elem_combined.
  - intros k j v Hin Hc. split.
    + intros (v' & Hin')%elem_keys.
      apply list_elem_of_filter in Hin' as [Hn Hin'].
      rewrite <-(wf_functional es k (j, v) v' Hwf Hin Hin') in Hn. by apply Hn.
    + intros Hk. apply (Hfresh k Hk). apply elem_keys. eauto.
Qed.

Lemma abcd_working_set_wf : working_set_wf abcd_heap (css_rules abcd_processor).
Proof.
  split; [apply (bool_decide_unpack _); by vm_compute|].
  intros k r Hin. cbn in Hin.
  repeat (apply elem_of_cons in Hin as [[= -> ->]|Hin]);
    [eexists; split; [reflexivity|by eexists]..|].
  by apply elem_of_nil in Hin.
Qed.

Lemma combine_pass_appends_combined_rules_witness :
  combine_rules_selectors (abcd_processor, abcd_heap) =
  Some (mkProcessor [] [(".c", 2); (".d", 3); (".a,.b", 4)],
        mkHeap (decl_objs abcd_heap)
          (rule_objs abcd_heap ++ [mkRule ".a,.b" 0]) []).
Proof.
  destruct (combine_pass_appends_combined_rules abcd_processor abcd_heap)
    as [Heq _].
  - exact abcd_working_set_wf.
  - apply (bool_decide_unpack _). by vm_compute.
  - rewrite Heq. reflexivity.
Defined.

(** ** A combined selector that is already a selector *)

Lemma array_keys_filter_length {V} `{EqDecision V} (P : string * V → Prop)
    `{!∀ x, Decision (P x)} (a : php_array V) (v : V) :
  length (array_keys (filter P a) v) ≤ length (array_keys a v).
Proof.
  unfold array_keys, keys. rewrite !length_fmap.
  assert (filter (λ kv, kv.2 = v) (filter P a) =
          filter P (filter (λ kv, kv.2 = v) a)) as ->.
  { rewrite !list_filter_filter. apply list_filter_iff. intros x. tauto. }
  apply length_filter.
Qed.

Lemma array_keys_filter_other {V} `{EqDecision V} (a : php_array V) (v w : V) :
  v ≠ w →
  array_keys (filter (λ kv, kv.2 ≠ w) a) v = array_keys a v.
Proof.
  intros Hne. unfold array_keys. f_equal. rewrite list_filter_filter.
  apply list_filter_iff. intros [k x]. cbn [snd]. split; [tauto|].
  intros ->. done.
Qed.

Section overwrite.
Variable jd : decl_ref → string.
(** The snapshot; the rule that is there under [K], with its JSON text
    [j_pre]; the group [G] with the JSON text [j] that joins to [K]; the
    number of rule objects before the pass. *)
Variables (sj0 : php_array string) (K j_pre j : string) (G : list string).
Variables (r_pre n0 : nat).
Hypothesis K_json : (K, j_pre) ∈ sj0.
Hypothesis K_single : length (array_keys sj0 j_pre) ≤ 1.
Hypothesis G_group : 2 ≤ length G.
Hypothesis G_join : implode "," G = K.
Hypothesis r_pre_old : r_pre < n0.

Lemma overwrite_K_not_duplicate todo sj rv json :
  combine_inv jd sj0 todo sj rv →
  ¬ length (array_keys sj json) ≤ 1 →
  K ∉ array_keys sj json.
Proof.
  intros (Hwf0 & _ & [gone ->] & _) Hlen HK.
  apply elem_array_keys, list_elem_of_filter in HK as [_ HK].
  assert (json = j_pre) as -> by (by eapply wf_functional).
  pose proof (array_keys_filter_length (λ kv, kv.2 ∉ gone) sj0 j_pre). lia.
Qed.

Lemma overwrite_inv_end sj rv objs :
  overwrite_inv jd sj0 K j_pre j G r_pre n0 [] sj rv objs →
  ∃ r d, get rv K = Some (r, d) ∧ n0 ≤ r
         ∧ ∀ k r' d', (k, (r', d')) ∈ rv → jd d' ≠ j_pre.
Proof.
  intros (Hinv & _ & Honly & [[[g Hg] _]|(r & d & Hget & Hr)]).
  { by apply elem_of_nil in Hg. }
  exists r, d. split_and!; [done..|]. intros k r' d' Hin Hj.
  destruct (Honly k r' d' Hin Hj) as [-> ->].
  destruct Hinv as (_ & Hwf & _).
  apply (elem_get _ _ _ Hwf) in Hin. rewrite Hget in Hin.
  injection Hin as ? ?. lia.
Qed.

Lemma overwrite_inv_run todo sj rv objs :
  overwrite_inv jd sj0 K j_pre j G r_pre n0 todo sj rv objs →
  ∃ rv' objs',
    combine_entries todo sj rv objs = Some (rv', objs')
    ∧ wf rv'
    ∧ ∃ r d, get rv' K = Some (r, d) ∧ n0 ≤ r
             ∧ ∀ k r' d', (k, (r', d')) ∈ rv' → jd d' ≠ j_pre.
Proof.
  revert sj rv objs. induction todo as [|[sel json] todo IH];
    intros sj rv objs Hinv.
  - exists rv, objs. split; [done|]. split.
    + by destruct Hinv as ((_ & ? & _) & _).
    + by eapply overwrite_inv_end.
  - destruct Hinv as (Hinv & Hn0 & Honly & Hphase).
    cbn [combine_entries]. case_decide as Hlen.
    + apply IH. split_and!; [by eapply combine_inv_skip|done..|].
      destruct Hphase as [[[g Hg] HG]|Hfresh]; [left|by right].
      split; [|done]. exists g.
      apply elem_of_cons in Hg as [[= -> <-]|Hg]; [|done].
      rewrite HG in Hlen. lia.
    + pose proof (overwrite_K_not_duplicate _ _ _ _ Hinv Hlen) as HK.
      pose proof (combine_inv_wf_sj _ _ _ _ _ Hinv) as Hwfsj.
      destruct (combine_inv_big jd _ _ _ _ _ _ (length objs) Hinv Hlen)
        as ([r d] & Hget & Hinv').
      rewrite Hget. cbn [mbind option_bind snd].
      assert ((sel, json) ∈ sj) as Hsel.
      { destruct Hinv as (_ & _ & [gone ->] & _ & Htodo & _).
        destruct (array_keys _ json) as [|k0 l] eqn:Hd; [cbn in Hlen; lia|].
        assert (k0 ∈ array_keys (filter (λ kv, kv.2 ∉ gone) sj0) json) as Hk0
          by (rewrite Hd; left).
        apply elem_array_keys, list_elem_of_filter in Hk0 as [Hng _].
        apply list_elem_of_filter. split; [done|]. apply Htodo. left. }
      apply IH. split_and!; [done|rewrite length_app; lia| |].
      * intros k r' d' Hin Hj.
        apply elem_set_inv in Hin as [[= -> -> ->]|Hin].
        -- apply get_Some_elem in Hget.
           destruct (Honly sel r d Hget Hj) as [-> _].
           destruct HK. by apply elem_array_keys.
        -- rewrite unset_all in Hin.
           apply list_elem_of_filter in Hin as [_ Hin]. by eapply Honly.
      * destruct (decide (json = j)) as [->|Hne].
        -- right. destruct Hphase as [[_ HG]|(r1 & d1 & Hg1 & Hr1)].
           ++ rewrite HG, G_join, get_set_eq. eexists _, _.
              split; [done|]. done.
           ++ destruct (decide (implode "," (array_keys sj j) = K)) as [->|HneK].
              ** rewrite get_set_eq. eexists _, _. split; [done|]. done.
              ** rewrite get_set_ne by done. exists r1, d1. split; [|done].
                 apply get_Some_elem in Hg1. apply elem_get.
                 { rewrite unset_all. apply wf_filter.
                   by destruct Hinv as (_ & ? & _). }
                 rewrite unset_all. by apply list_elem_of_filter.
        -- destruct Hphase as [[[g Hg] HG]|(r1 & d1 & Hg1 & Hr1)].
           ++ left. split.
              ** exists g. apply elem_of_cons in Hg as [[= _ ?]|Hg]; done.
              ** rewrite unset_array_keys by done.
                 rewrite array_keys_filter_other; done.
           ++ right.
              destruct (decide (implode "," (array_keys sj json) = K))
                as [->|HneK].
              ** rewrite get_set_eq. eexists _, _. split; [done|]. done.
              ** rewrite get_set_ne by done. exists r1, d1. split; [|done].
                 apply get_Some_elem in Hg1. apply elem_get.
                 { rewrite unset_all. apply wf_filter.
                   by destruct Hinv as (_ & ? & _). }
                 rewrite unset_all. by apply list_elem_of_filter.
Qed.

End overwrite.

Lemma combines_leader es j :
  wf es → combines es j →
  ∃ k r d, (k, (j, (r, d))) ∈ es ∧ head (group es j) = Some k.
Proof.
  intros Hwf Hc. destruct (group es j) as [|k l] eqn:Hg.
  { unfold combines in Hc. rewrite Hg in Hc. cbn in Hc. lia. }
  assert (k ∈ group es j) as Hk by (rewrite Hg; left).
  apply (elem_group_inv es) in Hk as ([r d] & Hv). by exists k, r, d.
Qed.

(** C10, amended.  Let the working set, after the stores' rules are pulled
    in, be well formed and hold a rule whose declarations no other rule
    shares and whose
    selector is the comma-joined selector of a group of two or more rules
    with the same declarations.  Then [get_css] with [optimize] true returns,
    and afterwards the entry under that selector is a rule object made by the
    pass, with that selector.  The rule that was there is no longer in the
    working set, and no rule of the working set has declarations with its
    JSON text: its declarations are gone from the output.  If moreover no
    combined selector is the selector of a rule that is combined itself, the
    new rule holds the declarations of the first member of a group with that
    joined selector. *)
Theorem combined_selector_overwrites_rule
    (script_debug pretty : bool) (this this1 : WP_Style_Engine_Processor)
    (h h1 : Heap) (k_pre j_pre j : string) (r_pre d_pre : nat) :
  pull_stores (values (stores this)) (this, h) = Some (this1, h1) →
  working_set_wf h1 (css_rules this1) →
  (k_pre, (j_pre, (r_pre, d_pre))) ∈ describe h1 (css_rules this1) →
  ¬ combines (describe h1 (css_rules this1)) j_pre →
  combines (describe h1 (css_rules this1)) j →
  implode "," (group (describe h1 (css_rules this1)) j) = k_pre →
  ∃ css this' h' r_new d_new,
    get_css script_debug (mkOptions (Some true) (Some pretty)) (this, h)
    = Some (css, (this', h'))
    ∧ get (css_rules this') k_pre = Some r_new
    ∧ length (rule_objs h1) ≤ r_new
    ∧ rule_objs h' !! r_new = Some (mkRule k_pre d_new)
    ∧ (r_pre ∉ values (css_rules this'))
    ∧ (∀ k r rule, (k, r) ∈ css_rules this' →
         rule_objs h' !! r = Some rule →
         decl_json h' (declarations rule) ≠ j_pre)
    ∧ (no_nested_collision (describe h1 (css_rules this1)) →
       (k_pre, d_new) ∈ combined (describe h1 (css_rules this1))).
Proof.
  intros Hpull Hws Hpre Hsingle Hcomb Hjoin.
  set (es := describe h1 (css_rules this1)) in *.
  assert (wf es) as Hwf by (by apply describe_wf).
  assert (wf (vmap snd es)) as Hwfrv by (by apply wf_vmap).
  destruct (describe_elem h1 (css_rules this1) Hws _ _ _ _ Hpre)
    as (_ & Hrpre & _ & Hjpre).
  assert (r_pre < length (rule_objs h1)) as Hlt by (by eapply lookup_lt_Some).
  pose proof (describe_json h1 (css_rules this1) Hws) as Hsj. fold es in Hsj.
  (* the pass on entries *)
  destruct (overwrite_inv_run (decl_json h1) (vmap fst es) k_pre j_pre j
              (group es j) r_pre (length (rule_objs h1)))
    with (todo := vmap fst es) (sj := vmap fst es) (rv := vmap snd es)
         (objs := rule_objs h1)
    as (rv' & objs' & Hrun & Hwf' & r_new & d_new & Hget & Hge & Hjson).
  { apply elem_vmap. by exists (j_pre, (r_pre, d_pre)). }
  { rewrite array_keys_vmap_json. fold (group es j_pre).
    unfold combines in Hsingle. lia. }
  { exact Hcomb. }
  { exact Hjoin. }
  { exact Hlt. }
  { split_and!.
    - rewrite <-Hsj. by apply combine_inv_init.
    - done.
    - intros k r d ([j' e] & Heq & Hin)%elem_vmap Hj. cbn in Heq. subst e.
      pose proof (describe_elem h1 (css_rules this1) Hws _ _ _ _ Hin)
        as (_ & _ & _ & Hjd).
      assert (j' = j_pre) as -> by congruence.
      destruct (decide (k = k_pre)) as [->|Hne].
      + assert ((j_pre, (r, d)) = (j_pre, (r_pre, d_pre))) as [= -> ->]
          by (by eapply wf_functional).
        done.
      + destruct Hsingle. unfold combines.
        apply (length_two_distinct _ k k_pre); [| |done].
        * by apply (elem_group_json es Hwf (k, (j_pre, (r, d)))).
        * by apply (elem_group_json es Hwf (k_pre, (j_pre, (r_pre, d_pre)))).
    - left. split; [|apply array_keys_vmap_json].
      destruct (combines_leader es j Hwf Hcomb) as (g & r & d & Hin & _).
      exists g. apply elem_vmap. by exists (j, (r, d)). }
  assert (entries_ok h1 objs' rv') as Hok.
  { eapply (combine_entries_ok h1 _ _ (vmap snd es)); [|exact Hrun].
    by apply describe_entries_ok. }
  set (this' := mkProcessor (stores this1) (vmap fst rv')).
  set (h' := mkHeap (decl_objs h1) objs' (store_objs h1)).
  assert (combine_rules_selectors (this1, h1) = Some (this', h')) as Hpass.
  { rewrite (combine_rules_selectors_entries this1 h1 (vmap snd es)).
    - rewrite Hsj, Hrun. done.
    - symmetry. by apply describe_fst_snd.
    - done.
    - by apply describe_entries_ok. }
  assert (working_set_wf h' (css_rules this')) as Hws'.
  { by apply (entries_working_set h' rv'). }
  destruct (build_css_total pretty h' (css_rules this') Hws') as [css Hcss].
  exists css, this', h', r_new, d_new. split_and!.
  - unfold get_css. cbn [fst optimize prettify default]. rewrite Hpull.
    cbn [mbind option_bind id]. rewrite Hpass.
    cbn [mbind option_bind fst snd]. by rewrite Hcss.
  - cbn [css_rules this']. by rewrite get_vmap, Hget.
  - done.
  - cbn [rule_objs h']. apply (Hok k_pre r_new d_new). by apply get_Some_elem.
  - cbn [css_rules this']. rewrite values_vmap.
    intros ([r d] & Hr & Hin)%list_elem_of_fmap. cbn in Hr. subst r.
    unfold values in Hin. apply list_elem_of_fmap in Hin as ([k e] & He & Hin).
    cbn in He. subst e.
    destruct (Hok k r_pre d Hin) as [Hlook _].
    apply (Hjson k r_pre d Hin). unfold decl_json.
    (* the rule object [r_pre] is old, so [d] is [d_pre] *)
    assert (objs' !! r_pre = Some (mkRule k_pre d_pre)) as Hold.
    { destruct (combine_entries_ok h1 _ _ (vmap snd es) _ rv' objs'
                  (describe_entries_ok h1 (css_rules this1) Hws) Hrun)
        as [_ [l ->]].
      by rewrite lookup_app_l. }
    rewrite Hold in Hlook. injection Hlook as <- <-. exact (eq_sym Hjpre).
  - intros k r rule (e & -> & Hin)%elem_vmap Hrule. destruct e as [r d].
    destruct (Hok k r d Hin) as [Hr _]. cbn [fst rule_objs h'] in Hrule.
    rewrite Hr in Hrule. injection Hrule as <-. cbn [declarations].
    change (decl_json h' d) with (decl_json h1 d). by eapply Hjson.
  - intros Hnc.
    rewrite combine_entries_closed in Hrun by done.
    injection Hrun as Hrv _. rewrite <-Hrv in Hget.
    destruct (combines_leader es j Hwf Hcomb) as (g & r & d & Hin & Hhead).
    destruct (get_assign_all_elem (vmap snd (untouched es))
                (numbered (length (rule_objs h1)) (combined es)) k_pre)
      as ([r2 d2] & Hget2 & Hin2).
    { rewrite keys_numbered. apply elem_keys. exists d.
      apply elem_combined. exists g, j, r. by rewrite Hjoin. }
    rewrite Hget in Hget2. injection Hget2 as <- <-.
    by apply elem_numbered in Hin2 as (_ & ? & _).
Qed.

Lemma collision_working_set_wf :
  working_set_wf collision_heap (css_rules collision_processor).
Proof.
  split; [apply (bool_decide_unpack _); by vm_compute|].
  intros k r Hin. cbn in Hin.
  repeat (apply elem_of_cons in Hin as [[= -> ->]|Hin]);
    [eexists; split; [reflexivity|by eexists]..|].
  by apply elem_of_nil in Hin.
Qed.

Lemma combined_selector_overwrites_rule_witness :
  ∃ css this' h' r_new d_new,
    get_css false (mkOptions (Some true) (Some false))
      (collision_processor, collision_heap)
    = Some (css, (this', h'))
    ∧ get (css_rules this') ".a,.b" = Some r_new
    ∧ length (rule_objs collision_heap) ≤ r_new
    ∧ rule_objs h' !! r_new = Some (mkRule ".a,.b" d_new)
    ∧ (2 ∉ values (css_rules this'))
    ∧ (∀ k r rule, (k, r) ∈ css_rules this' →
         rule_objs h' !! r = Some rule →
         decl_json h' (declarations rule) ≠ decl_json collision_heap 2)
    ∧ (no_nested_collision (describe collision_heap
                              (css_rules collision_processor)) →
       (".a,.b", d_new) ∈ combined (describe collision_heap
                                      (css_rules collision_processor))).
Proof.
  apply (combined_selector_overwrites_rule false false collision_processor
           collision_processor collision_heap collision_heap
           ".a,.b" (decl_json collision_heap 2) (decl_json collision_heap 0) 2 2).
  - reflexivity.
  - exact collision_working_set_wf.
  - apply (bool_decide_unpack _). by vm_compute.
  - apply (bool_decide_unpack _). by vm_compute.
  - apply (bool_decide_unpack _). by vm_compute.
  - reflexivity.
Defined.

(** The same on the example: the output has the single rule [.a,.b] with
    [color: red]; [color: blue] is gone. *)
Lemma collision_example :
  get_css false (mkOptions (Some true) (Some false))
    (collision_processor, collision_heap)
  = Some (".a,.b{color: red;}",
          (mkProcessor [] [(".a,.b", 3)],
           mkHeap (decl_objs collision_heap)
             (rule_objs collision_heap ++ [mkRule ".a,.b" 0]) [])).
Proof. reflexivity. Qed.


(** C10, as worded, fails where the rule under the joined selector shares
    the JSON text of its declarations with another rule.  With [.a,.b] and
    [.c] blue and [.a] and [.b] red, the rules [.a] and [.b] form a group of
    two whose joined selector is the selector of the rule [.a,.b], which is
    all that C10 asks.  That rule is combined itself, with
    [.c], before the group is visited, so the group's combined rule replaces
    nothing, and the declarations of the rule that was there stay in the
    output, under [.a,.b,.c]. *)
Lemma collision_with_shared_declarations :
  ∃ css this' h',
    (".a,.b", 0) ∈ css_rules shared_collision_processor
    ∧ combines (describe shared_collision_heap
                  (css_rules shared_collision_processor))
        (decl_json shared_collision_heap 2)
    ∧ implode "," (group (describe shared_collision_heap
                            (css_rules shared_collision_processor))
                     (decl_json shared_collision_heap 2)) = ".a,.b"
    ∧ get_css false (mkOptions (Some true) (Some false))
        (shared_collision_processor, shared_collision_heap)
      = Some (css, (this', h'))
    ∧ css = ".a,.b,.c{color: blue;}.a,.b{color: red;}"
    ∧ css_rules this' = [(".a,.b,.c", 4); (".a,.b", 5)]
    ∧ rule_objs h' !! 4 = Some (mkRule ".a,.b,.c" 0)
    ∧ decl_objs h' !! 0 = Some [("color", "blue")]
    ∧ decl_json h' 0 = decl_json shared_collision_heap 0.
Proof.
  do 3 eexists. split_and!; [| | |reflexivity..].
  - apply (bool_decide_unpack _). by vm_compute.
  - apply (bool_decide_unpack _). by vm_compute.
  - reflexivity.
Qed.

(** With the same four rules in the order [.a], [.b], [.c], [.a,.b] the
    group's combined rule does replace the rule under [.a,.b], and is then
    removed together with [.c], whose JSON text its key still has in
    [$selectors_json]: the output keeps blue and loses red. *)
Lemma collision_with_shared_declarations_later :
  get_css false (mkOptions (Some true) (Some false))
    (mkProcessor [] [(".a", 0); (".b", 1); (".c", 2); (".a,.b", 3)],
     mkHeap [[("color", "red")]; [("color", "red")]; [("color", "blue")];
             [("color", "blue")]]
            [mkRule ".a" 0; mkRule ".b" 1; mkRule ".c" 2; mkRule ".a,.b" 3] [])
  = Some (".c,.a,.b{color: blue;}",
          (mkProcessor [] [(".c,.a,.b", 5)],
           mkHeap [[("color", "red")]; [("color", "red")]; [("color", "blue")];
                   [("color", "blue")]]
                  [mkRule ".a" 0; mkRule ".b" 1; mkRule ".c" 2; mkRule ".a,.b" 3;
                   mkRule ".a,.b" 0; mkRule ".c,.a,.b" 2] [])).
Proof. reflexivity. Qed.

(** ** Well-formed working sets are what the processor builds *)

Lemma new_processor_working_set_wf h :
  working_set_wf h (css_rules new_processor).
Proof.
  split; [apply NoDup_nil_2|]. intros k r Hin. by apply elem_of_nil in Hin.
Qed.

Lemma working_set_wf_frame h h' rules :
  rule_objs h' = rule_objs h →
  length (decl_objs h') = length (decl_objs h) →
  working_set_wf h rules → working_set_wf h' rules.
Proof.
  intros Hr Hd [Hwf Hall]. split; [done|]. intros k r Hin.
  destruct (Hall k r Hin) as (d & Hrule & Hdecl). exists d. rewrite Hr.
  split; [done|]. apply lookup_lt_is_Some. rewrite Hd.
  by apply lookup_lt_is_Some.
Qed.

(** [add_rules] keeps the working set well formed. *)
Lemma add_rules_loop_working_set_wf rs this h this' h' :
  working_set_wf h (css_rules this) →
  Forall (rule_ok h) rs →
  add_rules_loop rs (this, h) = Some (this', h') →
  working_set_wf h' (css_rules this').
Proof.
  revert this h. induction rs as [|r rs IH]; intros this h Hws Hrs;
    cbn [add_rules_loop].
  - by intros [= <- <-].
  - apply Forall_cons in Hrs as [Hr Hrs].
    destruct (add_rules_step (this, h) r) as [[this1 h1]|] eqn:Hstep; [|done].
    cbn [mbind option_bind]. intros Hrun.
    pose proof (add_rules_step_frame _ _ _ _ _ Hstep)
      as (_ & E2 & _ & E4 & _ & Hwf1).
    eapply IH; [| |exact Hrun].
    + apply add_rules_step_Some in Hstep as (rule & Hrule & Hcase).
      destruct (get (css_rules this) (selector rule)) as [existing|] eqn:Hg.
      * destruct Hcase as (h2 & _ & [= -> ->]).
        by apply (working_set_wf_frame h).
      * injection Hcase as -> ->. destruct Hws as [Hwf Hall].
        split; [by apply Hwf1|]. cbn [css_rules].
        intros k r' [Hin|Hin%list_elem_of_singleton]%elem_of_app; [by apply Hall|].
        injection Hin as -> ->. destruct Hr as (rule' & Hrule' & Hdecl).
        rewrite Hrule in Hrule'. injection Hrule' as <-.
        exists (declarations rule). by destruct rule.
    + eapply Forall_impl; [exact Hrs|]. intros r0. by apply rule_ok_frame.
Qed.

(** * Further properties of the processor *)

(** ** What [get_css] leaves alone *)

Lemma combine_loop_frame todo sj rules h rules' h' :
  combine_loop todo sj rules h = Some (rules', h') →
  decl_objs h' = decl_objs h
  ∧ store_objs h' = store_objs h
  ∧ rule_objs h `prefix_of` rule_objs h'.
Proof.
  revert sj rules h. induction todo as [|[sel json] todo IH];
    intros sj rules h; cbn [combine_loop].
  - by intros [= <- <-].
  - case_decide; [by apply IH|].
    destruct (get rules sel) as [r|]; [|done]. cbn [mbind option_bind].
    destruct (rule_objs h !! r) as [rule|]; [|done].
    cbn [mbind option_bind Rule.new alloc_rule]. intros Hrun.
    apply IH in Hrun as (Hd & Hs & Hp). cbn [decl_objs store_objs rule_objs] in *.
    split_and!; [done..|]. etrans; [|exact Hp]. by apply prefix_app_r.
Qed.

Lemma combine_rules_selectors_frame this h this' h' :
  combine_rules_selectors (this, h) = Some (this', h') →
  stores this' = stores this
  ∧ decl_objs h' = decl_objs h
  ∧ store_objs h' = store_objs h
  ∧ rule_objs h `prefix_of` rule_objs h'.
Proof.
  unfold combine_rules_selectors.
  destruct (selectors_json_loop _ h []) as [sj|]; [|done].
  cbn [mbind option_bind].
  destruct (combine_loop sj sj (css_rules this) h) as [[rules1 h1]|] eqn:Hrun;
    [|done].
  cbn [mbind option_bind]. intros [= <- <-].
  by apply combine_loop_frame in Hrun as (? & ? & ?).
Qed.

Lemma pull_stores_frame ss this h this' h' :
  pull_stores ss (this, h) = Some (this', h') →
  stores this' = stores this
  ∧ rule_objs h' = rule_objs h
  ∧ store_objs h' = store_objs h
  ∧ length (decl_objs h') = length (decl_objs h)
  ∧ keys (css_rules this) `prefix_of` keys (css_rules this').
Proof.
  rewrite pull_stores_all. cbn [snd].
  destruct (all_store_rules ss h) as [rs|]; [|done]. cbn [mbind option_bind].
  intros Hrun. by apply add_rules_loop_frame in Hrun as (? & ? & ? & ? & ? & _).
Qed.

(** X2.  [get_css] never changes which stores are registered, never changes
    a store object, never makes or removes a declarations object and never
    changes or removes a rule object: the rule objects it finds stay as they
    are, new ones come after them.  With [optimize] false it makes no object
    at all, and the selectors that were in the working set stay in front in
    their order. *)
Theorem get_css_frame
    (script_debug : bool) (options : css_options)
    (this this' : WP_Style_Engine_Processor) (h h' : Heap) (css : string) :
  get_css script_debug options (this, h) = Some (css, (this', h')) →
  stores this' = stores this
  ∧ store_objs h' = store_objs h
  ∧ length (decl_objs h') = length (decl_objs h)
  ∧ rule_objs h `prefix_of` rule_objs h'
  ∧ (optimize options = Some false →
     rule_objs h' = rule_objs h
     ∧ keys (css_rules this) `prefix_of` keys (css_rules this')).
Proof.
  unfold get_css. cbn [fst].
  destruct (pull_stores _ (this, h)) as [[this1 h1]|] eqn:Hpull; [|done].
  cbn [mbind option_bind].
  apply pull_stores_frame in Hpull as (Hst1 & Hr1 & Hs1 & Hd1 & Hk1).
  destruct (optimize options) as [[|]|]; cbn [default id].
  - destruct (combine_rules_selectors (this1, h1)) as [[this2 h2]|] eqn:Hc;
      [|done].
    cbn [mbind option_bind fst snd].
    destruct (build_css _ _ h2 _); [|done]. intros [= _ <- <-].
    apply combine_rules_selectors_frame in Hc as (Hst2 & Hd2 & Hs2 & Hp2).
    split_and!; [congruence..| |done]. by rewrite <-Hr1.
  - cbn [mbind option_bind fst snd].
    destruct (build_css _ _ h1 _); [|done]. intros [= _ <- <-].
    split_and!; [done..| |done]. by rewrite Hr1.
  - destruct (combine_rules_selectors (this1, h1)) as [[this2 h2]|] eqn:Hc;
      [|done].
    cbn [mbind option_bind fst snd].
    destruct (build_css _ _ h2 _); [|done]. intros [= _ <- <-].
    apply combine_rules_selectors_frame in Hc as (Hst2 & Hd2 & Hs2 & Hp2).
    split_and!; [congruence..| |done]. by rewrite <-Hr1.
Qed.

Lemma get_css_frame_witness :
  stores (mkProcessor [("block-supports", 0); ("global-styles", 1)]
            [(".wp-1,.wp-2", 2)])
  = [("block-supports", 0); ("global-styles", 1)]
  ∧ store_objs wp_heap = store_objs wp_heap
  ∧ length (decl_objs wp_heap) = length (decl_objs wp_heap)
  ∧ rule_objs wp_heap `prefix_of` rule_objs wp_heap ++ [mkRule ".wp-1,.wp-2" 0]
  ∧ (Some true = Some false →
     rule_objs wp_heap ++ [mkRule ".wp-1,.wp-2" 0] = rule_objs wp_heap
     ∧ keys (@nil (string * nat)) `prefix_of` keys [(".wp-1,.wp-2", 2)]).
Proof.
  apply (get_css_frame false (mkOptions (Some true) (Some false))
           (mkProcessor [("block-supports", 0); ("global-styles", 1)] [])
           (mkProcessor [("block-supports", 0); ("global-styles", 1)]
              [(".wp-1,.wp-2", 2)])
           wp_heap
           (mkHeap (decl_objs wp_heap)
              (rule_objs wp_heap ++ [mkRule ".wp-1,.wp-2" 0])
              (store_objs wp_heap))
           ".wp-1,.wp-2{margin: 0;}").
  reflexivity.
Defined.

(** ** Well-formed processors stay well formed *)

Lemma rule_ok_prefix h h' r :
  rule_objs h `prefix_of` rule_objs h' →
  length (decl_objs h') = length (decl_objs h) →
  rule_ok h r → rule_ok h' r.
Proof.
  intros [l Hl] Hd (rule & Hrule & Hdecl). exists rule. split.
  - rewrite Hl, lookup_app_l; [done|]. by eapply lookup_lt_Some.
  - apply lookup_lt_is_Some. rewrite Hd. by apply lookup_lt_is_Some.
Qed.

Lemma store_ok_frame h h' s :
  rule_objs h `prefix_of` rule_objs h' →
  store_objs h' = store_objs h →
  length (decl_objs h') = length (decl_objs h) →
  store_ok h s → store_ok h' s.
Proof.
  intros Hp Hs Hd (st & Hst & Hall). exists st. rewrite Hs. split; [done|].
  eapply Forall_impl; [exact Hall|]. intros r. by apply rule_ok_prefix.
Qed.

Lemma working_set_rule_ok h rules :
  working_set_wf h rules → Forall (rule_ok h) (values rules).
Proof.
  intros [_ Hall]. apply Forall_forall. intros r Hr.
  unfold values in Hr. apply list_elem_of_fmap in Hr as ([k r'] & -> & Hin).
  destruct (Hall k r' Hin) as (d & Hrule & Hd). by exists (mkRule k d).
Qed.

Lemma elem_values_set {V} (a : php_array V) k v x :
  x ∈ values (set a k v) → x = v ∨ x ∈ values a.
Proof.
  unfold values. intros ([k' x'] & -> & Hin)%list_elem_of_fmap.
  apply elem_set_inv in Hin as [[= -> ->]|Hin]; [by left|right].
  apply list_elem_of_fmap. by exists (k', x').
Qed.

(** The first loop of [get_css] on a well-formed processor. *)
Lemma pull_stores_total ss this h :
  working_set_wf h (css_rules this) →
  Forall (store_ok h) ss →
  ∃ this' h',
    pull_stores ss (this, h) = Some (this', h')
    ∧ working_set_wf h' (css_rules this').
Proof.
  revert this h. induction ss as [|s ss IH]; intros this h Hws Hss.
  - by exists this, h.
  - apply Forall_cons in Hss as [(st & Hst & Hrs) Hss].
    cbn [pull_stores snd]. unfold Store.get_all_rules. rewrite Hst.
    cbn [fmap option_fmap option_map mbind option_bind]. unfold add_rules.
    destruct (add_rules_loop_total (values (rules st)) this h
                (working_set_rule_ok _ _ Hws) Hrs)
      as (this1 & h1 & Hrun & _).
    rewrite Hrun. cbn [mbind option_bind].
    pose proof (add_rules_loop_working_set_wf _ _ _ _ _ Hws Hrs Hrun) as Hws1.
    apply add_rules_loop_frame in Hrun as (_ & Hr & Hs & Hd & _).
    apply IH; [done|].
    eapply Forall_impl; [exact Hss|]. intros s'.
    apply store_ok_frame; [by rewrite Hr|done..].
Qed.

(** X1.  Well-formedness of the processor (one working-set entry per
    selector, each a rule object with that selector and a declarations
    object; registered stores that hold such rule objects) is an invariant of
    its three public methods, and on a well-formed processor none of them
    stops with an error: in particular the look-up
    [$this->css_rules[ $selector ]] of the combine pass always finds a rule,
    also when combined selectors collide with selectors of the working
    set. *)
Theorem processor_wf_invariant :
  (∀ h, processor_wf new_processor h)
  ∧ (∀ s this h,
       processor_wf this h → store_ok h s →
       ∃ this', add_store s (this, h) = Some (this', h) ∧ processor_wf this' h)
  ∧ (∀ arg this h,
       processor_wf this h → Forall (rule_ok h) (rules_of_arg arg) →
       ∃ this' h',
         add_rules arg (this, h) = Some (this', h') ∧ processor_wf this' h')
  ∧ (∀ script_debug options this h,
       processor_wf this h →
       ∃ css this' h',
         get_css script_debug options (this, h) = Some (css, (this', h'))
         ∧ processor_wf this' h').
Proof.
  split_and!.
  - intros h. split; [apply new_processor_working_set_wf|apply Forall_nil_2].
  - intros s this h [Hws Hss] Hs. pose proof Hs as (st & Hst & _).
    unfold add_store, Store.get_name. rewrite Hst.
    cbn [fmap option_fmap option_map mbind option_bind].
    eexists. split; [done|]. split; [done|]. cbn [stores].
    apply Forall_forall. intros x [->|Hx]%elem_values_set; [done|].
    by eapply Forall_forall in Hss.
  - intros arg this h [Hws Hss] Harg.
    destruct (add_rules_loop_total (rules_of_arg arg) this h
                (working_set_rule_ok _ _ Hws) Harg)
      as (this' & h' & Hrun & _).
    exists this', h'. split; [by destruct arg|]. split.
    + by eapply add_rules_loop_working_set_wf.
    + apply add_rules_loop_frame in Hrun as (-> & Hr & Hs & Hd & _).
      eapply Forall_impl; [exact Hss|]. intros s'.
      apply store_ok_frame; [by rewrite Hr|done..].
  - intros script_debug options this h [Hws Hss].
    destruct (pull_stores_total _ this h Hws Hss) as (this1 & h1 & Hpull & Hws1).
    pose proof (pull_stores_frame _ _ _ _ _ Hpull) as (Hst1 & Hr1 & Hs1 & Hd1 & _).
    assert (Forall (store_ok h1) (values (stores this1))) as Hss1.
    { rewrite Hst1. eapply Forall_impl; [exact Hss|]. intros s'.
      apply store_ok_frame; [by rewrite Hr1|done..]. }
    unfold get_css. cbn [fst]. rewrite Hpull. cbn [mbind option_bind].
    destruct (default true (optimize options)).
    + destruct (combine_rules_selectors_twice this1 h1 Hws1)
        as (this2 & h2 & Hrun & _ & Hws2 & Hst2 & Hd2 & Hs2).
      rewrite Hrun. cbn [mbind option_bind fst snd].
      destruct (build_css_total (default script_debug (prettify options))
                  h2 (css_rules this2) Hws2) as [css Hcss].
      rewrite Hcss. exists css, this2, h2. split; [done|]. split; [done|].
      apply combine_rules_selectors_frame in Hrun as (_ & _ & _ & Hp).
      rewrite Hst2. eapply Forall_impl; [exact Hss1|]. intros s'.
      apply store_ok_frame; [done..|by rewrite Hd2].
    + cbn [mbind option_bind fst snd].
      destruct (build_css_total (default script_debug (prettify options))
                  h1 (css_rules this1) Hws1) as [css Hcss].
      rewrite Hcss. by exists css, this1, h1.
Qed.

Lemma wp_processor_wf :
  processor_wf (mkProcessor [("block-supports", 0); ("global-styles", 1)] [])
    wp_heap.
Proof.
  split; [apply new_processor_working_set_wf|].
  repeat apply Forall_cons_2; [| |apply Forall_nil_2].
  - eexists. split; [reflexivity|]. apply Forall_singleton.
    eexists. split; [reflexivity|]. by eexists.
  - eexists. split; [reflexivity|]. apply Forall_singleton.
    eexists. split; [reflexivity|]. by eexists.
Qed.

Lemma processor_wf_invariant_witness :
  ∃ css this' h',
    get_css false (mkOptions (Some true) (Some false))
      (mkProcessor [("block-supports", 0); ("global-styles", 1)] [], wp_heap)
    = Some (css, (this', h'))
    ∧ processor_wf this' h'.
Proof.
  apply (proj2 (proj2 (proj2 processor_wf_invariant))).
  exact wp_processor_wf.
Defined.

(** ** After the combine pass *)

Lemma combine_rules_selectors_distinct this h :
  working_set_wf h (css_rules this) →
  ∃ this' h',
    combine_rules_selectors (this, h) = Some (this', h')
    ∧ working_set_wf h' (css_rules this')
    ∧ distinct_declarations h' (css_rules this').
Proof.
  intros Hws.
  destruct (working_set_entries _ _ Hws) as (rv & Hrules & Hwf & Hok).
  destruct (combine_entries_distinct (decl_json h) _ _ _ _ (rule_objs h)
              (combine_inv_init (decl_json h) rv Hwf))
    as (rv' & objs' & Hrun & Hwf' & Hinj).
  set (h1 := mkHeap (decl_objs h) objs' (store_objs h)).
  exists (mkProcessor (stores this) (vmap fst rv')), h1.
  assert (entries_ok h1 (rule_objs h1) rv') as Hok'.
  { by apply (combine_entries_ok h _ _ _ _ _ _ Hok Hrun). }
  split_and!.
  - rewrite (combine_rules_selectors_entries this h rv) by done.
    by rewrite Hrun.
  - by apply entries_working_set.
  - intros k1 k2 r1 r2 rule1 rule2 (e1 & -> & H1)%elem_vmap
      (e2 & -> & H2)%elem_vmap Hr1 Hr2 Hj.
    destruct e1 as [r1 d1], e2 as [r2 d2]. cbn [fst] in *.
    destruct (Hok' k1 r1 d1 H1) as [Hl1 _].
    destruct (Hok' k2 r2 d2 H2) as [Hl2 _].
    rewrite Hl1 in Hr1. rewrite Hl2 in Hr2.
    injection Hr1 as <-. injection Hr2 as <-. cbn [declarations] in Hj.
    by apply (Hinj k1 k2 (r1, d1) (r2, d2)).
Qed.

(** X3.  After [get_css] with [optimize] true (given or by default) on a
    well-formed processor, no two rules of the working set have declarations
    with the same JSON text, whatever the stores held and also when combined
    selectors collided with selectors of the working set. *)
Theorem get_css_leaves_distinct_declarations
    (script_debug : bool) (options : css_options)
    (this : WP_Style_Engine_Processor) (h : Heap) :
  processor_wf this h →
  optimize options = Some true ∨ optimize options = None →
  ∃ css this' h',
    get_css script_debug options (this, h) = Some (css, (this', h'))
    ∧ distinct_declarations h' (css_rules this').
Proof.
  intros [Hws Hss] Hopt.
  destruct (pull_stores_total _ this h Hws Hss) as (this1 & h1 & Hpull & Hws1).
  destruct (combine_rules_selectors_distinct this1 h1 Hws1)
    as (this2 & h2 & Hrun & Hws2 & Hdist).
  destruct (build_css_total (default script_debug (prettify options))
              h2 (css_rules this2) Hws2) as [css Hcss].
  exists css, this2, h2. split; [|done].
  unfold get_css. cbn [fst]. rewrite Hpull. cbn [mbind option_bind].
  assert (default true (optimize options) = true) as ->
    by (by destruct Hopt as [-> | ->]).
  rewrite Hrun. cbn [mbind option_bind fst snd]. by rewrite Hcss.
Qed.

Lemma get_css_leaves_distinct_declarations_witness :
  ∃ css this' h',
    get_css false (mkOptions (Some true) (Some false))
      (mkProcessor [("block-supports", 0); ("global-styles", 1)] [], wp_heap)
    = Some (css, (this', h'))
    ∧ distinct_declarations h' (css_rules this').
Proof.
  apply (get_css_leaves_distinct_declarations false
           (mkOptions (Some true) (Some false))).
  - exact wp_processor_wf.
  - by left.
Defined.

(** A pass over a working set with pairwise different declarations changes
    nothing. *)
Lemma combine_rules_selectors_noop this h :
  working_set_wf h (css_rules this) →
  distinct_declarations h (css_rules this) →
  combine_rules_selectors (this, h) = Some (this, h).
Proof.
  intros Hws Hdist.
  destruct (working_set_entries _ _ Hws) as (rv & Hrules & Hwf & Hok).
  rewrite (combine_rules_selectors_entries this h rv) by done.
  rewrite combine_entries_skip.
  - cbn [fmap option_fmap option_map fst snd]. rewrite <-Hrules.
    by destruct this, h.
  - intros k j _. apply array_keys_distinct; [done|].
    intros k1 k2 [r1 d1] [r2 d2] H1 H2 Hj.
    destruct (Hok k1 r1 d1 H1) as [Hl1 _].
    destruct (Hok k2 r2 d2 H2) as [Hl2 _].
    apply (Hdist k1 k2 r1 r2 (mkRule k1 d1) (mkRule k2 d2));
      [| |exact Hl1|exact Hl2|exact Hj].
    + rewrite Hrules. apply elem_vmap. by exists (r1, d1).
    + rewrite Hrules. apply elem_vmap. by exists (r2, d2).
Qed.

(** X4.  Where, once the stores' rules are pulled in, no two rules of the
    well-formed working set have declarations with the same JSON text, there
    is nothing to combine: [get_css] with [optimize] true returns the same
    text and leaves the same state as with [optimize] false. *)
Theorem optimize_without_duplicates_changes_nothing
    (script_debug : bool) (pretty : option bool)
    (this this1 : WP_Style_Engine_Processor) (h h1 : Heap) :
  pull_stores (values (stores this)) (this, h) = Some (this1, h1) →
  working_set_wf h1 (css_rules this1) →
  distinct_declarations h1 (css_rules this1) →
  get_css script_debug (mkOptions (Some true) pretty) (this, h) =
  get_css script_debug (mkOptions (Some false) pretty) (this, h).
Proof.
  intros Hpull Hws Hdist. unfold get_css. cbn [fst optimize default id].
  rewrite Hpull. cbn [mbind option_bind].
  by rewrite combine_rules_selectors_noop.
Qed.

Lemma abc_distinct_declarations_example :
  distinct_declarations abcd_heap [(".b", 1); (".c", 2); (".d", 3)].
Proof.
  intros k1 k2 r1 r2 rule1 rule2 H1 H2 Hr1 Hr2 Hj.
  repeat (apply elem_of_cons in H1 as [[= -> ->]|H1]);
    try (by apply elem_of_nil in H1);
    repeat (apply elem_of_cons in H2 as [[= -> ->]|H2]);
    try (by apply elem_of_nil in H2);
    try done;
    cbn in Hr1, Hr2; injection Hr1 as <-; injection Hr2 as <-;
    vm_compute in Hj; discriminate.
Qed.

Lemma optimize_without_duplicates_changes_nothing_witness :
  get_css false (mkOptions (Some true) (Some false))
    (mkProcessor [] [(".b", 1); (".c", 2); (".d", 3)], abcd_heap) =
  get_css false (mkOptions (Some false) (Some false))
    (mkProcessor [] [(".b", 1); (".c", 2); (".d", 3)], abcd_heap).
Proof.
  apply (optimize_without_duplicates_changes_nothing false (Some false)
           (mkProcessor [] [(".b", 1); (".c", 2); (".d", 3)])
           (mkProcessor [] [(".b", 1); (".c", 2); (".d", 3)])
           abcd_heap abcd_heap).
  - reflexivity.
  - split; [apply (bool_decide_unpack _); by vm_compute|].
    intros k r Hin. cbn in Hin.
    repeat (apply elem_of_cons in Hin as [[= -> ->]|Hin]);
      [eexists; split; [reflexivity|by eexists]..|].
    by apply elem_of_nil in Hin.
  - exact abc_distinct_declarations_example.
Defined.

(** ** What the combine pass keeps *)

(** Without collisions the assignments of the combined rules append. *)
Lemma combine_rules_selectors_appended this h :
  working_set_wf h (css_rules this) →
  no_collision (describe h (css_rules this)) →
  combine_rules_selectors (this, h) =
  Some (mkProcessor (stores this)
          (vmap (λ e, e.2.1) (untouched (describe h (css_rules this)))
             ++ vmap fst (numbered (length (rule_objs h))
                            (combined (describe h (css_rules this))))),
        mkHeap (decl_objs h)
          (rule_objs h
             ++ ((λ c, mkRule c.1 c.2) <$> combined (describe h (css_rules this))))
          (store_objs h)).
Proof.
  intros Hws Hnc. set (es := describe h (css_rules this)) in *.
  assert (wf es) as Hwf by (by apply describe_wf).
  pose proof Hnc as [Hfresh Hnd]. rewrite Forall_forall in Hfresh.
  rewrite combine_rules_selectors_closed by (by try apply no_collision_nested).
  fold es. do 3 f_equal. rewrite assign_all_fresh.
  - unfold vmap at 1. rewrite fmap_app. f_equal. apply vmap_vmap.
  - rewrite keys_vmap, keys_numbered. apply NoDup_app. split_and!; [|..|done].
    + by apply (wf_filter _ es).
    + intros k (v & Hin)%elem_keys Hk. apply (Hfresh k Hk).
      apply list_elem_of_filter in Hin as [_ Hin]. apply elem_keys. eauto.
  - unfold wf. by rewrite keys_numbered.
Qed.

Lemma numbered_elem n0 (l : php_array decl_ref) K d :
  (K, d) ∈ l →
  ∃ i, (K, (n0 + i, d)) ∈ numbered n0 l ∧ l !! i = Some (K, d).
Proof.
  intros [i Hi]%list_elem_of_lookup_1. exists i. split; [|done].
  apply list_elem_of_lookup. exists i. unfold numbered.
  rewrite list_lookup_imap, Hi. done.
Qed.

Lemma describe_of_elem h rules k r d :
  (k, r) ∈ rules → rule_objs h !! r = Some (mkRule k d) →
  (k, (decl_json h d, (r, d))) ∈ describe h rules.
Proof.
  intros Hin Hr. unfold describe. apply elem_vmap. exists r.
  split; [|done]. by rewrite Hr.
Qed.

(** X5.  Where no combined selector collides, the combine pass keeps the
    declarations of every selector and invents none.  Every rule of the
    working set before the pass has its selector among the selectors [ks]
    joined with commas into the selector of a rule after the pass, whose
    declarations have the same JSON text, and every selector of [ks] belonged
    to a rule with that JSON text.  Every rule after the pass carries the
    declarations object of a rule from before the pass. *)
Theorem combine_pass_keeps_declarations
    (this : WP_Style_Engine_Processor) (h : Heap) :
  working_set_wf h (css_rules this) →
  no_collision (describe h (css_rules this)) →
  ∃ this' h',
    combine_rules_selectors (this, h) = Some (this', h')
    ∧ (∀ k r rule,
         (k, r) ∈ css_rules this → rule_objs h !! r = Some rule →
         ∃ ks r' rule',
           k ∈ ks
           ∧ (implode "," ks, r') ∈ css_rules this'
           ∧ rule_objs h' !! r' = Some rule'
           ∧ decl_json h' (declarations rule') = decl_json h (declarations rule)
           ∧ ∀ k0, k0 ∈ ks →
               ∃ r0 rule0, (k0, r0) ∈ css_rules this
                 ∧ rule_objs h !! r0 = Some rule0
                 ∧ decl_json h (declarations rule0)
                   = decl_json h (declarations rule))
    ∧ (∀ K r' rule',
         (K, r') ∈ css_rules this' → rule_objs h' !! r' = Some rule' →
         ∃ k r rule,
           (k, r) ∈ css_rules this ∧ rule_objs h !! r = Some rule
           ∧ declarations rule' = declarations rule).
Proof.
  intros Hws Hnc. set (es := describe h (css_rules this)) in *.
  assert (wf es) as Hwf by (by apply describe_wf).
  eexists _, _. split; [by apply combine_rules_selectors_appended|].
  fold es. cbn [css_rules rule_objs]. split.
  - intros k r rule Hin Hr.
    destruct Hws as [Hwfr Hall]. destruct (Hall k r Hin) as (d & Hr' & Hd).
    rewrite Hr' in Hr. injection Hr as <-. cbn [declarations].
    pose proof (describe_of_elem h _ k r d Hin Hr') as He. fold es in He.
    set (j := decl_json h d) in *.
    assert (∀ k0, k0 ∈ group es j →
              ∃ r0 rule0, (k0, r0) ∈ css_rules this
                ∧ rule_objs h !! r0 = Some rule0
                ∧ decl_json h (declarations rule0) = j) as Hmembers.
    { intros k0 ([r0 d0] & Hin0)%(elem_group_inv es).
      apply (describe_elem h _ (conj Hwfr Hall)) in Hin0 as (Hin0 & Hr0 & _ & Hj).
      exists r0, (mkRule k0 d0). by split_and!. }
    destruct (decide (combines es j)) as [Hc|Hc].
    + destruct (combines_leader es j Hwf Hc) as (k0 & r0 & d0 & Hin0 & Hhead).
      assert ((implode "," (group es j), d0) ∈ combined es) as HK.
      { apply elem_combined. by exists k0, j, r0. }
      destruct (numbered_elem (length (rule_objs h)) _ _ _ HK) as (i & Hnum & Hi).
      exists (group es j), (length (rule_objs h) + i),
        (mkRule (implode "," (group es j)) d0).
      split_and!.
      * by apply (elem_group_json es Hwf (k, (j, (r, d))) j He).
      * apply elem_of_app. right. apply elem_vmap.
        by exists (length (rule_objs h) + i, d0).
      * rewrite lookup_app_r by lia.
        replace (length (rule_objs h) + i - length (rule_objs h)) with i by lia.
        by rewrite list_lookup_fmap, Hi.
      * cbn [declarations]. unfold decl_json at 1. cbn [decl_objs].
        apply (describe_elem h _ (conj Hwfr Hall)) in Hin0 as (_ & _ & _ & Hj).
        by rewrite Hj.
      * done.
    + exists [k], r, (mkRule k d). split_and!.
      * left.
      * apply elem_of_app. left. apply elem_vmap.
        exists (j, (r, d)). split; [done|]. by apply list_elem_of_filter.
      * by apply lookup_app_l_Some.
      * done.
      * intros k0 ->%list_elem_of_singleton. by exists r, (mkRule k d).
  - intros K r' rule' [Hin|Hin]%elem_of_app Hr'.
    + apply elem_vmap in Hin as ([j [r d]] & Heq & Hin). cbn in Heq. subst r'.
      apply list_elem_of_filter in Hin as [_ Hin].
      apply (describe_elem h _ Hws) in Hin as (Hin & Hr & _).
      rewrite (lookup_app_l_Some _ _ _ _ Hr) in Hr'. injection Hr' as <-.
      by exists K, r, (mkRule K d).
    + apply elem_vmap in Hin as ([r d] & Heq & Hin). cbn in Heq. subst r'.
      apply elem_numbered in Hin as (Hge & Hin & Hl).
      rewrite lookup_app_r in Hr' by done.
      rewrite list_lookup_fmap, Hl in Hr'. injection Hr' as <-.
      apply elem_combined in Hin as (k & j & r0 & Hin & _).
      apply (describe_elem h _ Hws) in Hin as (Hin & Hr & _).
      by exists k, r0, (mkRule k d).
Qed.

Lemma combine_pass_keeps_declarations_witness :
  ∃ this' h',
    combine_rules_selectors (abcd_processor, abcd_heap) = Some (this', h')
    ∧ (∀ k r rule,
         (k, r) ∈ css_rules abcd_processor →
         rule_objs abcd_heap !! r = Some rule →
         ∃ ks r' rule',
           k ∈ ks
           ∧ (implode "," ks, r') ∈ css_rules this'
           ∧ rule_objs h' !! r' = Some rule'
           ∧ decl_json h' (declarations rule')
             = decl_json abcd_heap (declarations rule)
           ∧ ∀ k0, k0 ∈ ks →
               ∃ r0 rule0, (k0, r0) ∈ css_rules abcd_processor
                 ∧ rule_objs abcd_heap !! r0 = Some rule0
                 ∧ decl_json abcd_heap (declarations rule0)
                   = decl_json abcd_heap (declarations rule))
    ∧ (∀ K r' rule',
         (K, r') ∈ css_rules this' → rule_objs h' !! r' = Some rule' →
         ∃ k r rule,
           (k, r) ∈ css_rules abcd_processor
           ∧ rule_objs abcd_heap !! r = Some rule
           ∧ declarations rule' = declarations rule).
Proof.
  apply (combine_pass_keeps_declarations abcd_processor abcd_heap).
  - exact abcd_working_set_wf.
  - split; apply (bool_decide_unpack _); by vm_compute.
Defined.

(** ** The order of the properties *)

Lemma string_leb_trans (a b c : string) :
  String.leb a b = true → String.leb b c = true → String.leb a c = true.
Proof.
  rewrite <-!Is_true_true. intros Hab Hbc.
  exact (PreOrder_Transitive (R := String.le) a b c Hab Hbc).
Qed.

Lemma string_leb_false (a b : string) :
  String.leb a b = false → String.leb b a = true.
Proof. intros Hab. destruct (String.leb_total a b); congruence. Qed.

(** Two insertions with different keys commute. *)
Lemma ksort_insert_comm {V} (x y : string * V) (l : php_array V) :
  x.1 ≠ y.1 →
  ksort_insert x (ksort_insert y l) = ksort_insert y (ksort_insert x l).
Proof.
  intros Hne. induction l as [|z l IH]; cbn [ksort_insert].
  - destruct (String.leb x.1 y.1) eqn:Hxy, (String.leb y.1 x.1) eqn:Hyx;
      try done.
    + destruct Hne. by apply String.leb_antisym.
    + apply string_leb_false in Hxy. congruence.
  - destruct (String.leb y.1 z.1) eqn:Hyz, (String.leb x.1 z.1) eqn:Hxz;
      cbn [ksort_insert]; rewrite ?Hyz, ?Hxz.
    + destruct (String.leb x.1 y.1) eqn:Hxy, (String.leb y.1 x.1) eqn:Hyx;
        try done.
      * destruct Hne. by apply String.leb_antisym.
      * apply string_leb_false in Hxy. congruence.
    + destruct (String.leb x.1 y.1) eqn:Hxy; [|done].
      rewrite (string_leb_trans _ _ _ Hxy Hyz) in Hxz. done.
    + destruct (String.leb y.1 x.1) eqn:Hyx; [|done].
      rewrite (string_leb_trans _ _ _ Hyx Hxz) in Hyz. done.
    + by rewrite IH.
Qed.

(** [ksort] gives the same array for every order of the same entries. *)
Lemma ksort_Permutation {V} (a1 a2 : php_array V) :
  wf a1 → a1 ≡ₚ a2 → ksort a1 = ksort a2.
Proof.
  intros Hwf Hp. induction Hp as [|x l l' Hp IH|x y l|l l' l'' Hp1 IH1 Hp2 IH2].
  - done.
  - unfold ksort. cbn [foldr]. f_equal. apply IH.
    unfold wf, keys in *. rewrite fmap_cons in Hwf.
    by apply NoDup_cons in Hwf as [_ ?].
  - unfold ksort. cbn [foldr]. apply ksort_insert_comm.
    unfold wf, keys in Hwf. rewrite !fmap_cons in Hwf.
    apply NoDup_cons in Hwf as [Hy _]. intros Heq. apply Hy. rewrite Heq. left.
  - rewrite IH1 by done. apply IH2.
    unfold wf, keys in *. by rewrite <-Hp1.
Qed.

(** X6.  The order in which two rules list their properties does not matter
    to the combine pass, for property names that PHP cannot read as numbers
    (those [ksort] compares byte by byte): two rules of a well-formed working
    set whose declarations hold the same such properties with the same
    values, in any order, get the same JSON text, and, where no combined
    selector collides, the pass removes both selectors from the working set
    and puts both into the selector of one combined rule. *)
Theorem permuted_declarations_are_combined
    (this : WP_Style_Engine_Processor) (h : Heap)
    (k1 k2 : string) (r1 r2 : rule_ref)
    (rule1 rule2 : WP_Style_Engine_CSS_Rule) (a1 a2 : php_array string) :
  working_set_wf h (css_rules this) →
  no_collision (describe h (css_rules this)) →
  (k1, r1) ∈ css_rules this → (k2, r2) ∈ css_rules this → k1 ≠ k2 →
  rule_objs h !! r1 = Some rule1 → rule_objs h !! r2 = Some rule2 →
  decl_objs h !! declarations rule1 = Some a1 →
  decl_objs h !! declarations rule2 = Some a2 →
  wf a1 → plain_keys a1 → a1 ≡ₚ a2 →
  decl_json h (declarations rule1) = decl_json h (declarations rule2)
  ∧ ∃ this' h' ks r',
      combine_rules_selectors (this, h) = Some (this', h')
      ∧ k1 ∈ ks ∧ k2 ∈ ks
      ∧ (implode "," ks, r') ∈ css_rules this'
      ∧ (k1 ∉ keys (css_rules this'))
      ∧ (k2 ∉ keys (css_rules this')).
Proof.
  intros Hws Hnc Hin1 Hin2 Hne Hr1 Hr2 Ha1 Ha2 Hwfa _ Hperm.
  assert (decl_json h (declarations rule1) = decl_json h (declarations rule2))
    as Hjson.
  { unfold decl_json. rewrite Ha1, Ha2.
    change (wp_json_encode (ksort a1) = wp_json_encode (ksort a2)).
    by rewrite (ksort_Permutation a1 a2). }
  split; [done|].
  set (es := describe h (css_rules this)) in *.
  assert (wf es) as Hwf by (by apply describe_wf).
  pose proof Hnc as [Hfresh _]. rewrite Forall_forall in Hfresh.
  destruct Hws as [Hwfr Hall].
  destruct (Hall k1 r1 Hin1) as (d1 & Hr1' & _).
  destruct (Hall k2 r2 Hin2) as (d2 & Hr2' & _).
  rewrite Hr1' in Hr1. injection Hr1 as <-.
  rewrite Hr2' in Hr2. injection Hr2 as <-. cbn [declarations] in *.
  pose proof (describe_of_elem h _ k1 r1 d1 Hin1 Hr1') as He1.
  pose proof (describe_of_elem h _ k2 r2 d2 Hin2 Hr2') as He2.
  fold es in He1, He2. rewrite <-Hjson in He2.
  set (j := decl_json h d1) in *.
  assert (k1 ∈ group es j) as Hg1
    by (by apply (elem_group_json es Hwf (k1, (j, (r1, d1))) j He1)).
  assert (k2 ∈ group es j) as Hg2
    by (by apply (elem_group_json es Hwf (k2, (j, (r2, d2))) j He2)).
  assert (combines es j) as Hc by (by apply (length_two_distinct _ k1 k2)).
  destruct (combines_leader es j Hwf Hc) as (k0 & r0 & d0 & Hin0 & Hhead).
  assert ((implode "," (group es j), d0) ∈ combined es) as HK.
  { apply elem_combined. by exists k0, j, r0. }
  destruct (numbered_elem (length (rule_objs h)) _ _ _ HK) as (i & Hnum & Hi).
  eexists _, _, (group es j), (length (rule_objs h) + i).
  split; [by apply combine_rules_selectors_appended|].
  fold es. cbn [css_rules].
  assert (∀ k v, (k, (j, v)) ∈ es →
            k ∉ keys (vmap (λ e, e.2.1) (untouched es)
                        ++ vmap fst (numbered (length (rule_objs h))
                                       (combined es)))) as Hgone.
  { intros k v Hk.
    replace (keys (vmap (λ e, e.2.1) (untouched es)
                     ++ vmap fst (numbered (length (rule_objs h)) (combined es))))
      with (keys (untouched es) ++ keys (combined es))
      by (rewrite <-(keys_vmap (λ e, e.2.1) (untouched es)),
            <-(keys_numbered (length (rule_objs h)) (combined es)),
            <-(keys_vmap fst (numbered _ _));
          unfold keys; by rewrite fmap_app).
    intros [Hu|Hcm]%elem_of_app.
    - apply elem_keys in Hu as (v' & Hu).
      apply list_elem_of_filter in Hu as [Hn Hu].
      rewrite <-(wf_functional es k (j, v) v' Hwf Hk Hu) in Hn. by apply Hn.
    - apply (Hfresh k Hcm). apply elem_keys. eauto. }
  split_and!; [done|done| |by eapply Hgone|by eapply Hgone].
  apply elem_of_app. right. apply elem_vmap.
  by exists (length (rule_objs h) + i, d0).
Qed.

Lemma permuted_working_set_wf :
  working_set_wf permuted_heap (css_rules permuted_processor).
Proof.
  split; [apply (bool_decide_unpack _); by vm_compute|].
  intros k r Hin. cbn in Hin.
  repeat (apply elem_of_cons in Hin as [[= -> ->]|Hin]);
    [eexists; split; [reflexivity|by eexists]..|].
  by apply elem_of_nil in Hin.
Qed.

Lemma permuted_declarations_are_combined_witness :
  decl_json permuted_heap 0 = decl_json permuted_heap 1
  ∧ ∃ this' h' ks r',
      combine_rules_selectors (permuted_processor, permuted_heap)
      = Some (this', h')
      ∧ ".a" ∈ ks ∧ ".b" ∈ ks
      ∧ (implode "," ks, r') ∈ css_rules this'
      ∧ (".a" ∉ keys (css_rules this'))
      ∧ (".b" ∉ keys (css_rules this')).
Proof.
  apply (permuted_declarations_are_combined permuted_processor permuted_heap
           ".a" ".b" 0 1 (mkRule ".a" 0) (mkRule ".b" 1)
           [("color", "red"); ("margin", "0")]
           [("margin", "0"); ("color", "red")]).
  - exact permuted_working_set_wf.
  - split; apply (bool_decide_unpack _); by vm_compute.
  - apply (bool_decide_unpack _); by vm_compute.
  - apply (bool_decide_unpack _); by vm_compute.
  - done.
  - reflexivity.
  - reflexivity.
  - reflexivity.
  - reflexivity.
  - apply (bool_decide_unpack _); by vm_compute.
  - apply (bool_decide_unpack _); by vm_compute.
  - apply perm_swap.
Defined.

(** ** Repeated calls without the combine pass *)

Lemma array_ext {V} (a b : php_array V) :
  wf a → wf b → keys a = keys b → (∀ k, get a k = get b k) → a = b.
Proof.
  revert b. induction a as [|[k v] a IH]; intros [|[k' v'] b] Ha Hb Hk Hg;
    try done.
  unfold wf, keys in Ha, Hb, Hk. rewrite !fmap_cons in *. cbn [fst] in *.
  injection Hk as <- Hk.
  apply NoDup_cons in Ha as [Hka Ha]. apply NoDup_cons in Hb as [Hkb Hb].
  pose proof (Hg k) as Hgk. cbn [get] in Hgk. rewrite !decide_True in Hgk by done.
  injection Hgk as <-. f_equal. apply IH; try done.
  intros k0. destruct (decide (k0 = k)) as [->|Hne].
  - transitivity (@None V); [by apply get_None|symmetry; by apply get_None].
  - pose proof (Hg k0) as Hg0. cbn [get] in Hg0.
    by rewrite !decide_False in Hg0 by done.
Qed.

Lemma add_declarations_keys_sub (mine other : php_array string) :
  (∀ k, k ∈ keys other → k ∈ keys mine) →
  keys (Declarations.add_declarations mine other) = keys mine.
Proof.
  revert mine. induction other as [|[k v] other IH]; intros mine Hsub; [done|].
  rewrite add_declarations_cons.
  assert (keys (set mine k v) = keys mine) as Hk.
  { apply keys_set_elem, Hsub. left. }
  rewrite IH, Hk; [done|]. intros k0 Hk0. rewrite Hk. apply Hsub. by right.
Qed.

Lemma add_declarations_keys_elem (mine other : php_array string) k :
  k ∈ keys mine ∨ k ∈ keys other →
  k ∈ keys (Declarations.add_declarations mine other).
Proof.
  revert mine. induction other as [|[k' v] other IH]; intros mine [Hk|Hk].
  - done.
  - by apply elem_of_nil in Hk.
  - rewrite add_declarations_cons. apply IH. left.
    eapply elem_of_prefix; [exact Hk|apply keys_set_prefix].
  - rewrite add_declarations_cons. apply IH.
    apply elem_of_cons in Hk as [->|Hk]; [left|by right].
    apply get_is_Some. rewrite get_set_eq. by eexists.
Qed.

(** Merging a declaration set into itself changes nothing. *)
Lemma add_declarations_self (d : php_array string) :
  wf d → Declarations.add_declarations d d = d.
Proof.
  intros Hwf. apply array_ext; [by apply add_declarations_wf|done|..].
  - by apply add_declarations_keys_sub.
  - intros k. rewrite add_declarations_get by done. by destruct (get d k).
Qed.

Lemma merge_all_wf mine others : wf mine → wf (merge_all mine others).
Proof.
  revert mine. induction others as [|c cs IH]; intros mine Hwf; [done|].
  apply IH. by apply add_declarations_wf.
Qed.

Lemma merge_all_keys_elem mine others k :
  k ∈ keys mine ∨ (∃ c, c ∈ others ∧ k ∈ keys c) →
  k ∈ keys (merge_all mine others).
Proof.
  revert mine. induction others as [|c cs IH]; intros mine Hk.
  - destruct Hk as [Hk|(c & Hc & _)]; [done|by apply elem_of_nil in Hc].
  - cbn [merge_all foldl]. apply IH.
    destruct Hk as [Hk|(c' & [->|Hc]%elem_of_cons & Hk)].
    + left. apply add_declarations_keys_elem. by left.
    + left. apply add_declarations_keys_elem. by right.
    + right. by exists c'.
Qed.

Lemma merge_all_keys_sub mine others :
  (∀ c k, c ∈ others → k ∈ keys c → k ∈ keys mine) →
  keys (merge_all mine others) = keys mine.
Proof.
  revert mine. induction others as [|c cs IH]; intros mine Hsub; [done|].
  cbn [merge_all foldl].
  assert (keys (Declarations.add_declarations mine c) = keys mine) as Hk.
  { apply add_declarations_keys_sub. intros k. apply Hsub. left. }
  unfold merge_all in IH. rewrite IH, Hk; [done|].
  intros c' k Hc' Hk'. rewrite Hk. eapply Hsub; [|done]. by right.
Qed.

Lemma get_merge_all mine others p :
  Forall wf others →
  get (merge_all mine others) p = override p (get mine p) others.
Proof.
  revert mine. induction others as [|c cs IH]; intros mine Hwf; [done|].
  apply Forall_cons in Hwf as [Hc Hcs].
  cbn [merge_all override foldl]. unfold merge_all, override in IH.
  by rewrite IH, add_declarations_get.
Qed.

Lemma override_acc p acc others :
  override p acc others =
  match override p None others with Some v => Some v | None => acc end.
Proof.
  revert acc. induction others as [|c cs IH]; intros acc; [done|].
  cbn [override foldl]. unfold override in IH.
  rewrite (IH (match get c p with Some v => Some v | None => acc end)).
  rewrite (IH (match get c p with Some v => Some v | None => None end)).
  destruct (foldl _ None cs); [done|]. by destruct (get c p).
Qed.

(** Merging the same sets a second time changes nothing. *)
Lemma merge_all_twice mine others :
  wf mine → Forall wf others →
  merge_all (merge_all mine others) others = merge_all mine others.
Proof.
  intros Hm Ho. apply array_ext.
  - by do 2 apply merge_all_wf.
  - by apply merge_all_wf.
  - apply merge_all_keys_sub. intros c k Hc Hk.
    apply merge_all_keys_elem. right. by exists c.
  - intros p. rewrite !get_merge_all by done.
    rewrite (override_acc p (override _ _ _)), (override_acc p (get mine p)).
    by destruct (override p None others).
Qed.

(** One step of [add_rules]: a rule with a new selector goes to the end of
    the working set, any other is merged into the rule under its selector. *)
Lemma add_rules_step_cases this h r this' h' :
  add_rules_step (this, h) r = Some (this', h') →
  ∃ rule, rule_objs h !! r = Some rule
    ∧ ((get (css_rules this) (selector rule) = None
        ∧ this' = mkProcessor (stores this)
                    (css_rules this ++ [(selector rule, r)])
        ∧ h' = h)
       ∨ (∃ e erule mine other,
            get (css_rules this) (selector rule) = Some e
            ∧ rule_objs h !! e = Some erule
            ∧ decl_objs h !! declarations erule = Some mine
            ∧ decl_objs h !! declarations rule = Some other
            ∧ this' = this
            ∧ h' = set_decl_objs h
                     (<[declarations erule :=
                          Declarations.add_declarations mine other]>
                        (decl_objs h)))).
Proof.
  intros (rule & Hr & Hcase)%add_rules_step_Some. exists rule. split; [done|].
  destruct (get (css_rules this) (selector rule)) as [e|] eqn:Hg.
  - right. destruct Hcase as (h1 & Hadd & [= -> ->]).
    apply rule_add_declarations_Some in Hadd
      as (erule & mine & other & He & Hm & Ho & ->).
    by exists e, erule, mine, other.
  - left. by injection Hcase as -> ->.
Qed.

Lemma get_app_l {V} (a b : php_array V) k v :
  get a k = Some v → get (a ++ b) k = Some v.
Proof.
  induction a as [|[k' v'] a IH]; csimpl; [done|]. by case_decide.
Qed.

Lemma get_app_r {V} (a b : php_array V) k :
  get a k = None → get (a ++ b) k = get b k.
Proof.
  induction a as [|[k' v'] a IH]; csimpl; [done|]. by case_decide.
Qed.

(** [add_rules] never replaces an entry of the working set. *)
Lemma add_rules_loop_get_stable rs this h this' h' k e :
  add_rules_loop rs (this, h) = Some (this', h') →
  get (css_rules this) k = Some e → get (css_rules this') k = Some e.
Proof.
  revert this h. induction rs as [|r rs IH]; intros this h; cbn [add_rules_loop].
  - by intros [= <- <-].
  - destruct (add_rules_step (this, h) r) as [[this1 h1]|] eqn:Hstep; [|done].
    cbn [mbind option_bind]. intros Hrun Hg. apply (IH _ _ Hrun).
    apply add_rules_step_cases in Hstep
      as (rule & Hr & [(_ & -> & _)|(? & ? & ? & ? & _ & _ & _ & _ & -> & _)]);
      [|done].
    by apply get_app_l.
Qed.

(** After [add_rules] the selector of every rule fed to it is in the working
    set. *)
Lemma add_rules_loop_selectors rs this h this' h' r rule :
  add_rules_loop rs (this, h) = Some (this', h') →
  r ∈ rs → rule_objs h !! r = Some rule →
  selector rule ∈ keys (css_rules this').
Proof.
  revert this h. induction rs as [|r0 rs IH]; intros this h; cbn [add_rules_loop].
  - intros _ Hin. by apply elem_of_nil in Hin.
  - destruct (add_rules_step (this, h) r0) as [[this1 h1]|] eqn:Hstep; [|done].
    cbn [mbind option_bind]. intros Hrun Hin Hr.
    pose proof (add_rules_step_frame _ _ _ _ _ Hstep) as (_ & ER & _).
    apply elem_of_cons in Hin as [->|Hin].
    + pose proof (add_rules_loop_frame _ _ _ _ _ Hrun) as (_ & _ & _ & _ & Hp & _).
      eapply elem_of_prefix; [|exact Hp].
      apply add_rules_step_cases in Hstep
        as (rule' & Hr' & [(_ & -> & _)|(e & ? & ? & ? & Hg & _ & _ & _ & -> & _)]);
        rewrite Hr in Hr'; injection Hr' as <-.
      * cbn [css_rules]. unfold keys. rewrite fmap_app.
        apply elem_of_app. right. left.
      * apply get_is_Some. by eexists.
    + apply (IH _ _ Hrun Hin). by rewrite ER.
Qed.

(** The rules of the working set after [add_rules] are rules that were there
    or rules fed to it. *)
Lemma add_rules_loop_values rs this h this' h' e :
  add_rules_loop rs (this, h) = Some (this', h') →
  e ∈ values (css_rules this') → e ∈ values (css_rules this) ∨ e ∈ rs.
Proof.
  revert this h. induction rs as [|r rs IH]; intros this h; cbn [add_rules_loop].
  - intros [= <- <-]. by left.
  - destruct (add_rules_step (this, h) r) as [[this1 h1]|] eqn:Hstep; [|done].
    cbn [mbind option_bind]. intros Hrun He.
    destruct (IH _ _ Hrun He) as [He1|He1]; [|right; by right].
    apply add_rules_step_cases in Hstep
      as (rule & Hr & [(_ & -> & _)|(? & ? & ? & ? & _ & _ & _ & _ & -> & _)]);
      [|by left].
    cbn [css_rules] in He1. unfold values in He1. rewrite fmap_app in He1.
    apply elem_of_app in He1 as [He1|He1]; [by left|].
    apply list_elem_of_singleton in He1 as ->. right. left.
Qed.

(** Where every selector is in the working set already, [add_rules] leaves
    the processor as it is. *)
Lemma add_rules_loop_present rs this h this' h' :
  (∀ r rule, r ∈ rs → rule_objs h !! r = Some rule →
             selector rule ∈ keys (css_rules this)) →
  add_rules_loop rs (this, h) = Some (this', h') → this' = this.
Proof.
  revert this h. induction rs as [|r rs IH]; intros this h Hall;
    cbn [add_rules_loop].
  - by intros [= <- <-].
  - destruct (add_rules_step (this, h) r) as [[this1 h1]|] eqn:Hstep; [|done].
    cbn [mbind option_bind]. intros Hrun.
    pose proof (add_rules_step_frame _ _ _ _ _ Hstep) as (_ & ER & _).
    apply add_rules_step_cases in Hstep
      as (rule & Hr & [(Hg & _)|(? & ? & ? & ? & _ & _ & _ & _ & -> & _)]).
    + apply get_None in Hg. destruct Hg. apply (Hall r); [left|done].
    + apply (IH _ _) in Hrun; [done|].
      intros r0 rule0 Hin0 Hr0. apply (Hall r0); [by right|]. by rewrite <-ER.
Qed.

Lemma omap_ext_elem {A B} (f g : A → option B) (l : list A) :
  (∀ x, x ∈ l → f x = g x) → omap f l = omap g l.
Proof.
  induction l as [|x l IH]; intros Hall; [done|]. cbn [omap list_omap].
  rewrite (Hall x) by left. rewrite IH; [done|].
  intros y Hy. apply Hall. by right.
Qed.

Lemma set_decl_objs_id h : set_decl_objs h (decl_objs h) = h.
Proof. by destruct h. Qed.

Lemma merged_into_not_target R W D rs t :
  ¬ is_target R W t → merged_into R W D rs t = [].
Proof.
  intros Hnt. unfold merged_into. induction rs as [|r rs IH]; [done|].
  cbn [omap list_omap]. rewrite IH.
  destruct (R !! r) as [rule|] eqn:Hr; [|done]. cbn [mbind option_bind].
  destruct (merge_target R W r) as [tr|] eqn:Ht; [|done].
  cbn [mbind option_bind]. rewrite decide_False; [done|].
  intros [-> _]. apply Hnt. unfold merge_target in Ht. rewrite Hr in Ht.
  cbn [mbind option_bind] in Ht.
  destruct (get W (selector rule)) as [e|] eqn:Hg; [|done].
  cbn [mbind option_bind] in Ht.
  destruct (R !! e) as [erule|] eqn:He; [|done]. injection Ht as <-.
  exists (selector rule), e, erule. split_and!; [|done..].
  by apply get_Some_elem.
Qed.

(** What [add_rules] does to the declarations objects, seen from the working
    set [W1] it ends in (or a later one): where the rules fed to it share no
    declarations object with the working set's rules other than their own
    entry's, each declarations object ends as what it was with the sets of
    [merged_into] merged in, in order. *)
Lemma add_rules_loop_merged W1 rs this h this' h' :
  add_rules_loop rs (this, h) = Some (this', h') →
  Forall wf (decl_objs h) →
  (∀ k e, get (css_rules this') k = Some e → get W1 k = Some e) →
  (∀ r rule tr,
      r ∈ rs → rule_objs h !! r = Some rule →
      merge_target (rule_objs h) W1 r = Some tr → declarations rule ≠ tr →
      ¬ is_target (rule_objs h) W1 (declarations rule)) →
  Forall wf (decl_objs h')
  ∧ ∀ t, decl_objs h' !! t =
         (λ X, merge_all X (merged_into (rule_objs h) W1 (decl_objs h) rs t))
           <$> decl_objs h !! t.
Proof.
  revert this h. induction rs as [|r rs IH]; intros this h; cbn [add_rules_loop].
  - intros [= <- <-] Hwf _ _. split; [done|]. intros t.
    by destruct (decl_objs h !! t).
  - destruct (add_rules_step (this, h) r) as [[this1 h1]|] eqn:Hstep; [|done].
    cbn [mbind option_bind]. intros Hrun Hwf Hstab Hns.
    pose proof (add_rules_step_frame _ _ _ _ _ Hstep) as (_ & ER & _).
    apply add_rules_step_cases in Hstep as (rule & Hr & Hcase).
    assert (∀ r0 rule0 tr,
              r0 ∈ rs → rule_objs h1 !! r0 = Some rule0 →
              merge_target (rule_objs h1) W1 r0 = Some tr →
              declarations rule0 ≠ tr →
              ¬ is_target (rule_objs h1) W1 (declarations rule0)) as Hns1.
    { rewrite ER. intros r0 rule0 tr Hin0. apply Hns. by right. }
    destruct Hcase as [(Hg & -> & ->)
                      |(e & erule & mine & other & Hg & He & Hm & Ho & -> & ->)].
    + (* a new selector *)
      destruct (IH _ _ Hrun Hwf Hstab Hns1) as [Hwf' Hch]. split; [done|].
      intros t. rewrite Hch. f_equal.
      unfold merged_into at 2. cbn [omap list_omap]. rewrite Hr.
      cbn [mbind option_bind].
      assert (merge_target (rule_objs h) W1 r = Some (declarations rule)) as ->.
      { unfold merge_target. rewrite Hr. cbn [mbind option_bind].
        rewrite (Hstab (selector rule) r).
        - cbn [mbind option_bind]. by rewrite Hr.
        - apply (add_rules_loop_get_stable _ _ _ _ _ _ _ Hrun). cbn [css_rules].
          rewrite get_app_r by done. cbn [get]. by rewrite decide_True. }
      cbn [mbind option_bind]. rewrite decide_False; [done|]. by intros [-> ?].
    + (* a selector of the working set *)
      set (te := declarations erule) in *.
      assert (merge_target (rule_objs h) W1 r = Some te) as Htr.
      { unfold merge_target. rewrite Hr. cbn [mbind option_bind].
        rewrite (Hstab (selector rule) e).
        - cbn [mbind option_bind]. by rewrite He.
        - by apply (add_rules_loop_get_stable _ _ _ _ _ _ _ Hrun). }
      assert (wf mine) as Hwfm by (by eapply Forall_lookup_1 in Hm).
      destruct (decide (declarations rule = te)) as [Heq|Hne].
      * (* merged into itself *)
        rewrite Heq, Hm in Ho. injection Ho as <-.
        rewrite add_declarations_self, (list_insert_id _ _ _ Hm),
          set_decl_objs_id in Hrun by done.
        destruct (IH _ _ Hrun Hwf Hstab) as [Hwf' Hch].
        { intros r0 rule0 tr Hin0. apply Hns. by right. }
        split; [done|]. intros t. rewrite Hch. f_equal.
        unfold merged_into at 2. cbn [omap list_omap]. rewrite Hr, Htr.
        cbn [mbind option_bind]. rewrite decide_False; [done|].
        intros [Ht Hn]. apply Hn. by rewrite Heq.
      * assert (is_target (rule_objs h) W1 te) as Hte.
        { exists (selector rule), e, erule. split_and!; [|done..].
          apply get_Some_elem, Hstab.
          by apply (add_rules_loop_get_stable _ _ _ _ _ _ _ Hrun). }
        destruct (IH _ _ Hrun) as [Hwf' Hch]; [|done|done|].
        { cbn [set_decl_objs decl_objs]. apply Forall_insert; [done|].
          by apply add_declarations_wf. }
        split; [done|]. intros t. rewrite Hch.
        cbn [set_decl_objs decl_objs rule_objs].
        assert (merged_into (rule_objs h) W1
                  (<[te:=Declarations.add_declarations mine other]> (decl_objs h))
                  rs t
                = merged_into (rule_objs h) W1 (decl_objs h) rs t) as ->.
        { apply omap_ext_elem. intros r0 Hin0.
          destruct (rule_objs h !! r0) as [rule0|] eqn:Hr0; [|done].
          cbn [mbind option_bind].
          destruct (merge_target (rule_objs h) W1 r0) as [tr0|] eqn:Ht0; [|done].
          cbn [mbind option_bind]. case_decide as Hc; [|done].
          destruct Hc as [-> Hne0]. apply list_lookup_insert_ne.
          intros Heq0. apply (Hns r0 rule0 t); [by right|done..|].
          by rewrite <-Heq0. }
        unfold merged_into at 2. cbn [omap list_omap]. rewrite Hr, Htr.
        cbn [mbind option_bind].
        destruct (decide (t = te)) as [->|Hnt].
        -- rewrite decide_True by done. rewrite Ho.
           rewrite list_lookup_insert_eq by (by eapply lookup_lt_Some).
           by rewrite Hm.
        -- rewrite decide_False by (intros [? ?]; congruence).
           by rewrite list_lookup_insert_ne.
Qed.

Lemma merged_into_wf R W D rs t :
  Forall wf D → Forall wf (merged_into R W D rs t).
Proof.
  intros HD. unfold merged_into. induction rs as [|r rs IH]; [done|].
  cbn [omap list_omap].
  destruct (R !! r) as [rule|]; [|done]. cbn [mbind option_bind].
  destruct (merge_target R W r) as [tr|]; [|done]. cbn [mbind option_bind].
  case_decide; [|done].
  destruct (D !! declarations rule) as [c|] eqn:Hc; [|done].
  apply Forall_cons. split; [|done]. by eapply Forall_lookup_1 in Hc.
Qed.

(** Where no two of the rule objects involved hold the same declarations
    object, a rule that [add_rules] merges into another rule has a
    declarations object that belongs to no rule of the working set. *)
Lemma unshared_sources_not_targets rs this h this1 h1 :
  working_set_wf h1 (css_rules this1) →
  rule_objs h1 = rule_objs h →
  unshared_declarations h (values (css_rules this) ++ rs) →
  add_rules_loop rs (this, h) = Some (this1, h1) →
  ∀ r rule tr,
    r ∈ rs → rule_objs h !! r = Some rule →
    merge_target (rule_objs h) (css_rules this1) r = Some tr →
    declarations rule ≠ tr →
    ¬ is_target (rule_objs h) (css_rules this1) (declarations rule).
Proof.
  intros Hws1 ER Hun Hrun1.
  intros r rule tr Hin Hr Htr Hne (k & e & erule & Hke & He & Hd).
  assert (e = r) as ->.
  { apply (Hun e r erule rule); [| |done..].
    - apply elem_of_app.
      apply (add_rules_loop_values _ _ _ _ _ e Hrun1).
      unfold values. apply list_elem_of_fmap. by exists (k, e).
    - apply elem_of_app. by right. }
  destruct Hws1 as [HwfW Hall]. destruct (Hall k r Hke) as (d & Hr1 & _).
  rewrite ER, Hr in Hr1. injection Hr1 as ->.
  unfold merge_target in Htr. rewrite Hr in Htr.
  cbn [mbind option_bind selector] in Htr.
  rewrite (elem_get (css_rules this1) k r HwfW Hke) in Htr.
  cbn [mbind option_bind] in Htr.
  rewrite Hr in Htr. by injection Htr as <-.
Qed.

(** Feeding the same rules to [add_rules] a second time changes nothing,
    where no two of the rule objects involved hold the same declarations
    object. *)
Lemma add_rules_loop_twice rs this h this1 h1 :
  working_set_wf h (css_rules this) →
  Forall (rule_ok h) rs →
  Forall wf (decl_objs h) →
  unshared_declarations h (values (css_rules this) ++ rs) →
  add_rules_loop rs (this, h) = Some (this1, h1) →
  add_rules_loop rs (this1, h1) = Some (this1, h1).
Proof.
  intros Hws Hrs Hwf Hun Hrun1.
  pose proof (add_rules_loop_frame _ _ _ _ _ Hrun1) as (_ & ER & ES & EL & _).
  pose proof (add_rules_loop_working_set_wf _ _ _ _ _ Hws Hrs Hrun1) as Hws1.
  destruct (add_rules_loop_total rs this1 h1) as (this2 & h2 & Hrun2 & _).
  { by apply working_set_rule_ok. }
  { eapply Forall_impl; [exact Hrs|]. intros r. by apply rule_ok_frame. }
  rewrite Hrun2. f_equal.
  assert (this2 = this1) as ->.
  { apply (add_rules_loop_present rs this1 h1 this2 h2); [|done].
    intros r rule Hin Hr. rewrite ER in Hr.
    by apply (add_rules_loop_selectors _ _ _ _ _ _ _ Hrun1 Hin). }
  f_equal.
  pose proof (add_rules_loop_frame _ _ _ _ _ Hrun2) as (_ & ER2 & ES2 & _).
  set (W1 := css_rules this1) in *.
  assert (∀ r rule tr,
            r ∈ rs → rule_objs h !! r = Some rule →
            merge_target (rule_objs h) W1 r = Some tr →
            declarations rule ≠ tr →
            ¬ is_target (rule_objs h) W1 (declarations rule)) as Hns.
  { by apply (unshared_sources_not_targets rs this h this1 h1). }
  destruct (add_rules_loop_merged W1 _ _ _ _ _ Hrun1 Hwf) as [Hwf1 Hch1];
    [done|done|].
  destruct (add_rules_loop_merged W1 _ _ _ _ _ Hrun2 Hwf1) as [_ Hch2];
    [done|by rewrite ER|].
  rewrite ER in Hch2.
  assert (∀ t, merged_into (rule_objs h) W1 (decl_objs h1) rs t
               = merged_into (rule_objs h) W1 (decl_objs h) rs t) as Hsame.
  { intros t. apply omap_ext_elem. intros r Hin.
    destruct (rule_objs h !! r) as [rule|] eqn:Hr; [|done].
    cbn [mbind option_bind].
    destruct (merge_target (rule_objs h) W1 r) as [tr|] eqn:Htr; [|done].
    cbn [mbind option_bind]. case_decide as Hc; [|done].
    destruct Hc as [-> Hne]. rewrite Hch1.
    rewrite merged_into_not_target by (by apply (Hns r rule t)).
    by destruct (decl_objs h !! declarations rule). }
  assert (decl_objs h2 = decl_objs h1) as ED.
  { apply list_eq. intros t. rewrite Hch2, Hsame, Hch1.
    destruct (decl_objs h !! t) as [X|] eqn:HX; [|done].
    cbn [fmap option_fmap option_map]. f_equal. apply merge_all_twice.
    - by eapply Forall_lookup_1 in HX.
    - by apply merged_into_wf. }
  destruct h1, h2. cbn in *. congruence.
Qed.

Lemma all_store_rules_ok ss h rs :
  Forall (store_ok h) ss → all_store_rules ss h = Some rs →
  Forall (rule_ok h) rs.
Proof.
  revert rs. induction ss as [|s ss IH]; intros rs Hss; cbn [all_store_rules].
  - by intros [= <-].
  - apply Forall_cons in Hss as [(st & Hst & Hok) Hss].
    unfold Store.get_all_rules. rewrite Hst.
    cbn [fmap option_fmap option_map mbind option_bind].
    destruct (all_store_rules ss h) as [rest|]; [|done].
    cbn [mbind option_bind]. intros [= <-]. apply Forall_app. split; [done|].
    by apply IH.
Qed.

(** X7.  Without the combine pass [get_css] can be called again and again,
    also with stores attached: on a well-formed processor whose declaration
    sets have one entry per property and where no two of the rule objects of
    the working set and of the stores hold the same declarations object,
    [get_css] with [optimize] false returns, and calling it again on the
    state it left returns the same text and leaves the same state.  The
    second call merges every store rule into the rule under its selector
    once more, which changes nothing.  The merge of declarations is the one
    of [Declarations.add_declarations]. *)
Theorem get_css_unoptimized_twice
    (script_debug : bool) (options : css_options)
    (this : WP_Style_Engine_Processor) (h : Heap) (rs : list rule_ref) :
  optimize options = Some false →
  processor_wf this h →
  Forall wf (decl_objs h) →
  all_store_rules (values (stores this)) h = Some rs →
  unshared_declarations h (values (css_rules this) ++ rs) →
  ∃ css st1,
    get_css script_debug options (this, h) = Some (css, st1)
    ∧ get_css script_debug options st1 = Some (css, st1).
Proof.
  intros Hopt [Hws Hss] Hwf Hall Hun.
  pose proof (all_store_rules_ok _ _ _ Hss Hall) as Hrs.
  destruct (add_rules_loop_total rs this h) as (this1 & h1 & Hrun & _);
    [by apply working_set_rule_ok|done|].
  pose proof (add_rules_loop_frame _ _ _ _ _ Hrun) as (EST & _ & ES & _).
  pose proof (add_rules_loop_working_set_wf _ _ _ _ _ Hws Hrs Hrun) as Hws1.
  destruct (build_css_total (default script_debug (prettify options))
              h1 (css_rules this1) Hws1) as [css Hcss].
  exists css, (this1, h1). unfold get_css. rewrite Hopt.
  cbn [default from_option id fst snd].
  rewrite !pull_stores_all. cbn [snd]. rewrite Hall.
  cbn [mbind option_bind]. rewrite Hrun. cbn [mbind option_bind fst snd].
  rewrite Hcss. cbn [mbind option_bind]. split; [done|].
  rewrite EST, (all_store_rules_frame _ h h1 ES), Hall.
  cbn [mbind option_bind].
  rewrite (add_rules_loop_twice rs this h this1 h1) by done.
  cbn [mbind option_bind fst snd]. by rewrite Hcss.
Qed.

Lemma override_processor_wf : processor_wf override_processor override_heap.
Proof.
  split.
  - split; [apply NoDup_nil_2|]. intros k r Hin. by apply elem_of_nil in Hin.
  - repeat apply Forall_cons_2; [| |apply Forall_nil_2].
    + eexists. split; [reflexivity|].
      repeat apply Forall_cons_2; [|apply Forall_nil_2].
      eexists. split; [reflexivity|by eexists].
    + eexists. split; [reflexivity|].
      repeat apply Forall_cons_2; [| |apply Forall_nil_2];
        (eexists; split; [reflexivity|by eexists]).
Qed.

Lemma override_unshared :
  unshared_declarations override_heap
    (values (css_rules override_processor) ++ [0; 1; 2]).
Proof.
  intros r1 r2 rule1 rule2 H1 H2 Hr1 Hr2 Hd. cbn in H1, H2.
  repeat (apply elem_of_cons in H1 as [->|H1]);
    try (by apply elem_of_nil in H1);
    repeat (apply elem_of_cons in H2 as [->|H2]);
    try (by apply elem_of_nil in H2);
    try done;
    cbn in Hr1, Hr2; injection Hr1 as <-; injection Hr2 as <-;
    discriminate.
Qed.

Lemma get_css_unoptimized_twice_witness :
  ∃ css st1,
    get_css false (mkOptions (Some false) (Some false))
      (override_processor, override_heap) = Some (css, st1)
    ∧ get_css false (mkOptions (Some false) (Some false)) st1 = Some (css, st1).
Proof.
  apply (get_css_unoptimized_twice false (mkOptions (Some false) (Some false))
           override_processor override_heap [0; 1; 2]).
  - reflexivity.
  - exact override_processor_wf.
  - apply (bool_decide_unpack _); by vm_compute.
  - reflexivity.
  - exact override_unshared.
Defined.

(** Where two rule objects hold the same declarations object, a second call
    without the combine pass can give another text: the store's rule for
    [.a] holds the declarations object of the rule under [.b], into which the
    first call merges the store's rule for [.b]. *)
Lemma get_css_unoptimized_twice_shared_differs :
  ∃ css1 css2 st1 st2,
    let h := mkHeap [[("color", "red")]; [("margin", "0")]; [("padding", "0")]]
               [mkRule ".a" 0; mkRule ".b" 1; mkRule ".a" 1; mkRule ".b" 2]
               [mkStore "block-supports" [(".a", 2); (".b", 3)]] in
    let this := mkProcessor [("block-supports", 0)] [(".a", 0); (".b", 1)] in
    get_css false (mkOptions (Some false) (Some false)) (this, h)
    = Some (css1, st1)
    ∧ get_css false (mkOptions (Some false) (Some false)) st1 = Some (css2, st2)
    ∧ css1 = ".a{color: red;margin: 0;}.b{margin: 0;padding: 0;}"
    ∧ css2 = ".a{color: red;margin: 0;padding: 0;}.b{margin: 0;padding: 0;}"
    ∧ css1 ≠ css2.
Proof.
  do 4 eexists. split_and!; [reflexivity..|discriminate].
Qed.

(** X8.  Store rules cascade.  After [get_css] without the combine pass, on a
    well-formed processor whose declaration sets have one entry per property
    and where no two of the rule objects involved hold the same declarations
    object, the rule under a selector has its own declarations object, now
    updated in place: every property has the value given by the last of the
    other store rules with that selector that has the property, in the order
    of the stores, and the value it had before the call when none has it.
    The merge of declarations is the one of
    [Declarations.add_declarations]. *)
Theorem store_rules_last_wins
    (script_debug : bool) (options : css_options)
    (this this1 : WP_Style_Engine_Processor) (h h1 : Heap)
    (rs : list rule_ref) (css k : string) (e : rule_ref)
    (erule : WP_Style_Engine_CSS_Rule) :
  optimize options = Some false →
  processor_wf this h →
  Forall wf (decl_objs h) →
  all_store_rules (values (stores this)) h = Some rs →
  unshared_declarations h (values (css_rules this) ++ rs) →
  get_css script_debug options (this, h) = Some (css, (this1, h1)) →
  (k, e) ∈ css_rules this1 →
  rule_objs h !! e = Some erule →
  ∃ before after,
    decl_objs h !! declarations erule = Some before
    ∧ decl_objs h1 !! declarations erule = Some after
    ∧ ∀ p, get after p
           = override p (get before p) (other_rules_for h k e rs).
Proof.
  intros Hopt [Hws Hss] Hwf Hall Hun Hcss Hke He.
  pose proof (all_store_rules_ok _ _ _ Hss Hall) as Hrs.
  unfold get_css in Hcss. rewrite Hopt, pull_stores_all in Hcss.
  cbn [default from_option id fst snd] in Hcss. rewrite Hall in Hcss.
  cbn [mbind option_bind] in Hcss.
  destruct (add_rules_loop rs (this, h)) as [[this1' h1']|] eqn:Hrun; [|done].
  cbn [mbind option_bind fst snd] in Hcss.
  destruct (build_css _ _ _ _); [|done]. injection Hcss as _ -> ->.
  pose proof (add_rules_loop_frame _ _ _ _ _ Hrun) as (_ & ER & _ & EL & _).
  pose proof (add_rules_loop_working_set_wf _ _ _ _ _ Hws Hrs Hrun) as Hws1.
  pose proof (unshared_sources_not_targets _ _ _ _ _ Hws1 ER Hun Hrun) as Hns.
  destruct (add_rules_loop_merged (css_rules this1) _ _ _ _ _ Hrun Hwf)
    as [_ Hch]; [done|done|].
  pose proof Hws1 as [HwfW HallW].
  destruct (HallW k e Hke) as (d & He1 & Hd1).
  rewrite ER, He in He1. injection He1 as ->. cbn [declarations] in *.
  assert (is_Some (decl_objs h !! d)) as [before Hb].
  { apply lookup_lt_is_Some. rewrite <-EL. by apply lookup_lt_is_Some. }
  exists before, (merge_all before
                    (merged_into (rule_objs h) (css_rules this1)
                       (decl_objs h) rs d)).
  split; [done|]. split; [by rewrite Hch, Hb|].
  intros p. rewrite get_merge_all by (by apply merged_into_wf).
  f_equal. apply omap_ext_elem. intros r Hin.
  destruct (rule_objs h !! r) as [rule|] eqn:Hr; [|done].
  cbn [mbind option_bind].
  pose proof (add_rules_loop_selectors _ _ _ _ _ _ _ Hrun Hin Hr) as Hsel.
  apply get_is_Some in Hsel as [e' Hg]. pose proof (get_Some_elem _ _ _ Hg) as Hke'.
  destruct (HallW _ e' Hke') as (d' & He' & _). rewrite ER in He'.
  unfold merge_target. rewrite Hr. cbn [mbind option_bind]. rewrite Hg.
  cbn [mbind option_bind]. rewrite He'. cbn [mbind option_bind declarations].
  assert (∀ x kx, (kx, x) ∈ css_rules this1 →
            x ∈ values (css_rules this) ++ rs) as Hvals.
  { intros x kx Hx. apply elem_of_app.
    apply (add_rules_loop_values _ _ _ _ _ x Hrun).
    unfold values. apply list_elem_of_fmap. by exists (kx, x). }
  assert (r ∈ values (css_rules this) ++ rs) as Hr_in
    by (apply elem_of_app; by right).
  destruct (decide (selector rule = k ∧ r ≠ e)) as [[Hk Hre]|Hno].
  - rewrite decide_True; [done|]. subst k.
    assert (e' = e) as -> by (by apply (wf_functional _ _ _ _ HwfW Hke' Hke)).
    rewrite He in He'. injection He' as <-. split; [done|].
    intros Hd. apply Hre.
    apply (Hun r e rule (mkRule (selector rule) d));
      [done|by eapply Hvals|done..].
  - rewrite decide_False; [done|]. intros [-> Hd]. apply Hno. split.
    + assert (e' = e) as ->.
      { by apply (Hun e' e (mkRule (selector rule) d) (mkRule k d));
          [eapply Hvals|eapply Hvals|..]. }
      rewrite He in He'. by injection He' as ->.
    + intros ->. rewrite He in Hr. injection Hr as <-. by apply Hd.
Qed.

Lemma store_rules_last_wins_witness :
  ∃ before after,
    decl_objs override_heap !! 0 = Some before
    ∧ decl_objs
        (mkHeap [[("color", "blue"); ("margin", "0")]; [("color", "blue")];
                 [("color", "green")]]
           (rule_objs override_heap) (store_objs override_heap)) !! 0
      = Some after
    ∧ ∀ p, get after p
           = override p (get before p)
               (other_rules_for override_heap ".x" 0 [0; 1; 2]).
Proof.
  apply (store_rules_last_wins false (mkOptions (Some false) (Some false))
           override_processor
           (mkProcessor (stores override_processor) [(".x", 0); (".y", 2)])
           override_heap
           (mkHeap [[("color", "blue"); ("margin", "0")]; [("color", "blue")];
                    [("color", "green")]]
              (rule_objs override_heap) (store_objs override_heap))
           [0; 1; 2] ".x{color: blue;margin: 0;}.y{color: green;}"
           ".x" 0 (mkRule ".x" 0)).
  - reflexivity.
  - exact override_processor_wf.
  - apply (bool_decide_unpack _); by vm_compute.
  - reflexivity.
  - exact override_unshared.
  - reflexivity.
  - apply (bool_decide_unpack _); by vm_compute.
  - reflexivity.
Defined.

(** ** The number of rules *)

Lemma length_set {V} (a : php_array V) k v : length (set a k v) ≤ S (length a).
Proof.
  induction a as [|[k' v'] a IH]; csimpl; [lia|].
  case_decide; cbn [length]; lia.
Qed.

Lemma length_unset {V} (a : php_array V) k :
  wf a → k ∈ keys a → S (length (unset a k)) = length a.
Proof.
  unfold wf, keys, unset. induction a as [|[k' v'] a IH]; intros Hwf Hk.
  - by apply elem_of_nil in Hk.
  - rewrite fmap_cons in Hwf, Hk. cbn [fst] in *.
    apply NoDup_cons in Hwf as [Hn Hwf].
    destruct (decide (k' = k)) as [->|Hne].
    + rewrite filter_cons_False by (cbn; by intros ?).
      rewrite filter_all; [done|]. intros [k0 v0] Hin Heq. cbn in Heq. subst.
      apply Hn. apply list_elem_of_fmap. by exists (k, v0).
    + rewrite filter_cons_True by done. cbn [length]. f_equal.
      apply IH; [done|]. by apply elem_of_cons in Hk as [?|?].
Qed.

Lemma length_unset_all {V} (a : php_array V) (ks : list string) :
  wf a → NoDup ks → (∀ k, k ∈ ks → k ∈ keys a) →
  length (foldl unset a ks) + length ks = length a.
Proof.
  revert a. induction ks as [|k ks IH]; intros a Hwf Hnd Hsub; cbn [foldl length].
  - lia.
  - apply NoDup_cons in Hnd as [Hk Hnd].
    rewrite <-(length_unset a k) by (done || apply Hsub; left).
    rewrite <-(IH (unset a k)); [lia|by apply wf_filter|done|].
    intros k' Hk'. destruct (proj1 (elem_keys a k')) as [v Hv].
    { apply Hsub. by right. }
    apply elem_keys. exists v. apply list_elem_of_filter. split; [|done].
    cbn. by intros ->.
Qed.

(** A pass that changes the working set makes it shorter. *)
Lemma combine_entries_length jd sj0 todo sj rv objs rv' objs' :
  combine_inv jd sj0 todo sj rv →
  combine_entries todo sj rv objs = Some (rv', objs') →
  length rv' < length rv ∨ rv' = rv.
Proof.
  revert sj rv objs. induction todo as [|[sel json] todo IH];
    intros sj rv objs Hinv; cbn [combine_entries].
  - intros [= <- <-]. by right.
  - case_decide as Hlen.
    + apply IH. by eapply combine_inv_skip.
    + destruct (combine_inv_big _ _ _ _ _ _ _ (length objs) Hinv Hlen)
        as (e & -> & Hinv').
      cbn [mbind option_bind]. intros Hrun. left.
      pose proof (combine_inv_wf_sj _ _ _ _ _ Hinv) as Hwfsj.
      destruct Hinv as (_ & Hwf & _ & Hkeys & _).
      pose proof (length_unset_all rv (array_keys sj json) Hwf) as Hu.
      pose proof (length_set (foldl unset rv (array_keys sj json))
                    (implode "," (array_keys sj json)) (length objs, e.2)) as Hs.
      assert (length rv' ≤ length
                (set (foldl unset rv (array_keys sj json))
                   (implode "," (array_keys sj json)) (length objs, e.2))) as Hle.
      { destruct (IH _ _ _ Hinv' Hrun) as [?| ->]; lia. }
      rewrite <-Hu; [lia| |].
      * unfold array_keys. by apply (wf_filter _ sj).
      * intros k Hk. apply Hkeys. apply elem_array_keys in Hk.
        apply elem_keys. eauto.
Qed.

Lemma length_vmap {A B} (f : A → B) (a : php_array A) :
  length (vmap f a) = length a.
Proof. unfold vmap. by rewrite length_fmap. Qed.

(** X9.  The combine pass never adds to the number of rules: on a
    well-formed processor the working set that [get_css] leaves with
    [optimize] true is no longer than the one it leaves with [optimize]
    false, and it is shorter as soon as two rules under different selectors
    have declarations with the same JSON text, also when combined selectors
    collide. *)
Theorem optimize_never_adds_rules
    (script_debug : bool) (pretty : option bool)
    (this : WP_Style_Engine_Processor) (h : Heap) :
  processor_wf this h →
  ∃ css this' h' css0 this0 h0,
    get_css script_debug (mkOptions (Some true) pretty) (this, h)
    = Some (css, (this', h'))
    ∧ get_css script_debug (mkOptions (Some false) pretty) (this, h)
      = Some (css0, (this0, h0))
    ∧ length (css_rules this') ≤ length (css_rules this0)
    ∧ (∀ k1 k2 r1 r2 rule1 rule2,
         (k1, r1) ∈ css_rules this0 → (k2, r2) ∈ css_rules this0 → k1 ≠ k2 →
         rule_objs h0 !! r1 = Some rule1 → rule_objs h0 !! r2 = Some rule2 →
         decl_json h0 (declarations rule1) = decl_json h0 (declarations rule2) →
         length (css_rules this') < length (css_rules this0)).
Proof.
  intros [Hws Hss].
  destruct (pull_stores_total _ this h Hws Hss) as (this0 & h0 & Hpull & Hws0).
  destruct (working_set_entries _ _ Hws0) as (rv & Hrules & Hwf & Hok).
  pose proof (combine_inv_init (decl_json h0) rv Hwf) as Hinv.
  destruct (combine_entries_distinct (decl_json h0) _ _ _ _ (rule_objs h0) Hinv)
    as (rv' & objs' & Hrun & Hwf' & Hinj).
  pose proof (combine_entries_length _ _ _ _ _ _ _ _ Hinv Hrun) as Hlen.
  set (h1 := mkHeap (decl_objs h0) objs' (store_objs h0)).
  assert (entries_ok h1 (rule_objs h1) rv') as Hok'.
  { by apply (combine_entries_ok h0 _ _ _ _ _ _ Hok Hrun). }
  assert (working_set_wf h1 (vmap fst rv')) as Hws1
    by (by apply entries_working_set).
  destruct (build_css_total (default script_debug pretty) h1 _ Hws1)
    as [css Hcss].
  destruct (build_css_total (default script_debug pretty) h0 _ Hws0)
    as [css0 Hcss0].
  exists css, (mkProcessor (stores this0) (vmap fst rv')), h1, css0, this0, h0.
  split_and!.
  - unfold get_css. cbn [fst optimize prettify].
    change (default true (Some true)) with true.
    rewrite Hpull. cbn [mbind option_bind].
    rewrite (combine_rules_selectors_entries this0 h0 rv) by done.
    rewrite Hrun.
    cbn [fmap option_fmap option_map mbind option_bind fst snd css_rules].
    fold h1. by rewrite Hcss.
  - unfold get_css. cbn [fst optimize prettify].
    change (default true (Some false)) with false.
    rewrite Hpull. cbn [mbind option_bind fst snd]. by rewrite Hcss0.
  - cbn [css_rules]. rewrite Hrules, !length_vmap.
    destruct Hlen as [?| ->]; lia.
  - intros k1 k2 r1 r2 rule1 rule2 H1 H2 Hne Hr1 Hr2 Hj.
    cbn [css_rules]. rewrite Hrules, !length_vmap.
    destruct Hlen as [?| ->]; [done|]. destruct Hne.
    rewrite Hrules in H1, H2.
    apply elem_vmap in H1 as ([r1' d1] & Heq1 & H1). cbn in Heq1. subst r1'.
    apply elem_vmap in H2 as ([r2' d2] & Heq2 & H2). cbn in Heq2. subst r2'.
    destruct (Hok k1 r1 d1 H1) as [Hl1 _]. destruct (Hok k2 r2 d2 H2) as [Hl2 _].
    rewrite Hl1 in Hr1. rewrite Hl2 in Hr2.
    injection Hr1 as <-. injection Hr2 as <-.
    by apply (Hinj k1 k2 (r1, d1) (r2, d2)).
Qed.

Lemma optimize_never_adds_rules_witness :
  ∃ css this' h' css0 this0 h0,
    get_css false (mkOptions (Some true) (Some false))
      (override_processor, override_heap) = Some (css, (this', h'))
    ∧ get_css false (mkOptions (Some false) (Some false))
        (override_processor, override_heap) = Some (css0, (this0, h0))
    ∧ length (css_rules this') ≤ length (css_rules this0)
    ∧ (∀ k1 k2 r1 r2 rule1 rule2,
         (k1, r1) ∈ css_rules this0 → (k2, r2) ∈ css_rules this0 → k1 ≠ k2 →
         rule_objs h0 !! r1 = Some rule1 → rule_objs h0 !! r2 = Some rule2 →
         decl_json h0 (declarations rule1) = decl_json h0 (declarations rule2) →
         length (css_rules this') < length (css_rules this0)).
Proof.
  apply (optimize_never_adds_rules false (Some false)
           override_processor override_heap).
  exact override_processor_wf.
Defined.

(** ** Repeated calls with stores attached *)

(** A rule object that was there before the pass and is in the working set
    after it was in the working set before, under the same selector. *)
Lemma combine_entries_old todo sj rv objs rv' objs' k r d :
  combine_entries todo sj rv objs = Some (rv', objs') →
  (k, (r, d)) ∈ rv' → r < length objs → (k, (r, d)) ∈ rv.
Proof.
  revert sj rv objs. induction todo as [|[sel json] todo IH];
    intros sj rv objs; cbn [combine_entries].
  - by intros [= <- <-].
  - case_decide; [by apply IH|].
    destruct (get rv sel) as [e|]; [|done]. cbn [mbind option_bind].
    intros Hrun Hin Hlt.
    apply (IH _ _ _ Hrun) in Hin; [|rewrite length_app; cbn [length]; lia].
    apply elem_set_inv in Hin as [[= -> -> ->]|Hin]; [lia|].
    rewrite unset_all in Hin. by apply list_elem_of_filter in Hin as [_ ?].
Qed.

Lemma combine_rules_selectors_old this h this' h' k e :
  working_set_wf h (css_rules this) →
  combine_rules_selectors (this, h) = Some (this', h') →
  get (css_rules this') k = Some e → e < length (rule_objs h) →
  get (css_rules this) k = Some e.
Proof.
  intros Hws Hrun Hg Hlt.
  destruct (working_set_entries _ _ Hws) as (rv & Hrules & Hwf & Hok).
  rewrite (combine_rules_selectors_entries this h rv) in Hrun by done.
  destruct (combine_entries _ _ rv (rule_objs h)) as [[rv' objs']|] eqn:Hce;
    [|done].
  cbn [fmap option_fmap option_map fst snd] in Hrun. injection Hrun as <- <-.
  cbn [css_rules] in Hg. rewrite get_vmap in Hg.
  destruct (get rv' k) as [[e' d]|] eqn:Hg'; [|done].
  cbn in Hg. injection Hg as ->.
  apply get_Some_elem in Hg'.
  apply (combine_entries_old _ _ _ _ _ _ _ _ _ Hce) in Hg'; [|done].
  destruct Hws as [HwfW _]. apply elem_get; [done|].
  rewrite Hrules. apply elem_vmap. by exists (e, d).
Qed.

(** [add_rules] with rules whose selectors are all in the working set reads
    the working set at these selectors only, and writes declarations objects
    only: it does the same from a state that agrees in these. *)
Lemma add_rules_loop_sim rs thisA thisB hA hB thisA' hA' :
  (∀ r rule, r ∈ rs → rule_objs hA !! r = Some rule →
     ∃ e erule,
       get (css_rules thisA) (selector rule) = Some e
       ∧ get (css_rules thisB) (selector rule) = Some e
       ∧ rule_objs hA !! e = Some erule) →
  rule_objs hA `prefix_of` rule_objs hB →
  decl_objs hB = decl_objs hA →
  add_rules_loop rs (thisA, hA) = Some (thisA', hA') →
  add_rules_loop rs (thisB, hB)
  = Some (thisB, mkHeap (decl_objs hA') (rule_objs hB) (store_objs hB)).
Proof.
  revert hA hB. induction rs as [|r rs IH]; intros hA hB Hsel Hpre HD;
    cbn [add_rules_loop].
  - intros [= <- <-]. rewrite <-HD. by destruct hB.
  - destruct (add_rules_step (thisA, hA) r) as [[thisA1 hA1]|] eqn:Hstep;
      [|done].
    cbn [mbind option_bind]. intros Hrun.
    pose proof (add_rules_step_frame _ _ _ _ _ Hstep) as (_ & ER & _).
    apply add_rules_step_cases in Hstep as (rule & Hr & Hcase).
    destruct (Hsel r rule) as (e & erule & HgA & HgB & He); [left|done|].
    destruct Hcase as [(Hg & _)
                      |(e' & erule' & mine & other & Hg & He' & Hm & Ho & -> & ->)].
    { congruence. }
    rewrite HgA in Hg. injection Hg as <-.
    rewrite He in He'. injection He' as <-.
    assert (∀ i x, rule_objs hA !! i = Some x → rule_objs hB !! i = Some x)
      as Hlook.
    { intros i x Hi. destruct Hpre as [l ->]. by apply lookup_app_l_Some. }
    unfold add_rules_step. rewrite (Hlook _ _ Hr). cbn [mbind option_bind].
    rewrite HgB. unfold Rule.add_declarations. rewrite (Hlook _ _ He).
    cbn [mbind option_bind]. rewrite HD, Ho. cbn [mbind option_bind].
    rewrite Hm. cbn [mbind option_bind].
    rewrite (IH (set_decl_objs hA
                   (<[declarations erule:=
                        Declarations.add_declarations mine other]> (decl_objs hA)))
                (set_decl_objs hB
                   (<[declarations erule:=
                        Declarations.add_declarations mine other]> (decl_objs hA))));
      try done.
    intros r0 rule0 Hin0 Hr0. cbn [set_decl_objs rule_objs] in *.
    apply (Hsel r0 rule0); [by right|done].
Qed.

(** C3, amended.  Calling [get_css] twice in succession with the same
    options returns the same text, and leaves the same state, (1) for every
    processor without attached stores whose working set is well formed, and
    (2) with stores attached, on a well-formed processor whose declaration
    sets have one entry per property and where no two of the rule objects of
    the working set and of the stores hold the same declarations object,
    whenever the first call has combined no rule of a store: after it the
    selector of every store rule is still in the working set, under a rule
    object that was there before the call.  For [optimize] false this is
    always so.  In every case the first call returns. *)
Theorem get_css_twice :
  (∀ (script_debug : bool) (options : css_options)
     (this : WP_Style_Engine_Processor) (h : Heap),
      stores this = [] →
      working_set_wf h (css_rules this) →
      ∃ css st1,
        get_css script_debug options (this, h) = Some (css, st1)
        ∧ get_css script_debug options st1 = Some (css, st1))
  ∧ (∀ (script_debug : bool) (options : css_options)
       (this : WP_Style_Engine_Processor) (h : Heap) (rs : list rule_ref),
      processor_wf this h →
      Forall wf (decl_objs h) →
      all_store_rules (values (stores this)) h = Some rs →
      unshared_declarations h (values (css_rules this) ++ rs) →
      ∃ css this' h',
        get_css script_debug options (this, h) = Some (css, (this', h'))
        ∧ (optimize options = Some false →
           get_css script_debug options (this', h') = Some (css, (this', h')))
        ∧ ((∀ r rule,
              r ∈ rs → rule_objs h !! r = Some rule →
              ∃ e, get (css_rules this') (selector rule) = Some e
                   ∧ e < length (rule_objs h)) →
           get_css script_debug options (this', h') = Some (css, (this', h')))).
Proof.
  split; [exact get_css_twice_without_stores|].
  intros script_debug options this h rs [Hws Hss] Hwf Hall Hun.
  pose proof (all_store_rules_ok _ _ _ Hss Hall) as Hrs.
  destruct (add_rules_loop_total rs this h) as (this1 & h1 & Hrun & _);
    [by apply working_set_rule_ok|done|].
  pose proof (add_rules_loop_frame _ _ _ _ _ Hrun) as (EST & ER & ES & EL & _).
  pose proof (add_rules_loop_working_set_wf _ _ _ _ _ Hws Hrs Hrun) as Hws1.
  pose proof (add_rules_loop_twice rs this h this1 h1 Hws Hrs Hwf Hun Hrun)
    as Htwice.
  unfold get_css. cbn [fst snd]. rewrite pull_stores_all. cbn [snd].
  rewrite Hall. cbn [mbind option_bind]. rewrite Hrun.
  cbn [mbind option_bind].
  set (pretty := default script_debug (prettify options)).
  destruct (default true (optimize options)) eqn:Hopt.
  - (* with the combine pass *)
    destruct (combine_rules_selectors_twice this1 h1 Hws1)
      as (this2 & h2 & Hrun1 & Hrun2 & Hws2 & Hst & HD & HS).
    pose proof (combine_rules_selectors_frame _ _ _ _ Hrun1) as (_ & _ & _ & Hpre).
    rewrite Hrun1. cbn [mbind option_bind fst snd].
    destruct (build_css_total pretty h2 (css_rules this2) Hws2) as [css Hcss].
    rewrite Hcss. cbn [mbind option_bind].
    exists css, this2, h2. split; [done|]. split.
    { intros Hf. rewrite Hf in Hopt. done. }
    intros Hkept.
    rewrite pull_stores_all. cbn [snd].
    rewrite Hst, EST, (all_store_rules_frame _ h h2) by congruence.
    rewrite Hall. cbn [mbind option_bind].
    rewrite (add_rules_loop_sim rs this1 this2 h1 h2 this1 h1); try done.
    + cbn [mbind option_bind]. rewrite <-HD.
      assert (mkHeap (decl_objs h2) (rule_objs h2) (store_objs h2) = h2) as ->
        by (by destruct h2).
      rewrite Hrun2. cbn [mbind option_bind fst snd]. by rewrite Hcss.
    + intros r rule Hin Hr. rewrite ER in Hr.
      destruct (Hkept r rule Hin Hr) as (e & Hg & Hlt).
      assert (get (css_rules this1) (selector rule) = Some e) as Hg1.
      { apply (combine_rules_selectors_old this1 h1 this2 h2); try done.
        by rewrite ER. }
      destruct Hws1 as [_ HallW].
      destruct (HallW _ e (get_Some_elem _ _ _ Hg1)) as (d & He & _).
      by exists e, (mkRule (selector rule) d).
  - (* without *)
    cbn [mbind option_bind fst snd].
    destruct (build_css_total pretty h1 (css_rules this1) Hws1) as [css Hcss].
    rewrite Hcss. cbn [mbind option_bind].
    exists css, this1, h1. split; [done|].
    assert (pull_stores (values (stores this1)) (this1, h1)
              ≫= (λ st1, build_css pretty (values (css_rules st1.1)) st1.2
                           EmptyString
                         ≫= λ css0, Some (css0, st1))
            = Some (css, (this1, h1))) as Hsecond.
    { rewrite pull_stores_all. cbn [snd].
      rewrite EST, (all_store_rules_frame _ h h1 ES), Hall.
      cbn [mbind option_bind]. rewrite Htwice.
      cbn [mbind option_bind fst snd]. by rewrite Hcss. }
    split; intros _; exact Hsecond.
Qed.

Lemma mixed_processor_wf : processor_wf mixed_processor mixed_heap.
Proof.
  split.
  - split; [apply (bool_decide_unpack _); by vm_compute|].
    intros k r Hin. cbn in Hin.
    repeat (apply elem_of_cons in Hin as [[= -> ->]|Hin]);
      [eexists; split; [reflexivity|by eexists]..|].
    by apply elem_of_nil in Hin.
  - apply Forall_singleton. eexists. split; [reflexivity|].
    apply Forall_singleton. eexists. split; [reflexivity|by eexists].
Qed.

Lemma mixed_unshared :
  unshared_declarations mixed_heap (values (css_rules mixed_processor) ++ [2]).
Proof.
  intros r1 r2 rule1 rule2 H1 H2 Hr1 Hr2 Hd. cbn in H1, H2.
  repeat (apply elem_of_cons in H1 as [->|H1]);
    try (by apply elem_of_nil in H1);
    repeat (apply elem_of_cons in H2 as [->|H2]);
    try (by apply elem_of_nil in H2);
    try done;
    cbn in Hr1, Hr2; injection Hr1 as <-; injection Hr2 as <-;
    discriminate.
Qed.

Lemma get_css_twice_witness :
  ∃ css st1,
    get_css false (mkOptions (Some true) (Some false))
      (mixed_processor, mixed_heap) = Some (css, st1)
    ∧ css = ".c{color: blue;}.a,.b{color: red;}"
    ∧ get_css false (mkOptions (Some true) (Some false)) st1 = Some (css, st1).
Proof.
  destruct (proj2 get_css_twice false (mkOptions (Some true) (Some false))
              mixed_processor mixed_heap [2])
    as (css & this' & h' & Hfirst & _ & Hsecond).
  - exact mixed_processor_wf.
  - apply (bool_decide_unpack _); by vm_compute.
  - reflexivity.
  - exact mixed_unshared.
  - exists css, (this', h'). vm_compute in Hfirst.
    injection Hfirst as <- <- <-. split; [reflexivity|]. split; [reflexivity|].
    apply Hsecond. intros r rule ->%list_elem_of_singleton [= <-].
    exists 2. split; [reflexivity|]. cbn. lia.
Defined.
